(** * Layered Pareto-frontier pools (stkq::MultiVectorGPS, stkq::MultiVectorDEG)

    A shallow embedding of [include/multi_vector_gps.h] and
    [include/multi_vector_deg.h], and the properties of the skyline
    extraction, the layered pools, the weight lattice and the pruning bitmap.

    Conventions of the embedding.
    - A distance ([float] in the source) is only ever compared by the pool
      code, never computed with.  A distance is therefore a rational number
      [Q] (every finite [float] is one) and [<], [>], [!=] are the exact
      comparisons; NaN has no counterpart.
    - The weights of the weight lattice are computed with [float] arithmetic;
      they are IEEE 754 binary32 numbers ([spec_float] at precision 24),
      with the operations of the standard library's [SpecFloat].
    - [unsigned] identifiers are [N]; counters that are bounded by the size
      of a container ([int l], [int k], [size()]) are [Z] or [nat]; a
      [size_t] that is computed with is [N] with its wrap-around at 2^64.
    - A call ends in an [outcome]: a normal return, a thrown exception, or
      undefined behaviour (an out-of-bounds [operator[]]).  A member function
      returns its outcome together with the state it leaves behind.
    - A [while] loop whose termination is not structural takes fuel; running
      out of fuel is [None], and the theorems show it does not happen.
    - Whether memory can be had is the allocator's decision.  The
      [reserve(n)] of a constructor, whose [n] the caller chooses, asks an
      oracle of type [N -> bool] and throws [std::bad_alloc] on a refusal;
      a container that grows by one element is taken to get its memory. *)

From Stdlib Require Import List Bool Arith ZArith NArith QArith Lia Lqa Permutation.
From Stdlib Require Import Floats.SpecFloat.
Import ListNotations.

(** ** Outcomes *)

Inductive exn : Type :=
| invalid_argument   (* std::invalid_argument *)
| out_of_range       (* std::out_of_range *)
| bad_alloc.         (* std::bad_alloc *)

Inductive outcome (A : Type) : Type :=
| Normal (a : A)
| Thrown (e : exn)
| Undefined.

Arguments Normal {A} a.
Arguments Thrown {A} e.
Arguments Undefined {A}.

Abbreviation Done := (Normal tt).

(** ** Distances *)

Definition distance : Type := Q.

(** [a < b] on distances. *)
Definition dist_lt (a b : distance) : bool :=
  match (a ?= b)%Q with Lt => true | _ => false end.

(** [a != b] on distances. *)
Definition dist_ne (a b : distance) : bool := negb (Qeq_bool a b).

(** [distances_[dim]]; the callers have checked the sizes before. *)
Definition at_dim (v : list distance) (dim : nat) : distance := nth dim v 0%Q.

(** [operator<] of both neighbour structs: lexicographic order of the
    distance vectors, the shorter vector first on a common prefix. *)
Fixpoint vector_less (a b : list distance) : bool :=
  match a, b with
  | x :: a', y :: b' => if dist_ne x y then dist_lt x y else vector_less a' b'
  | [], _ :: _ => true
  | _, [] => false
  end.

(** Pareto dominance, as the specification words it: [a] is nowhere worse
    than [b] on the first [d] dimensions and strictly better on one. *)
Definition Dominates (d : nat) (a b : list distance) : Prop :=
  (forall i, (i < d)%nat -> (at_dim a i <= at_dim b i)%Q) /\
  (exists i, (i < d)%nat /\ (at_dim a i < at_dim b i)%Q).

(** ** The two point types behind one interface

    [MultiVectorNeighbor] and [MultiVectorDEGNeighbor] are used by textually
    identical pool code that reads [id_], [distances_] and [flag] and builds
    new points with the struct's constructor. *)

Class NeighborLike (P : Type) : Type := {
  get_id : P -> N;
  get_distances : P -> list distance;
  get_flag : P -> bool;
  get_layer : P -> Z;
  (** the constructor call of [emplace_back(id, distances, ..., flag, layer)] *)
  construct : N -> list distance -> bool -> Z -> P;
  construct_id : forall i v f l, get_id (construct i v f l) = i;
  construct_distances : forall i v f l, get_distances (construct i v f l) = v;
  construct_flag : forall i v f l, get_flag (construct i v f l) = f;
  construct_layer : forall i v f l, get_layer (construct i v f l) = l
}.

Module Plain.
(** struct MultiVectorNeighbor *)
Record MultiVectorNeighbor : Type := {
  id_ : N;
  distances_ : list distance;
  flag : bool;
  layer_ : Z
}.

Definition make (id : N) (distances : list distance) (f : bool) (layer : Z)
  : MultiVectorNeighbor :=
  {| id_ := id; distances_ := distances; flag := f; layer_ := layer |}.
End Plain.

#[export] Instance Plain_NeighborLike : NeighborLike Plain.MultiVectorNeighbor := {
  get_id := Plain.id_;
  get_distances := Plain.distances_;
  get_flag := Plain.flag;
  get_layer := Plain.layer_;
  construct := Plain.make;
  construct_id := fun _ _ _ _ => eq_refl;
  construct_distances := fun _ _ _ _ => eq_refl;
  construct_flag := fun _ _ _ _ => eq_refl;
  construct_layer := fun _ _ _ _ => eq_refl
}.

Definition SIZE_MAX : N := 18446744073709551615.

(** [size_t] arithmetic wraps at 2^64. *)
Definition size_t_wrap (n : N) : N := (n mod (SIZE_MAX + 1))%N.

(** [unsigned] arithmetic wraps at 2^32. *)
Definition unsigned_wrap (n : N) : N := (n mod 2 ^ 32)%N.

Module Weighted.
(** struct MultiVectorDEGNeighbor; a bitmap word is a [uint64_t]. *)
Record MultiVectorDEGNeighbor : Type := {
  id_ : N;
  distances_ : list distance;
  pruning_bitmap_ : list Z;
  flag : bool;
  layer_ : Z;
  num_weight_combinations_ : N
}.

(** The constructor: [(num_weight_combinations + 63) / 64] zero words. *)
Definition make (id : N) (distances : list distance)
           (num_weight_combinations : N) (f : bool) (layer : Z)
  : MultiVectorDEGNeighbor :=
  let num_uint64 := (size_t_wrap (num_weight_combinations + 63) / 64)%N in
  {| id_ := id; distances_ := distances;
     pruning_bitmap_ := repeat 0%Z (N.to_nat num_uint64);
     flag := f; layer_ := layer;
     num_weight_combinations_ := num_weight_combinations |}.

Definition set_word (p : MultiVectorDEGNeighbor) (idx : nat) (w : Z)
  : MultiVectorDEGNeighbor :=
  {| id_ := id_ p; distances_ := distances_ p;
     pruning_bitmap_ :=
       firstn idx (pruning_bitmap_ p) ++ w :: skipn (S idx) (pruning_bitmap_ p);
     flag := flag p; layer_ := layer_ p;
     num_weight_combinations_ := num_weight_combinations_ p |}.

(** [~x] on a [uint64_t]. *)
Definition not64 (x : Z) : Z := Z.land (Z.lnot x) (Z.ones 64).

(** void setPruned(size_t weight_idx, bool pruned) *)
Definition setPruned (p : MultiVectorDEGNeighbor) (weight_idx : N) (pruned : bool)
  : outcome unit * MultiVectorDEGNeighbor :=
  if (num_weight_combinations_ p <=? weight_idx)%N then (Thrown out_of_range, p)
  else
    let uint64_idx := N.to_nat (weight_idx / 64) in
    let bit_idx := Z.of_N (weight_idx mod 64) in
    match nth_error (pruning_bitmap_ p) uint64_idx with
    | None => (Undefined, p)
    | Some w =>
        if pruned
        then (Done, set_word p uint64_idx (Z.lor w (Z.shiftl 1 bit_idx)))
        else (Done, set_word p uint64_idx (Z.land w (not64 (Z.shiftl 1 bit_idx))))
    end.

(** bool isPruned(size_t weight_idx) const *)
Definition isPruned (p : MultiVectorDEGNeighbor) (weight_idx : N) : outcome bool :=
  if (num_weight_combinations_ p <=? weight_idx)%N then Thrown out_of_range
  else
    let uint64_idx := N.to_nat (weight_idx / 64) in
    let bit_idx := Z.of_N (weight_idx mod 64) in
    match nth_error (pruning_bitmap_ p) uint64_idx with
    | None => Undefined
    | Some w => Normal (negb (Z.land w (Z.shiftl 1 bit_idx) =? 0)%Z)
    end.

(** The bitmap holds ceil(K / 64) words, K the number of combinations. *)
Definition bitmap_sized (p : MultiVectorDEGNeighbor) : Prop :=
  N.of_nat (length (pruning_bitmap_ p)) = ((num_weight_combinations_ p + 63) / 64)%N.
End Weighted.

(** The pool of a [MultiVectorDEG] builds its points with the pool's
    [num_weight_combinations_], here [K]. *)
Definition Weighted_NeighborLike (K : N)
  : NeighborLike Weighted.MultiVectorDEGNeighbor := {|
  get_id := Weighted.id_;
  get_distances := Weighted.distances_;
  get_flag := Weighted.flag;
  get_layer := Weighted.layer_;
  construct := fun i v f l => Weighted.make i v K f l;
  construct_id := fun _ _ _ _ => eq_refl;
  construct_distances := fun _ _ _ _ => eq_refl;
  construct_flag := fun _ _ _ _ => eq_refl;
  construct_layer := fun _ _ _ _ => eq_refl
|}.

(** ** The pool code, once for both point types *)

Section Pool.
Context {P : Type} {NL : NeighborLike P}.

(** The innermost loop of [findSkyline] over [dim], [n] dimensions to go;
    returns the locals [(dominates, strictly_less)] as the loop leaves
    them. *)
Fixpoint dominance_scan (other point : list distance) (dim n : nat)
         (strictly_less : bool) : bool * bool :=
  match n with
  | O => (true, strictly_less)
  | S n' =>
      if dist_lt (at_dim point dim) (at_dim other dim)   (* other > point *)
      then (false, strictly_less)                        (* break *)
      else dominance_scan other point (S dim) n'
             (if dist_lt (at_dim other dim) (at_dim point dim)
              then true else strictly_less)
  end.

(** The verdict [dominates && strictly_less] of the innermost loop. *)
Definition dominatesb (d : nat) (other point : list distance) : bool :=
  let '(dominates, strictly_less) := dominance_scan other point 0 d false in
  dominates && strictly_less.

(** The loop over [other] for one [point]; returns [is_skyline]. *)
Fixpoint is_skyline_scan (expected_dim : nat) (point : P) (others : list P) : bool :=
  match others with
  | [] => true
  | other :: rest =>
      if (get_id point =? get_id other)%N
      then is_skyline_scan expected_dim point rest       (* continue *)
      else
        let '(dominates, strictly_less) :=
          dominance_scan (get_distances other) (get_distances point)
                         0 expected_dim false in
        if dominates && strictly_less
        then false                                       (* break *)
        else is_skyline_scan expected_dim point rest
  end.

(** The outer loop over [point]; [todo] is what is left of [points]. *)
Fixpoint skyline_loop (expected_dim : nat) (points todo skyline remain_points : list P)
  : list P * list P :=
  match todo with
  | [] => (skyline, remain_points)
  | point :: rest =>
      if is_skyline_scan expected_dim point points
      then skyline_loop expected_dim points rest (skyline ++ [point]) remain_points
      else skyline_loop expected_dim points rest skyline (remain_points ++ [point])
  end.

(** void findSkyline(points, skyline, remain_points), the same text in
    [MultiVectorGPS], [MultiVectorDEG] and both queues.  The state returned
    is that of the two output vectors. *)
Definition findSkyline (num_dimensions : nat) (points skyline remain_points : list P)
  : outcome unit * (list P * list P) :=
  match points with
  | [] => (Done, (skyline, remain_points))
  | _ :: _ =>
      if forallb (fun point => length (get_distances point) =? num_dimensions) points
      then (Done, skyline_loop num_dimensions points points skyline remain_points)
      else (Thrown invalid_argument, (skyline, remain_points))
  end.

(** [std::sort] with [operator<].  The standard leaves the order of
    equivalent elements open; this is the stable choice, and no theorem
    below depends on it. *)
Fixpoint sort_insert (x : P) (l : list P) : list P :=
  match l with
  | [] => [x]
  | y :: l' =>
      if vector_less (get_distances y) (get_distances x)
      then y :: sort_insert x l'
      else x :: l
  end.

Definition sort (l : list P) : list P := fold_right sort_insert [] l.

(** class MultiVectorGPS / MultiVectorDEG: the members the operations
    below use.  ([nn_new_] and the like are only emptied;
    [MultiVectorDEG]'s weight table is fixed at construction and reaches
    the operations through [construct].) *)
Record LayeredPool : Type := {
  pool_ : list P;
  outlier_ : list P;
  M_ : nat;
  Q_ : nat;
  num_layer_ : Z;
  num_dimensions_ : nat
}.

Definition with_pools (s : LayeredPool) (pool outlier : list P) : LayeredPool :=
  {| pool_ := pool; outlier_ := outlier; M_ := M_ s; Q_ := Q_ s;
     num_layer_ := num_layer_ s; num_dimensions_ := num_dimensions_ s |}.

Definition with_num_layer (s : LayeredPool) (l : Z) : LayeredPool :=
  {| pool_ := pool_ s; outlier_ := outlier_ s; M_ := M_ s; Q_ := Q_ s;
     num_layer_ := l; num_dimensions_ := num_dimensions_ s |}.

(** The constructor [(m, s, q, num_dimensions)] of [MultiVectorGPS]:
    after the check of [num_dimensions] come [nn_new_.reserve(s * 2)] and
    [pool_.reserve(4 * m * m)], both sizes computed in [unsigned].
    [reserve_nn_new] and [reserve_pool] are the allocator's answers for the
    two vectors. *)
Definition new_pool (reserve_nn_new reserve_pool : N -> bool)
           (m s q num_dimensions : nat) : outcome LayeredPool :=
  if num_dimensions <? 1 then Thrown invalid_argument
  else if negb (reserve_nn_new (unsigned_wrap (N.of_nat s * 2))) then Thrown bad_alloc
  else if negb (reserve_pool
                  (unsigned_wrap (unsigned_wrap (4 * N.of_nat m) * N.of_nat m)))
       then Thrown bad_alloc
  else Normal {| pool_ := []; outlier_ := []; M_ := m; Q_ := q;
                 num_layer_ := 0; num_dimensions_ := num_dimensions |}.

(** The [for] loop [pool_.emplace_back(point.id_, point.distances_, true, l)]. *)
Definition emplace_fresh (l : Z) (skyline_result : list P) : list P :=
  map (fun point => construct (get_id point) (get_distances point) true l)
      skyline_result.

(** The [for] loop [pool_.emplace_back(..., point.flag, l)]. *)
Definition emplace_kept (l : Z) (skyline_result : list P) : list P :=
  map (fun point => construct (get_id point) (get_distances point) (get_flag point) l)
      skyline_result.

(** The [while] loop of [initNeighbor]; [skyline_result] and
    [remain_points] are empty at the head of every iteration. *)
Fixpoint initNeighbor_loop (fuel : nat) (s : LayeredPool) (insert_points : list P)
         (l : Z) : option (outcome unit * LayeredPool) :=
  match fuel with
  | O => None
  | S fuel' =>
      match insert_points with
      | [] => Some (Done, with_num_layer s l)
      | _ :: _ =>
          match findSkyline (num_dimensions_ s) insert_points [] [] with
          | (Normal _, (skyline_result, remain_points)) =>
              initNeighbor_loop fuel'
                (with_pools s (pool_ s ++ emplace_fresh l skyline_result) skyline_result)
                remain_points (l + 1)
          | (Thrown e, _) => Some (Thrown e, s)
          | (Undefined, _) => Some (Undefined, s)
          end
      end
  end.

(** void initNeighbor(insert_points) *)
Definition initNeighbor (s : LayeredPool) (insert_points : list P)
  : option (outcome unit * LayeredPool) :=
  match initNeighbor_loop (S (length insert_points)) s insert_points 0 with
  | Some (Normal _, s') => Some (Done, with_pools s' (sort (pool_ s')) (outlier_ s'))
  | r => r
  end.

(** The [while] loop of [updateNeighbor]. *)
Fixpoint updateNeighbor_loop (fuel : nat) (s : LayeredPool) (candidate : list P)
         (l : Z) : option (outcome unit * LayeredPool) :=
  match fuel with
  | O => None
  | S fuel' =>
      if (length (pool_ s) <? M_ s) && (0 <? length candidate)
      then
        match findSkyline (num_dimensions_ s) candidate [] [] with
        | (Normal _, (skyline_result, remain_points)) =>
            updateNeighbor_loop fuel'
              (with_pools s (pool_ s ++ emplace_kept l skyline_result) skyline_result)
              remain_points (l + 1)
        | (Thrown e, _) => Some (Thrown e, s)
        | (Undefined, _) => Some (Undefined, s)
        end
      else Some (Done, with_num_layer s l)
  end.

(** void updateNeighbor(): [candidate] takes the pool, the pool starts
    empty. *)
Definition updateNeighbor (s : LayeredPool) : option (outcome unit * LayeredPool) :=
  let candidate := sort (pool_ s) in
  updateNeighbor_loop (S (length candidate)) (with_pools s [] (outlier_ s)) candidate 0.

Definition has_id (id : N) (l : list P) : bool :=
  existsb (fun point => (get_id point =? id)%N) l.

(** void insert(id, distances) *)
Definition insert (s : LayeredPool) (id : N) (distances : list distance)
  : outcome unit * LayeredPool :=
  if negb (length distances =? num_dimensions_ s) then (Thrown invalid_argument, s)
  else if has_id id (pool_ s) then (Done, s)
  else if has_id id (outlier_ s) then (Done, s)
  else (Done, with_pools s (pool_ s) (outlier_ s ++ [construct id distances true 0])).

(** void clear() *)
Definition clear (s : LayeredPool) : LayeredPool :=
  with_num_layer (with_pools s [] []) 0.

(** *** class MultiVectorSkylineQueue *)

Record SkylineQueue : Type := {
  q_pool_ : list P;
  q_M_ : nat;
  q_num_layer_ : Z;
  q_num_dimensions_ : nat
}.

(** The [for] loop of [updateNeighbor(int &nk)] over one skyline; the
    state is [(pool_, k, nk, updated)]. *)
Fixpoint emplace_tracking (l : Z) (skyline_result : list P)
         (st : list P * Z * Z * bool) : list P * Z * Z * bool :=
  match skyline_result with
  | [] => st
  | point :: rest =>
      let '(pool, k, nk, updated) := st in
      let pool := pool ++ [construct (get_id point) (get_distances point) (get_flag point) l] in
      let '(k, nk, updated) :=
        if updated
        then if get_flag point
             then (k, k, false)                  (* nk = k; updated = false *)
             else ((k + 1)%Z, nk, updated)       (* k++ *)
        else (k, nk, updated) in
      emplace_tracking l rest (pool, (k + 1)%Z, nk, updated)   (* k++ *)
  end.

Fixpoint queue_update_loop (fuel : nat) (M num_dimensions : nat)
         (candidate : list P) (l : Z) (st : list P * Z * Z * bool)
  : option (outcome unit * (list P * Z * Z)) :=
  match fuel with
  | O => None
  | S fuel' =>
      let '(pool, k, nk, updated) := st in
      if (length pool <? M) && (0 <? length candidate)
      then
        match findSkyline num_dimensions candidate [] [] with
        | (Normal _, (skyline_result, remain_points)) =>
            queue_update_loop fuel' M num_dimensions remain_points (l + 1)
                              (emplace_tracking l skyline_result st)
        | (Thrown e, _) => Some (Thrown e, (pool, l, nk))
        | (Undefined, _) => Some (Undefined, (pool, l, nk))
        end
      else Some (Done, (pool, l, nk))
  end.

(** void updateNeighbor(int &nk), which only the plain queue has: returns
    the queue and [nk]. *)
Definition queue_updateNeighbor (q : SkylineQueue) (nk : Z)
  : option (outcome unit * (SkylineQueue * Z)) :=
  let candidate := sort (q_pool_ q) in
  match queue_update_loop (S (length candidate)) (q_M_ q) (q_num_dimensions_ q)
                          candidate 0 ([], 0%Z, nk, true) with
  | None => None
  | Some (Normal _, (pool, l, nk')) =>
      Some (Done, ({| q_pool_ := pool; q_M_ := q_M_ q; q_num_layer_ := l;
                      q_num_dimensions_ := q_num_dimensions_ q |}, nk'))
  | Some (c, (pool, _, nk')) =>
      Some (c, ({| q_pool_ := pool; q_M_ := q_M_ q; q_num_layer_ := q_num_layer_ q;
                   q_num_dimensions_ := q_num_dimensions_ q |}, nk'))
  end.

(** The position of the first flagged point of a pool. *)
Fixpoint first_flagged (pool : list P) : option nat :=
  match pool with
  | [] => None
  | point :: rest =>
      if get_flag point then Some O else option_map S (first_flagged rest)
  end.

(** The layers that repeated skyline extraction peels off [points]. *)
Fixpoint peel (fuel : nat) (num_dimensions : nat) (points : list P) : list (list P) :=
  match fuel, points with
  | O, _ | _, [] => []
  | S fuel', _ :: _ =>
      let '(skyline, remain) :=
        skyline_loop num_dimensions points points [] [] in
      skyline :: peel fuel' num_dimensions remain
  end.

(** The pool entries [initNeighbor] makes of successive layers, the first
    of them at layer [l]. *)
Fixpoint layered (l : Z) (layers : list (list P)) : list P :=
  match layers with
  | [] => []
  | skyline :: rest => emplace_fresh l skyline ++ layered (l + 1) rest
  end.

(** The state the loop of [initNeighbor] reaches from [s] and layer
    counter [l] when it peels [layers]. *)
Definition init_result (s : LayeredPool) (l : Z) (layers : list (list P))
  : LayeredPool :=
  {| pool_ := pool_ s ++ layered l layers;
     outlier_ := last layers (outlier_ s);
     M_ := M_ s; Q_ := Q_ s;
     num_layer_ := l + Z.of_nat (length layers);
     num_dimensions_ := num_dimensions_ s |}.

Definition dims_ok (d : nat) (points : list P) : Prop :=
  Forall (fun p => length (get_distances p) = d) points.

Definition same_point (a b : P) : Prop :=
  get_id a = get_id b /\ get_distances a = get_distances b.

(** What the loops of [updateNeighbor(int &nk)] maintain on
    [(pool_, k, nk, updated)]: until a flagged point is met [k] is twice
    the pool size; afterwards [nk] is twice the position of the first
    flagged point. *)
Definition tracking_inv (st : list P * Z * Z * bool) : Prop :=
  let '(pool, k, nk, updated) := st in
  if updated
  then first_flagged pool = None /\ k = (2 * Z.of_nat (length pool))%Z
  else exists pos, first_flagged pool = Some pos /\ nk = (2 * Z.of_nat pos)%Z.
End Pool.

(** ** The weight lattice ([generateWeightCombinations])

    Weights are binary32 numbers.  Every operation rounds to nearest, ties
    to even, as [float] arithmetic does. *)

Module Float32.
Definition prec : Z := 24.
Definition emax : Z := 128.
Definition float : Type := spec_float.

(** An integer as a [float] (exact below 2^24). *)
Definition of_Z (n : Z) : float := binary_normalize prec emax n 0 false.

(** The decimal literal [p/q] with [p] and [q] exactly representable: the
    binary32 number nearest to it, which is the rounded quotient. *)
Definition literal (p q : Z) : float := SFdiv prec emax (of_Z p) (of_Z q).

Definition add : float -> float -> float := SFadd prec emax.
Definition sub : float -> float -> float := SFsub prec emax.
Definition mul : float -> float -> float := SFmul prec emax.
Definition div : float -> float -> float := SFdiv prec emax.
Definition neg : float -> float := SFopp.
Definition ltb : float -> float -> bool := SFltb.
Definition leb : float -> float -> bool := SFleb.
Definition eqb : float -> float -> bool := SFeqb.
Definition geb (a b : float) : bool := SFleb b a.

(** [std::round]: the nearest integer, halfway cases away from zero. *)
Definition round (x : float) : float :=
  match x with
  | S754_finite s m (Zneg p) =>
      let q := Z.shiftr (Zpos m) (Zpos p) in
      let n := if Z.testbit (Zpos m) (Zpos p - 1) then (q + 1)%Z else q in
      binary_normalize prec emax (if s then (- n)%Z else n) 0 s
  | _ => x
  end.

(** Structural equality of two floats (the same datum, not [==]). *)
Definition same (a b : float) : bool :=
  match a, b with
  | S754_zero s, S754_zero s' => Bool.eqb s s'
  | S754_infinity s, S754_infinity s' => Bool.eqb s s'
  | S754_nan, S754_nan => true
  | S754_finite s m e, S754_finite s' m' e' =>
      Bool.eqb s s' && Pos.eqb m m' && Z.eqb e e'
  | _, _ => false
  end.
End Float32.

Abbreviation float := Float32.float.

Definition MAX_VECTOR_DIM : nat := 8.
Definition WEIGHT_STEP : float := Float32.literal 1 10.        (* 0.1f *)
Definition f_0_001 : float := Float32.literal 1 1000.          (* 0.001f *)
Definition f_1_001 : float := Float32.literal 1001 1000.       (* 1.001f *)
Definition f_0 : float := Float32.of_Z 0.                      (* 0.0f *)
Definition f_1 : float := Float32.of_Z 1.                      (* 1.0f *)
Definition f_10 : float := Float32.of_Z 10.                    (* 10.0f *)

(** [std::round(x * 10.0f) / 10.0f] *)
Definition round_to_tenth (x : float) : float :=
  Float32.div (Float32.round (Float32.mul x f_10)) f_10.

(** The [for] loop of the lambda [backtrack] over [w]; [recurse] is the
    recursive call [backtrack(dim + 1, ...)].  [result] is kept in reverse:
    [push_back] is a cons. *)
Definition weight_loop (num_dimensions dim : nat) (current : list float)
           (current_sum : float)
           (recurse : list float -> float -> float -> list (list float)
                      -> option (list (list float))) :=
  fix loop (fuel : nat) (w : float) (result : list (list float)) {struct fuel}
    : option (list (list float)) :=
    match fuel with
    | O => None
    | S fuel' =>
        if Float32.leb w f_1_001 && Float32.leb (Float32.add current_sum w) f_1_001
        then
          let rounded_w := round_to_tenth w in
          let min_needed := f_0 in
          let max_possible :=
            Float32.mul (Float32.of_Z (Z.of_nat (num_dimensions - dim - 1))) f_1 in
          let remaining_needed := Float32.sub f_1 (Float32.add current_sum rounded_w) in
          if Float32.geb remaining_needed (Float32.sub min_needed f_0_001)
             && Float32.leb remaining_needed (Float32.add max_possible f_0_001)
          then
            match recurse (current ++ [rounded_w])
                          (Float32.add current_sum rounded_w) remaining_needed result with
            | None => None
            | Some result' => loop fuel' (Float32.add w WEIGHT_STEP) result'
            end
          else loop fuel' (Float32.add w WEIGHT_STEP) result
        else Some result
    end.

(** The recursive lambda [backtrack(dim, current_sum, remaining)]; [fuel]
    bounds the recursion depth, and the [for] loop gets 16 rounds. *)
Fixpoint backtrack (num_dimensions : nat) (fuel : nat) (dim : nat)
         (current : list float) (current_sum remaining : float)
         (result : list (list float)) {struct fuel} : option (list (list float)) :=
  match fuel with
  | O => None
  | S fuel' =>
      if dim =? num_dimensions - 1 then
        let last_weight := Float32.sub f_1 current_sum in
        if Float32.geb last_weight (Float32.neg f_0_001)
           && Float32.leb last_weight f_1_001
        then
          let rounded := round_to_tenth last_weight in
          if Float32.geb rounded (Float32.neg f_0_001) && Float32.leb rounded f_1_001
          then Some ((current ++ [rounded]) :: result)
          else Some result
        else Some result
      else
        weight_loop num_dimensions dim current current_sum
                    (backtrack num_dimensions fuel' (S dim)) 16 f_0 result
  end.

(** [operator<] of [std::vector<float>] (lexicographical compare). *)
Fixpoint weights_less (a b : list float) : bool :=
  match a, b with
  | _, [] => false
  | [], _ :: _ => true
  | x :: a', y :: b' =>
      if Float32.ltb x y then true
      else if Float32.ltb y x then false
      else weights_less a' b'
  end.

(** [operator==] of [std::vector<float>]. *)
Fixpoint weights_equal (a b : list float) : bool :=
  match a, b with
  | [], [] => true
  | x :: a', y :: b' => Float32.eqb x y && weights_equal a' b'
  | _, _ => false
  end.

(** [std::sort(result.begin(), result.end())] *)
Fixpoint weights_sort_insert (x : list float) (l : list (list float)) : list (list float) :=
  match l with
  | [] => [x]
  | y :: l' => if weights_less y x then y :: weights_sort_insert x l' else x :: l
  end.

Definition weights_sort (l : list (list float)) : list (list float) :=
  fold_right weights_sort_insert [] l.

(** [std::unique]: an element is dropped when it equals the last one kept. *)
Fixpoint unique_after (kept : list float) (l : list (list float)) : list (list float) :=
  match l with
  | [] => []
  | x :: rest =>
      if weights_equal kept x then unique_after kept rest
      else x :: unique_after x rest
  end.

Definition unique (l : list (list float)) : list (list float) :=
  match l with
  | [] => []
  | x :: rest => x :: unique_after x rest
  end.

(** std::vector<std::vector<float>> generateWeightCombinations(size_t) *)
Definition generateWeightCombinations (num_dimensions : nat)
  : option (list (list float)) :=
  if num_dimensions =? 0 then Some []
  else if num_dimensions =? 1 then Some [[f_1]]
  else
    match backtrack num_dimensions num_dimensions 0 [] f_0 f_1 [] with
    | None => None
    | Some result => Some (unique (weights_sort (rev result)))
    end.

(** *** Notions used to state and prove the cardinality *)

Fixpoint binomial (n k : nat) : nat :=
  match k, n with
  | O, _ => 1
  | S _, O => 0
  | S k', S n' => binomial n' k' + binomial n' k
  end.

(** No two combinations of a list are equal ([==]). *)
Definition pairwise_distinct (l : list (list float)) : Prop :=
  ForallOrdPairs (fun a b => weights_equal a b = false) l.

(** [j] tenths as a float: [j / 10.0f]. *)
Definition tenth (j : nat) : float := Float32.div (Float32.of_Z (Z.of_nat j)) f_10.

(** The value of [w] in round [j] of the [for] loop. *)
Fixpoint w_at (j : nat) : float :=
  match j with
  | O => f_0
  | S j' => Float32.add (w_at j') WEIGHT_STEP
  end.

(** The ways to write [n] as an ordered sum of [r] naturals, in
    lexicographic order. *)
Fixpoint compositions (r n : nat) : list (list nat) :=
  match r with
  | O => []
  | S r' =>
      match r' with
      | O => [[n]]
      | S _ => flat_map (fun j => map (cons j) (compositions r' (n - j))) (seq 0 (S n))
      end
  end.

Fixpoint count_compositions (r n : nat) : nat :=
  match r with
  | O => 0
  | S r' =>
      match r' with
      | O => 1
      | S _ => list_sum (map (fun j => count_compositions r' (n - j)) (seq 0 (S n)))
      end
  end.

Fixpoint nat_lex_lt (a b : list nat) : Prop :=
  match a, b with
  | x :: a', y :: b' => (x < y)%nat \/ (x = y /\ nat_lex_lt a' b')
  | _, _ => False
  end.

(** A float stands for [j] tenths. *)
Definition is_tenth (f : float) (j : nat) : Prop :=
  (j <= 10)%nat /\ Float32.eqb f (tenth j) = true.

Definition mem_float (x : float) (l : list float) : bool :=
  existsb (Float32.same x) l.

Fixpoint dedup_floats (l : list float) : list float :=
  match l with
  | [] => []
  | x :: rest => if mem_float x rest then dedup_floats rest else x :: dedup_floats rest
  end.

(** The values [current_sum] can take after [k] tenths were handed out:
    row [k] of the table, built row by row from the rows before. *)
Fixpoint sums_rows (n : nat) : list (list float) :=
  match n with
  | O => [[f_0]]
  | S n' =>
      let rows := sums_rows n' in
      rows ++
      [dedup_floats
         (flat_map (fun j => map (fun cs => Float32.add cs (tenth j))
                                 (nth (S n' - j) rows []))
                   (seq 1 (S n')))]
  end.

Definition sums_table : list (list float) := Eval vm_compute in sums_rows 10.

Definition reachable (k : nat) (cs : float) : Prop := In cs (nth k sums_table []).

(** The guard of the [for] loop in round [j] at [current_sum = cs]. *)
Definition loop_guard (cs : float) (j : nat) : bool :=
  Float32.leb (w_at j) f_1_001 && Float32.leb (Float32.add cs (w_at j)) f_1_001.

(** The test on [remaining_needed] with [m] dimensions left after this one. *)
Definition need_ok (m : nat) (cs : float) (j : nat) : bool :=
  let remaining_needed := Float32.sub f_1 (Float32.add cs (round_to_tenth (w_at j))) in
  Float32.geb remaining_needed (Float32.sub f_0 f_0_001)
  && Float32.leb remaining_needed
       (Float32.add (Float32.mul (Float32.of_Z (Z.of_nat m)) f_1) f_0_001).

(** Round [j] of the loop at a sum of [k] tenths behaves like the integer
    enumeration: it runs for [j <= 10 - k] and stops at [j = 11 - k]. *)
Definition round_ok (k : nat) (cs : float) (j : nat) : bool :=
  if j <=? 10 - k
  then loop_guard cs j
       && Float32.same (round_to_tenth (w_at j)) (tenth j)
       && mem_float (Float32.add cs (tenth j)) (nth (k + j) sums_table [])
       && forallb (fun m => need_ok m cs j) (seq 1 7)
  else if j =? 11 - k then negb (loop_guard cs j) else true.

(** The last dimension at a sum of [k] tenths gets the remaining tenths. *)
Definition last_ok (k : nat) (cs : float) : bool :=
  let last_weight := Float32.sub f_1 cs in
  let rounded := round_to_tenth last_weight in
  Float32.geb last_weight (Float32.neg f_0_001) && Float32.leb last_weight f_1_001
  && Float32.geb rounded (Float32.neg f_0_001) && Float32.leb rounded f_1_001
  && Float32.eqb rounded (tenth (10 - k)).

Definition table_ok : bool :=
  forallb (fun k =>
             forallb (fun cs => last_ok k cs && forallb (round_ok k cs) (seq 0 12))
                     (nth k sums_table []))
          (seq 0 11).

(** The order and the equality of floats on the eleven tenths. *)
Definition tenths_ok : bool :=
  forallb (fun i =>
             forallb (fun j =>
                        Bool.eqb (Float32.ltb (tenth i) (tenth j)) (i <? j)
                        && Bool.eqb (Float32.eqb (tenth i) (tenth j)) (i =? j))
                     (seq 0 11))
          (seq 0 11).

(** ** Inputs of the worked cases *)

Module Example.
Definition point (id : N) (distances : list distance) (f : bool)
  : Plain.MultiVectorNeighbor := Plain.make id distances f 0.

(** The five points of the 2-D scenario. *)
Definition five : list Plain.MultiVectorNeighbor :=
  [point 0 [10; 20]%Q true; point 1 [5; 30]%Q true; point 2 [15; 10]%Q true;
   point 3 [8; 15]%Q true; point 4 [20; 25]%Q true].

(** One 2-D and one 3-D point. *)
Definition mixed : list Plain.MultiVectorNeighbor :=
  [point 0 [10; 20]%Q true; point 1 [5; 30; 25]%Q true].

(** Two points, neither dominating the other. *)
Definition two : list Plain.MultiVectorNeighbor :=
  [point 0 [1; 5]%Q true; point 1 [2; 3]%Q true].

(** [MultiVectorGPS gps(m, 5, 2, 2)] *)
Definition gps (m : nat) : LayeredPool (P := Plain.MultiVectorNeighbor) :=
  {| pool_ := []; outlier_ := []; M_ := m; Q_ := 2;
     num_layer_ := 0; num_dimensions_ := 2 |}.

(** [gps(1, 5, 2, 2)] after [initNeighbor(two)]. *)
Definition gps_two : LayeredPool (P := Plain.MultiVectorNeighbor) :=
  {| pool_ := two; outlier_ := two; M_ := 1; Q_ := 2;
     num_layer_ := 1; num_dimensions_ := 2 |}.

(** [gps(10, 5, 2, 2)] after [initNeighbor(five)]. *)
Definition gps_five : LayeredPool (P := Plain.MultiVectorNeighbor) :=
  {| pool_ := [Plain.make 1 [5; 30]%Q true 0; Plain.make 3 [8; 15]%Q true 0;
               Plain.make 0 [10; 20]%Q true 1; Plain.make 2 [15; 10]%Q true 0;
               Plain.make 4 [20; 25]%Q true 2];
     outlier_ := [point 4 [20; 25]%Q true];
     M_ := 10; Q_ := 2; num_layer_ := 3; num_dimensions_ := 2 |}.

(** [gps(10, 5, 2, 2)] after [insert(7, {1, 1})]. *)
Definition gps_inserted : LayeredPool (P := Plain.MultiVectorNeighbor) :=
  {| pool_ := []; outlier_ := [point 7 [1; 1]%Q true]; M_ := 10; Q_ := 2;
     num_layer_ := 0; num_dimensions_ := 2 |}.

(** A queue of capacity 10 holding an unflagged point and a flagged one. *)
Definition queue : SkylineQueue (P := Plain.MultiVectorNeighbor) :=
  {| q_pool_ := [point 1 [1; 5]%Q false; point 2 [2; 3]%Q true];
     q_M_ := 10; q_num_layer_ := 1; q_num_dimensions_ := 2 |}.

(** [MultiVectorDEGNeighbor(1, {10, 20}, 11, true, 0)] *)
Definition weighted : Weighted.MultiVectorDEGNeighbor :=
  Weighted.make 1 [10; 20]%Q 11 true 0.
End Example.

(** ** Further members of the point types, the pools and the queues *)

Section PoolMembers.
Context {P : Type} {NL : NeighborLike P}.

(** size_t getDimension() const *)
Definition getDimension (p : P) : nat := length (get_distances p).

(** float getDistance(size_t dim) const *)
Definition getDistance (p : P) (dim : nat) : outcome distance :=
  if length (get_distances p) <=? dim then Thrown out_of_range
  else Normal (at_dim (get_distances p) dim).

(** bool operator<(other) const *)
Definition neighbor_less (a b : P) : bool :=
  vector_less (get_distances a) (get_distances b).

(** bool operator>(other) const: [other < *this]. *)
Definition neighbor_greater (a b : P) : bool := neighbor_less b a.

(** The [for] loop of [operator==] over two vectors of one size. *)
Fixpoint distances_equal (a b : list distance) : bool :=
  match a, b with
  | x :: a', y :: b' => if dist_ne x y then false else distances_equal a' b'
  | _, _ => true
  end.

(** bool operator==(other) const *)
Definition neighbor_equal (a b : P) : bool :=
  if negb (get_id a =? get_id b)%N then false
  else if negb (length (get_distances a) =? length (get_distances b)) then false
  else distances_equal (get_distances a) (get_distances b).

(** bool operator!=(other) const *)
Definition neighbor_not_equal (a b : P) : bool := negb (neighbor_equal a b).

(** void setNumDimensions(unsigned) of [MultiVectorGPS]. *)
Definition setNumDimensions (s : @LayeredPool P) (num_dimensions : nat)
    : outcome unit * @LayeredPool P :=
  if num_dimensions <? 1 then (Thrown invalid_argument, s)
  else (Done, {| pool_ := pool_ s; outlier_ := outlier_ s; M_ := M_ s; Q_ := Q_ s;
                 num_layer_ := num_layer_ s; num_dimensions_ := num_dimensions |}).

(** The copy constructor of [MultiVectorGPS]: the scalars are copied, the
    two point vectors start empty ([pool_] only gets capacity reserved). *)
Definition copy_pool (other : @LayeredPool P) : @LayeredPool P :=
  {| pool_ := []; outlier_ := []; M_ := M_ other; Q_ := Q_ other;
     num_layer_ := num_layer_ other; num_dimensions_ := num_dimensions_ other |}.

(** size_t getPoolSize() const *)
Definition getPoolSize (s : @LayeredPool P) : nat := length (pool_ s).

(** unsigned getNumLayer() const *)
Definition getNumLayer (s : @LayeredPool P) : Z := num_layer_ s.

(** The [while] loop of [initQueue]; the state is [(pool_, l)]. *)
Fixpoint initQueue_loop (fuel : nat) (num_dimensions : nat)
         (insert_points pool : list P) (l : Z)
  : option (outcome unit * (list P * Z)) :=
  match fuel with
  | O => None
  | S fuel' =>
      match insert_points with
      | [] => Some (Done, (pool, l))
      | _ :: _ =>
          match findSkyline num_dimensions insert_points [] [] with
          | (Normal _, (skyline_result, remain_points)) =>
              initQueue_loop fuel' num_dimensions remain_points
                             (pool ++ emplace_fresh l skyline_result) (l + 1)
          | (Thrown e, _) => Some (Thrown e, (pool, l))
          | (Undefined, _) => Some (Undefined, (pool, l))
          end
      end
  end.

(** void initQueue(insert_points) of both queues. *)
Definition initQueue (q : @SkylineQueue P) (insert_points : list P)
  : option (outcome unit * @SkylineQueue P) :=
  match initQueue_loop (S (length insert_points)) (q_num_dimensions_ q)
                       insert_points (q_pool_ q) 0 with
  | None => None
  | Some (Normal _, (pool, l)) =>
      Some (Done, {| q_pool_ := pool; q_M_ := q_M_ q; q_num_layer_ := l;
                     q_num_dimensions_ := q_num_dimensions_ q |})
  | Some (c, (pool, _)) =>
      Some (c, {| q_pool_ := pool; q_M_ := q_M_ q; q_num_layer_ := q_num_layer_ q;
                  q_num_dimensions_ := q_num_dimensions_ q |})
  end.







(** *** Notions used to state the properties of these members *)

(** What identifies a point to a caller. *)
Definition point_key (p : P) : N * list distance := (get_id p, get_distances p).

Definition point_key_flag (p : P) : N * list distance * bool :=
  (get_id p, get_distances p, get_flag p).

(** [b] is not less than [a]. *)
Definition not_after (a b : P) : Prop := neighbor_less b a = false.

(** The pool entries [updateNeighbor] makes of successive layers. *)
Fixpoint layered_kept (l : Z) (layers : list (list P)) : list P :=
  match layers with
  | [] => []
  | skyline :: rest => emplace_kept l skyline ++ layered_kept (l + 1) rest
  end.

(** The layers [updateNeighbor] takes: whole layers, as long as the pool
    built so far ([size] entries) is below [M]. *)
Fixpoint taken_layers (M size : nat) (layers : list (list P)) : list (list P) :=
  match layers with
  | [] => []
  | skyline :: rest =>
      if size <? M then skyline :: taken_layers M (size + length skyline) rest
      else []
  end.

(** The state the loop of [updateNeighbor] reaches when it takes [layers]. *)
Definition update_result (s : @LayeredPool P) (l : Z) (layers : list (list P))
  : @LayeredPool P :=
  {| pool_ := pool_ s ++ layered_kept l layers;
     outlier_ := last layers (outlier_ s);
     M_ := M_ s; Q_ := Q_ s;
     num_layer_ := l + Z.of_nat (length layers);
     num_dimensions_ := num_dimensions_ s |}.
End PoolMembers.

(** ** Further functions of the weighted variant *)

Definition WEIGHT_STEPS : N := 11.

(** [static_cast<size_t>(x)]: truncation toward zero; undefined when the
    truncated value is not a [size_t]. *)
Definition to_size_t (x : float) : outcome N :=
  match x with
  | S754_zero _ => Normal 0%N
  | S754_finite s m e =>
      let t := match e with
               | Zneg p => Z.shiftr (Zpos m) (Zpos p)
               | _ => Z.shiftl (Zpos m) e
               end in
      if (t =? 0)%Z then Normal 0%N
      else if s then Undefined
      else if (t <=? Z.of_N SIZE_MAX)%Z then Normal (Z.to_N t)
      else Undefined
  | _ => Undefined
  end.

(** The loop of [getWeightCombinationIndex]. *)
Fixpoint weight_index_loop (weights : list float) (index : N) : outcome N :=
  match weights with
  | [] => Normal index
  | w :: rest =>
      match to_size_t (Float32.round (Float32.mul w f_10)) with
      | Normal digit =>
          weight_index_loop rest
            (size_t_wrap (size_t_wrap (index * WEIGHT_STEPS) + digit))
      | Thrown e => Thrown e
      | Undefined => Undefined
      end
  end.

(** size_t getWeightCombinationIndex(const std::vector<float> &weights) *)
Definition getWeightCombinationIndex (weights : list float) : outcome N :=
  weight_index_loop weights 0.

(** The loop over [j] of [getWeightIndex] for one combination; returns
    [match]. *)
Fixpoint combination_matches (combination rounded_weights : list float)
         (j n : nat) : outcome bool :=
  match n with
  | O => Normal true
  | S n' =>
      match nth_error combination j, nth_error rounded_weights j with
      | Some c, Some r =>
          if Float32.ltb f_0_001 (SFabs (Float32.sub c r))   (* std::abs(..) > 0.001f *)
          then Normal false
          else combination_matches combination rounded_weights (S j) n'
      | _, _ => Undefined
      end
  end.

(** The loop over [i] of [getWeightIndex]. *)
Fixpoint scan_combinations (num_dimensions : nat) (combinations : list (list float))
         (rounded_weights : list float) (i : N) : outcome N :=
  match combinations with
  | [] => Normal SIZE_MAX
  | combination :: rest =>
      match combination_matches combination rounded_weights 0 num_dimensions with
      | Normal true => Normal i
      | Normal false => scan_combinations num_dimensions rest rounded_weights (i + 1)
      | Thrown e => Thrown e
      | Undefined => Undefined
      end
  end.

(** size_t MultiVectorDEG::getWeightIndex(weights) const, on the members
    [num_dimensions_] and [weight_combinations_]. *)
Definition getWeightIndex (num_dimensions : nat) (weight_combinations : list (list float))
           (weights : list float) : outcome N :=
  if negb (length weights =? num_dimensions) then Normal SIZE_MAX
  else scan_combinations num_dimensions weight_combinations
                         (map round_to_tenth weights) 0.

(** bool MultiVectorDEG::calculatePruningStatus(neighbor, weight_idx) const,
    on the members [num_weight_combinations_] and [weight_combinations_]. *)
Definition calculatePruningStatus (num_weight_combinations : N)
           (weight_combinations : list (list float))
           (neighbor : Weighted.MultiVectorDEGNeighbor) (weight_idx : N) : outcome bool :=
  if (num_weight_combinations <=? weight_idx)%N
     || (N.of_nat (length weight_combinations) <=? weight_idx)%N
  then Normal false
  else Weighted.isPruned neighbor weight_idx.

(** void MultiVectorDEG::setPruningStatus(neighbor, weight_idx, pruned) *)
Definition setPruningStatus (num_weight_combinations : N)
           (neighbor : Weighted.MultiVectorDEGNeighbor) (weight_idx : N) (pruned : bool)
  : outcome unit * Weighted.MultiVectorDEGNeighbor :=
  if (num_weight_combinations <=? weight_idx)%N then (Thrown out_of_range, neighbor)
  else Weighted.setPruned neighbor weight_idx pruned.

(** *** Notions used to state the properties of these functions *)

(** The number a list of base-11 digits writes. *)
Definition base11_step (index : N) (j : nat) : N := (index * 11 + N.of_nat j)%N.

Definition base11 (digits : list nat) : N := fold_left base11_step digits 0%N.

(** The bitmap has its words, every word is a [uint64_t], and no bit at or
    beyond the number of combinations is set. *)
Definition bitmap_clean (p : Weighted.MultiVectorDEGNeighbor) : Prop :=
  Weighted.bitmap_sized p /\
  forall idx word, nth_error (Weighted.pruning_bitmap_ p) idx = Some word ->
    (0 <= word)%Z /\
    forall b, (0 <= b)%Z -> Z.testbit word b = true ->
      (b < 64)%Z /\ (64 * Z.of_nat idx + b < Z.of_N (Weighted.num_weight_combinations_ p))%Z.

(** The floats that stand for [j] tenths: [j / 10.0f], and for 0 also the
    two zeros. *)
Definition tenth_floats (j : nat) : list float :=
  match j with
  | O => [tenth 0; S754_zero false; S754_zero true]
  | _ => [tenth j]
  end.

(** On the floats of the lattice: the digit [getWeightCombinationIndex]
    reads, and the tolerance test of [getWeightIndex]. *)
Definition lattice_ok : bool :=
  forallb (fun a =>
    forallb (fun f =>
      match to_size_t (Float32.round (Float32.mul f f_10)) with
      | Normal digit => N.eqb digit (N.of_nat a)
      | _ => false
      end
      && forallb (fun b =>
           forallb (fun g =>
             Bool.eqb (Float32.ltb f_0_001 (SFabs (Float32.sub f (round_to_tenth g))))
                      (negb (a =? b)))
             (tenth_floats b))
           (seq 0 11))
      (tenth_floats a))
    (seq 0 11).

(** *** class MultiVectorDEG: the weight table *)

Module DEG.
(** The members of [MultiVectorDEG]: those of the pool, the table of
    weight combinations and its size. *)
Record MultiVectorDEG : Type := {
  pool : LayeredPool (P := Weighted.MultiVectorDEGNeighbor);
  weight_combinations_ : list (list float);
  num_weight_combinations_ : N
}.

(** void initializeWeightCombinations() *)
Definition initializeWeightCombinations (g : MultiVectorDEG) : option MultiVectorDEG :=
  match generateWeightCombinations (num_dimensions_ (pool g)) with
  | None => None
  | Some combinations =>
      Some {| pool := pool g;
              weight_combinations_ := combinations;
              num_weight_combinations_ := N.of_nat (length combinations) |}
  end.

(** The constructor [MultiVectorDEG(m, s, q, num_dimensions)]. *)
Definition make (m q num_dimensions : nat) : option (outcome MultiVectorDEG) :=
  if num_dimensions <? 1 then Some (Thrown invalid_argument)
  else if MAX_VECTOR_DIM <? num_dimensions then Some (Thrown invalid_argument)
  else
    match initializeWeightCombinations
            {| pool := {| pool_ := []; outlier_ := []; M_ := m; Q_ := q;
                          num_layer_ := 0; num_dimensions_ := num_dimensions |};
               weight_combinations_ := [];
               num_weight_combinations_ := 0 |} with
    | None => None
    | Some g => Some (Normal g)
    end.

(** void setNumDimensions(unsigned num_dimensions) of [MultiVectorDEG]. *)
Definition setNumDimensions (g : MultiVectorDEG) (num_dimensions : nat)
  : option (outcome unit * MultiVectorDEG) :=
  if num_dimensions <? 1 then Some (Thrown invalid_argument, g)
  else if MAX_VECTOR_DIM <? num_dimensions then Some (Thrown invalid_argument, g)
  else
    match initializeWeightCombinations
            {| pool := {| pool_ := pool_ (pool g); outlier_ := outlier_ (pool g);
                          M_ := M_ (pool g); Q_ := Q_ (pool g);
                          num_layer_ := num_layer_ (pool g);
                          num_dimensions_ := num_dimensions |};
               weight_combinations_ := weight_combinations_ g;
               num_weight_combinations_ := num_weight_combinations_ g |} with
    | None => None
    | Some g' => Some (Done, g')
    end.

(** size_t getNumWeightCombinations() const *)
Definition getNumWeightCombinations (g : MultiVectorDEG) : N :=
  num_weight_combinations_ g.
End DEG.

(** More inputs of the worked cases. *)
Module Example2.
(** [MultiVectorSkylineQueue queue(10, 2)] *)
Definition empty_queue : SkylineQueue (P := Plain.MultiVectorNeighbor) :=
  {| q_pool_ := []; q_M_ := 10; q_num_layer_ := 0; q_num_dimensions_ := 2 |}.

(** A queue in which no point is flagged. *)
Definition unflagged_queue : SkylineQueue (P := Plain.MultiVectorNeighbor) :=
  {| q_pool_ := [Example.point 1 [1; 5]%Q false; Example.point 2 [2; 3]%Q false];
     q_M_ := 10; q_num_layer_ := 1; q_num_dimensions_ := 2 |}.


(** What [findSkyline] makes of the five points. *)
Definition five_frontier : list Plain.MultiVectorNeighbor :=
  [Example.point 1 [5; 30]%Q true; Example.point 2 [15; 10]%Q true;
   Example.point 3 [8; 15]%Q true].

Definition five_remainder : list Plain.MultiVectorNeighbor :=
  [Example.point 0 [10; 20]%Q true; Example.point 4 [20; 25]%Q true].

(** Two points with the same distances and a third that both dominate. *)
Definition tied : list Plain.MultiVectorNeighbor :=
  [Example.point 0 [1; 2]%Q true; Example.point 1 [1; 2]%Q false;
   Example.point 2 [3; 4]%Q true].

(** A point of a pool with 11 weight combinations, pruned for
    combination 3. *)
Definition pruned_point : Weighted.MultiVectorDEGNeighbor :=
  snd (Weighted.setPruned (Weighted.make 1 [1; 5]%Q 11 true 0) 3 true).

(** A [MultiVectorDEG] pool of capacity 10 that holds it and another
    point. *)
Definition weighted_pool : LayeredPool (P := Weighted.MultiVectorDEGNeighbor) :=
  {| pool_ := [pruned_point; Weighted.make 2 [2; 3]%Q 11 false 0];
     outlier_ := []; M_ := 10; Q_ := 5; num_layer_ := 1; num_dimensions_ := 2 |}.
End Example2.

(** * Properties *)

(** ** Dominance *)

Lemma dist_lt_iff (a b : distance) : dist_lt a b = true <-> (a < b)%Q.
Proof.
  unfold dist_lt. rewrite Qlt_alt.
  destruct (a ?= b)%Q; split; congruence.
Qed.

Lemma dist_lt_false_iff (a b : distance) : dist_lt a b = false <-> (b <= a)%Q.
Proof.
  rewrite <- not_true_iff_false, dist_lt_iff.
  split; [apply Qnot_lt_le | apply Qle_not_lt].
Qed.

Lemma Dominates_irrefl d a : ~ Dominates d a a.
Proof.
  intros [_ [i [_ Hi]]]. exact (Qlt_irrefl _ Hi).
Qed.

Lemma Dominates_trans d a b c :
  Dominates d a b -> Dominates d b c -> Dominates d a c.
Proof.
  intros [Hab [i [Hi Hlt]]] [Hbc _]. split.
  - intros j Hj. eapply Qle_trans; [apply Hab | apply Hbc]; assumption.
  - exists i. split; [assumption|].
    eapply Qlt_le_trans; [exact Hlt | apply Hbc; assumption].
Qed.

Section PoolFacts.
Context {P : Type} {NL : NeighborLike P}.

Lemma dominance_scan_spec other point n : forall dim sl,
  (let '(dm, sl') := dominance_scan other point dim n sl in dm && sl') = true <->
  (forall i, (dim <= i < dim + n)%nat -> (at_dim other i <= at_dim point i)%Q) /\
  (sl = true \/ exists i, (dim <= i < dim + n)%nat /\ (at_dim other i < at_dim point i)%Q).
Proof.
  induction n as [|n IH]; intros dim sl; simpl.
  - split.
    + intros H. split; [intros i Hi; lia | left; exact H].
    + intros [_ [H | [i [Hi _]]]]; [exact H | lia].
  - destruct (dist_lt (at_dim point dim) (at_dim other dim)) eqn:Hgt.
    + simpl. split; [discriminate|].
      intros [Hall _]. apply dist_lt_iff in Hgt.
      exfalso. eapply Qlt_not_le; [exact Hgt | apply Hall; lia].
    + apply dist_lt_false_iff in Hgt. rewrite IH. split.
      * intros [Hall Hex]. split.
        -- intros i Hi. destruct (Nat.eq_dec i dim) as [->|]; [exact Hgt | apply Hall; lia].
        -- destruct (dist_lt (at_dim other dim) (at_dim point dim)) eqn:Hlt.
           ++ right. exists dim. split; [lia | apply dist_lt_iff; exact Hlt].
           ++ destruct Hex as [H | [i [Hi Hlti]]]; [left; exact H|].
              right. exists i. split; [lia | exact Hlti].
      * intros [Hall Hex]. split; [intros i Hi; apply Hall; lia|].
        destruct (dist_lt (at_dim other dim) (at_dim point dim)) eqn:Hlt; [left; reflexivity|].
        destruct Hex as [H | [i [Hi Hlti]]]; [left; exact H|].
        right. exists i. split; [|exact Hlti].
        destruct (Nat.eq_dec i dim) as [->|]; [|lia].
        apply dist_lt_iff in Hlti. congruence.
Qed.

Lemma dominatesb_iff d a b : dominatesb d a b = true <-> Dominates d a b.
Proof.
  unfold dominatesb, Dominates.
  rewrite (dominance_scan_spec a b d 0 false). simpl. split.
  - intros [Hall [H | [i [Hi Hlt]]]]; [discriminate|].
    split; [intros j Hj; apply Hall; lia | exists i; split; [lia | exact Hlt]].
  - intros [Hall [i [Hi Hlt]]].
    split; [intros j Hj; apply Hall; lia | right; exists i; split; [lia | exact Hlt]].
Qed.

Lemma dominatesb_false_iff d a b : dominatesb d a b = false <-> ~ Dominates d a b.
Proof. rewrite <- dominatesb_iff. symmetry. apply not_true_iff_false. Qed.

(** [point] stays on the skyline iff no point with another id dominates it. *)
Lemma is_skyline_scan_iff d point others :
  is_skyline_scan d point others = true <->
  forall other, In other others -> get_id other <> get_id point ->
                ~ Dominates d (get_distances other) (get_distances point).
Proof.
  induction others as [|o rest IH]; simpl.
  - split; [intros _ other [] | reflexivity].
  - destruct (N.eqb_spec (get_id point) (get_id o)) as [Heq | Hne].
    + rewrite IH. split.
      * intros H other [<- | Hin] Hid; [congruence | apply H; assumption].
      * intros H other Hin. apply H. right. exact Hin.
    + pose proof (dominatesb_iff d (get_distances o) (get_distances point)) as Hd.
      unfold dominatesb in Hd.
      destruct (dominance_scan (get_distances o) (get_distances point) 0 d false)
        as [dm sl].
      destruct (dm && sl).
      * split; [discriminate|]. intros H. exfalso.
        apply (H o); [left; reflexivity | congruence | apply Hd; reflexivity].
      * rewrite IH. split.
        -- intros H other [<- | Hin] Hid; [|apply H; assumption].
           intros Hdom. apply Hd in Hdom. discriminate.
        -- intros H other Hin. apply H. right. exact Hin.
Qed.

Lemma skyline_loop_filter d points todo : forall skyline remain,
  skyline_loop d points todo skyline remain =
  (skyline ++ filter (fun p => is_skyline_scan d p points) todo,
   remain ++ filter (fun p => negb (is_skyline_scan d p points)) todo).
Proof.
  induction todo as [|p rest IH]; intros skyline remain; simpl.
  - rewrite !app_nil_r. reflexivity.
  - destruct (is_skyline_scan d p points); simpl; rewrite IH, <- app_assoc; reflexivity.
Qed.
End PoolFacts.

(** ** List facts used below *)

Lemma NoDup_map_injective_on {A B : Type} (f : A -> B) (l : list A) :
  NoDup (map f l) -> forall x y, In x l -> In y l -> f x = f y -> x = y.
Proof.
  induction l as [|a l IH]; simpl; intros Hnd x y Hx Hy Hxy; [contradiction|].
  inversion Hnd as [|? ? Hnotin Hnd']; subst.
  destruct Hx as [<- | Hx], Hy as [<- | Hy]; auto.
  - exfalso. apply Hnotin. rewrite Hxy. apply in_map. exact Hy.
  - exfalso. apply Hnotin. rewrite <- Hxy. apply in_map. exact Hx.
Qed.

Lemma filter_length_lt {A : Type} (f g : A -> bool) (l : list A) :
  (forall x, In x l -> f x = true -> g x = true) ->
  (exists x, In x l /\ f x = false /\ g x = true) ->
  (length (filter f l) < length (filter g l))%nat.
Proof.
  induction l as [|a l IH]; simpl; intros Hsub [x [Hin [Hf Hg]]]; [contradiction|].
  assert (Hle : (length (filter f l) <= length (filter g l))%nat).
  { clear -Hsub. induction l as [|b l IHl]; simpl; [lia|].
    assert (Hb := Hsub b (or_intror (or_introl eq_refl))).
    destruct (f b); simpl.
    - rewrite Hb by reflexivity. simpl.
      apply le_n_S, IHl. intros y [Hy | Hy]; apply Hsub; auto.
      right. right. exact Hy.
    - destruct (g b); simpl; [apply le_S|]; apply IHl;
        intros y [Hy | Hy]; apply Hsub; auto; right; right; exact Hy. }
  destruct Hin as [<- | Hin].
  - rewrite Hf, Hg. simpl. lia.
  - assert (Hlt : (length (filter f l) < length (filter g l))%nat).
    { apply IH; [intros y Hy; apply Hsub; right; exact Hy | exists x; auto]. }
    assert (Ha := Hsub a (or_introl eq_refl)).
    destruct (f a); simpl; [rewrite Ha by reflexivity; simpl; lia|].
    destruct (g a); simpl; lia.
Qed.

Section SkylineFacts.
Context {P : Type} {NL : NeighborLike P}.

(** Dominance on a finite set is well founded: below every point there is
    a point that nothing dominates. *)
Lemma minimal_below d (points : list P) : forall n r,
  In r points ->
  (length (filter (fun x => dominatesb d (get_distances x) (get_distances r)) points) <= n)%nat ->
  exists f, In f points /\
            (forall o, In o points -> ~ Dominates d (get_distances o) (get_distances f)) /\
            (f = r \/ Dominates d (get_distances f) (get_distances r)).
Proof.
  induction n as [|n IH]; intros r Hr Hcount.
  - exists r. split; [exact Hr|]. split; [|left; reflexivity].
    intros o Ho Hdom. apply dominatesb_iff in Hdom.
    assert (Hin : In o (filter (fun x => dominatesb d (get_distances x) (get_distances r)) points))
      by (apply filter_In; split; assumption).
    destruct (filter (fun x => dominatesb d (get_distances x) (get_distances r)) points);
      [contradiction | simpl in Hcount; lia].
  - destruct (existsb (fun x => dominatesb d (get_distances x) (get_distances r)) points) eqn:Hex.
    + apply existsb_exists in Hex. destruct Hex as [q [Hq Hqr]].
      assert (Hlt : (length (filter (fun x => dominatesb d (get_distances x) (get_distances q)) points)
                     < length (filter (fun x => dominatesb d (get_distances x) (get_distances r)) points))%nat).
      { apply filter_length_lt.
        - intros x _ Hx. apply dominatesb_iff. apply dominatesb_iff in Hx, Hqr.
          eapply Dominates_trans; eassumption.
        - exists q. split; [exact Hq|]. split; [|exact Hqr].
          apply dominatesb_false_iff, Dominates_irrefl. }
      destruct (IH q Hq) as [f [Hf [Hmin Hfq]]]; [lia|].
      exists f. split; [exact Hf|]. split; [exact Hmin|]. right.
      apply dominatesb_iff in Hqr.
      destruct Hfq as [-> | Hfq]; [exact Hqr | eapply Dominates_trans; eassumption].
    + exists r. split; [exact Hr|]. split; [|left; reflexivity].
      intros o Ho Hdom. apply dominatesb_iff in Hdom.
      assert (existsb (fun x => dominatesb d (get_distances x) (get_distances r)) points = true)
        by (apply existsb_exists; exists o; split; assumption).
      congruence.
Qed.

Lemma minimal_exists d (points : list P) r :
  In r points ->
  exists f, In f points /\
            (forall o, In o points -> ~ Dominates d (get_distances o) (get_distances f)) /\
            (f = r \/ Dominates d (get_distances f) (get_distances r)).
Proof. intros Hr. eapply minimal_below; [exact Hr | apply le_n]. Qed.

Lemma findSkyline_valid d (points skyline remain : list P) :
  Forall (fun p => length (get_distances p) = d) points ->
  findSkyline d points skyline remain =
  (Done, (skyline ++ filter (fun p => is_skyline_scan d p points) points,
          remain ++ filter (fun p => negb (is_skyline_scan d p points)) points)).
Proof.
  intros Hdim. unfold findSkyline. destruct points as [|p0 rest].
  - simpl. rewrite !app_nil_r. reflexivity.
  - replace (forallb _ (p0 :: rest)) with true.
    + apply f_equal, skyline_loop_filter.
    + symmetry. apply forallb_forall. intros x Hx.
      rewrite Forall_forall in Hdim. apply Nat.eqb_eq, Hdim, Hx.
Qed.

Lemma findSkyline_invalid d (points skyline remain : list P) :
  Exists (fun p => length (get_distances p) <> d) points ->
  findSkyline d points skyline remain = (Thrown invalid_argument, (skyline, remain)).
Proof.
  intros Hex. unfold findSkyline. destruct points as [|p0 rest].
  - inversion Hex.
  - replace (forallb _ (p0 :: rest)) with false; [reflexivity|].
    symmetry. apply not_true_iff_false. intros Hall.
    rewrite forallb_forall in Hall. apply Exists_exists in Hex.
    destruct Hex as [x [Hx Hne]]. apply Hne, Nat.eqb_eq, Hall, Hx.
Qed.

(** The skyline of a non-empty set is not empty. *)
Lemma skyline_nonempty d (points : list P) :
  points <> [] -> filter (fun p => is_skyline_scan d p points) points <> [].
Proof.
  destruct points as [|r rest]; [congruence|]. intros _ Hnil.
  destruct (minimal_exists d (r :: rest) r (or_introl eq_refl)) as [f [Hf [Hmin _]]].
  assert (Hin : In f (filter (fun p => is_skyline_scan d p (r :: rest)) (r :: rest))).
  { apply filter_In. split; [exact Hf|].
    apply is_skyline_scan_iff. intros o Ho _. apply Hmin, Ho. }
  rewrite Hnil in Hin. contradiction.
Qed.

Lemma remainder_shorter d (points : list P) :
  points <> [] ->
  (length (filter (fun p => negb (is_skyline_scan d p points)) points)
   < length points)%nat.
Proof.
  intros Hne. apply (skyline_nonempty d) in Hne.
  pose proof (filter_length (fun p => is_skyline_scan d p points) points).
  destruct (filter (fun p => is_skyline_scan d p points) points);
    [congruence | simpl in *; lia].
Qed.

(** C5.  On points with pairwise distinct ids and vectors of length [d],
    [findSkyline] returns normally and appends to its two outputs a
    frontier and a remainder such that: an input point is in the frontier
    iff no other input point dominates it, it is in the remainder iff it is
    not in the frontier, and every point of the remainder is dominated by a
    point of the frontier. *)
Theorem findSkyline_frontier_and_remainder d (points skyline remain : list P) :
  NoDup (map get_id points) ->
  Forall (fun p => length (get_distances p) = d) points ->
  exists frontier remainder,
    findSkyline d points skyline remain
      = (Done, (skyline ++ frontier, remain ++ remainder)) /\
    (forall p, In p frontier \/ In p remainder -> In p points) /\
    (forall p, In p points ->
       (In p frontier <->
        forall q, In q points -> q <> p ->
                  ~ Dominates d (get_distances q) (get_distances p))) /\
    (forall p, In p points -> (In p remainder <-> ~ In p frontier)) /\
    (forall r, In r remainder ->
       exists f, In f frontier /\ Dominates d (get_distances f) (get_distances r)).
Proof.
  intros Hnd Hdim.
  exists (filter (fun p => is_skyline_scan d p points) points),
         (filter (fun p => negb (is_skyline_scan d p points)) points).
  split; [apply findSkyline_valid; exact Hdim|].
  assert (Hfront : forall p, In p points ->
            (is_skyline_scan d p points = true <->
             forall q, In q points -> q <> p ->
                       ~ Dominates d (get_distances q) (get_distances p))).
  { intros p Hp. rewrite is_skyline_scan_iff. split.
    - intros H q Hq Hne. apply H; [exact Hq|].
      intros Hid. apply Hne. eapply NoDup_map_injective_on; eassumption.
    - intros H q Hq Hid. apply H; [exact Hq | congruence]. }
  split; [|split; [|split]].
  - intros p [Hp | Hp]; apply filter_In in Hp; tauto.
  - intros p Hp. rewrite filter_In, <- Hfront by exact Hp. tauto.
  - intros p Hp. rewrite !filter_In, negb_true_iff.
    destruct (is_skyline_scan d p points); split.
    + intros [_ H]. discriminate.
    + intros H. exfalso. apply H. split; [exact Hp | reflexivity].
    + intros _ [_ H]. discriminate.
    + intros _. split; [exact Hp | reflexivity].
  - intros r Hr. apply filter_In in Hr. destruct Hr as [Hr Hns].
    destruct (minimal_exists d points r Hr) as [f [Hf [Hmin Hfr]]].
    assert (Hsky : is_skyline_scan d f points = true).
    { apply is_skyline_scan_iff. intros o Ho _. apply Hmin, Ho. }
    destruct Hfr as [-> | Hfr].
    + rewrite Hsky in Hns. discriminate.
    + exists f. split; [apply filter_In; split; assumption | exact Hfr].
Qed.

(** C6.  A non-empty input with a point whose vector has not [d] entries
    makes [findSkyline] throw [std::invalid_argument], with both output
    vectors as they were passed in. *)
Theorem findSkyline_dimension_mismatch d (points skyline remain : list P) :
  Exists (fun p => length (get_distances p) <> d) points ->
  findSkyline d points skyline remain = (Thrown invalid_argument, (skyline, remain)).
Proof.
  intros Hbad. apply Exists_exists in Hbad. destruct Hbad as [bad [Hin Hlen]].
  destruct points as [|p0 rest]; [contradiction|].
  unfold findSkyline.
  destruct (forallb (fun point => length (get_distances point) =? d) (p0 :: rest))
    eqn:Hcheck; [|reflexivity].
  exfalso. rewrite forallb_forall in Hcheck.
  apply Hlen, Nat.eqb_eq, Hcheck, Hin.
Qed.
End SkylineFacts.

(** ** Sorting and the loops of the layered pool *)

Lemma NoDup_map_filter {A B : Type} (f : A -> B) (g : A -> bool) (l : list A) :
  NoDup (map f l) -> NoDup (map f (filter g l)).
Proof.
  induction l as [|a l IH]; simpl; intros Hnd; [constructor|].
  inversion Hnd as [|? ? Hnotin Hnd']; subst.
  destruct (g a); simpl; [|apply IH; exact Hnd'].
  constructor; [|apply IH; exact Hnd'].
  intros Hin. apply Hnotin. apply in_map_iff in Hin.
  destruct Hin as [x [Hx Hin]]. apply filter_In in Hin.
  apply in_map_iff. exists x. tauto.
Qed.

Lemma Forall_filter {A : Type} (Q : A -> Prop) (g : A -> bool) (l : list A) :
  Forall Q l -> Forall Q (filter g l).
Proof.
  rewrite !Forall_forall. intros H x Hx. apply filter_In in Hx. apply H, Hx.
Qed.

Section LoopFacts.
Context {P : Type} {NL : NeighborLike P}.

Lemma sort_insert_perm (x : P) l : Permutation (sort_insert x l) (x :: l).
Proof.
  induction l as [|y l IH]; simpl; [reflexivity|].
  destruct (vector_less (get_distances y) (get_distances x)); [|reflexivity].
  rewrite IH. apply perm_swap.
Qed.

Lemma sort_perm (l : list P) : Permutation (sort l) l.
Proof.
  induction l as [|x l IH]; simpl; [reflexivity|].
  rewrite sort_insert_perm. constructor. exact IH.
Qed.

Lemma sort_In (l : list P) x : In x (sort l) <-> In x l.
Proof.
  split; apply Permutation_in; [|symmetry]; apply sort_perm.
Qed.

Lemma sort_length (l : list P) : length (sort l) = length l.
Proof. apply Permutation_length, sort_perm. Qed.

(** [findSkyline] on empty outputs either partitions or throws. *)
Lemma findSkyline_cases d (points : list P) :
  (Forall (fun p => length (get_distances p) = d) points /\
   findSkyline d points [] [] =
     (Done, (filter (fun p => is_skyline_scan d p points) points,
             filter (fun p => negb (is_skyline_scan d p points)) points))) \/
  (Exists (fun p => length (get_distances p) <> d) points /\
   findSkyline d points [] [] = (Thrown invalid_argument, ([], []))).
Proof.
  destruct (Forall_Exists_dec (fun p => length (get_distances p) = d)
              (fun p => Nat.eq_dec (length (get_distances p)) d) points) as [Hall | Hex].
  - left. split; [exact Hall|].
    exact (findSkyline_valid d points [] [] Hall).
  - right. split; [exact Hex|]. apply findSkyline_invalid. exact Hex.
Qed.

Lemma peel_step k d (p : P) rest :
  peel (S k) d (p :: rest) =
  filter (fun x => is_skyline_scan d x (p :: rest)) (p :: rest)
  :: peel k d (filter (fun x => negb (is_skyline_scan d x (p :: rest))) (p :: rest)).
Proof.
  cbn [peel]. rewrite skyline_loop_filter. reflexivity.
Qed.

Lemma peel_fuel_any d : forall k1 k2 (points : list P),
  (length points <= k1)%nat -> (length points <= k2)%nat ->
  peel k1 d points = peel k2 d points.
Proof.
  induction k1 as [|k1 IH]; intros k2 points H1 H2.
  - destruct points; [destruct k2; reflexivity | simpl in H1; lia].
  - destruct points as [|p rest]; [destruct k2; reflexivity|].
    destruct k2 as [|k2]; [simpl in H2; lia|].
    rewrite !peel_step. f_equal.
    assert (Hshort := remainder_shorter d (p :: rest) ltac:(discriminate)).
    set (R := filter _ (p :: rest)) in *.
    change (length (p :: rest)) with (S (length rest)) in *.
    apply IH; lia.
Qed.

Lemma peel_fuel d k (points : list P) :
  (length points <= k)%nat -> peel k d points = peel (length points) d points.
Proof. intros H. apply peel_fuel_any; [exact H | apply le_n]. Qed.
End LoopFacts.

(** ** initNeighbor *)

Lemma last_cons_default {A : Type} (l : list A) (a d : A) :
  last (a :: l) d = last l a.
Proof.
  revert a d. induction l as [|b l IH]; intros a d; [reflexivity|].
  change (last (a :: b :: l) d) with (last (b :: l) d).
  rewrite !IH. reflexivity.
Qed.

Section InitFacts.
Context {P : Type} {NL : NeighborLike P}.

Lemma initNeighbor_loop_run : forall fuel (s : LayeredPool) points l,
  dims_ok (num_dimensions_ s) points ->
  (length points < fuel)%nat ->
  initNeighbor_loop fuel s points l =
  Some (Done, init_result s l (peel (length points) (num_dimensions_ s) points)).
Proof.
  induction fuel as [|fuel IH]; intros s points l Hdim Hlen; [lia|].
  destruct points as [|p rest].
  - simpl. unfold init_result, with_num_layer. simpl.
    rewrite app_nil_r, Z.add_0_r. reflexivity.
  - cbn [initNeighbor_loop].
    rewrite (findSkyline_valid _ _ [] [] Hdim). cbn [app].
    set (F := filter _ (p :: rest)). set (R := filter _ (p :: rest)).
    assert (Hshort : (length R < length (p :: rest))%nat)
      by (apply remainder_shorter; discriminate).
    rewrite IH; [| apply Forall_filter; exact Hdim | simpl in *; lia].
    change (length (p :: rest)) with (S (length rest)).
    rewrite peel_step. fold F. fold R.
    rewrite (peel_fuel_any _ (length rest) (length R)) by (simpl in Hshort; lia).
    unfold init_result, with_pools. cbn [pool_ outlier_ M_ Q_ num_layer_ num_dimensions_ layered].
    rewrite last_cons_default, <- app_assoc.
    do 3 f_equal. cbn [length]. lia.
Qed.

(** [initNeighbor] returns normally on points of the right dimension. *)
Lemma initNeighbor_run (s : LayeredPool) points :
  dims_ok (num_dimensions_ s) points ->
  initNeighbor s points =
  Some (Done,
        let r := init_result s 0 (peel (length points) (num_dimensions_ s) points) in
        with_pools r (sort (pool_ r)) (outlier_ r)).
Proof.
  intros Hdim. unfold initNeighbor.
  rewrite initNeighbor_loop_run by (assumption || lia). reflexivity.
Qed.

Lemma peel_In d : forall k (points : list P) layer p,
  In layer (peel k d points) -> In p layer -> In p points.
Proof.
  induction k as [|k IH]; intros points layer p Hl Hp; [contradiction|].
  destruct points as [|p0 rest]; [contradiction|].
  rewrite peel_step in Hl. destruct Hl as [<- | Hl].
  - apply filter_In in Hp. tauto.
  - specialize (IH _ _ _ Hl Hp). apply filter_In in IH. tauto.
Qed.

Lemma peel_layers_nonempty d : forall k (points : list P) layer,
  In layer (peel k d points) -> layer <> [].
Proof.
  induction k as [|k IH]; intros points layer Hl; [contradiction|].
  destruct points as [|p0 rest]; [contradiction|].
  rewrite peel_step in Hl. destruct Hl as [<- | Hl].
  - apply skyline_nonempty. discriminate.
  - eapply IH. exact Hl.
Qed.

(** Every point is in some layer once the fuel covers the points. *)
Lemma peel_covers d : forall k (points : list P) p,
  (length points <= k)%nat -> In p points ->
  exists layer, In layer (peel k d points) /\ In p layer.
Proof.
  induction k as [|k IH]; intros points p Hlen Hp.
  - destruct points; [contradiction | simpl in Hlen; lia].
  - destruct points as [|p0 rest]; [contradiction|].
    rewrite peel_step.
    destruct (is_skyline_scan d p (p0 :: rest)) eqn:Hsky.
    + eexists. split; [left; reflexivity|]. apply filter_In. tauto.
    + assert (Hshort := remainder_shorter d (p0 :: rest) ltac:(discriminate)).
      destruct (IH (filter (fun x => negb (is_skyline_scan d x (p0 :: rest))) (p0 :: rest)) p)
        as [layer [Hl Hin]].
      * simpl in Hlen, Hshort. simpl. lia.
      * apply filter_In. rewrite Hsky. tauto.
      * exists layer. split; [right; exact Hl | exact Hin].
Qed.

Lemma layered_In l0 layers e :
  In e (layered l0 layers) <->
  exists n layer p, nth_error layers n = Some layer /\ In p layer /\
    e = construct (get_id p) (get_distances p) true (l0 + Z.of_nat n).
Proof.
  revert l0. induction layers as [|L rest IH]; intros l0; cbn [layered].
  - split; [contradiction|]. intros [n [layer [p [Hn _]]]]. destruct n; discriminate.
  - rewrite in_app_iff, IH. unfold emplace_fresh. rewrite in_map_iff. split.
    + intros [[p [<- Hp]] | [n [layer [p [Hn [Hp ->]]]]]].
      * exists O, L, p. rewrite Z.add_0_r. auto.
      * exists (S n), layer, p. split; [exact Hn|]. split; [exact Hp|].
        f_equal. lia.
    + intros [n [layer [p [Hn [Hp ->]]]]]. destruct n as [|n].
      * left. cbn [nth_error] in Hn. assert (L = layer) as -> by congruence.
        exists p. rewrite Z.add_0_r. auto.
      * right. exists n, layer, p. split; [exact Hn|]. split; [exact Hp|].
        f_equal. lia.
Qed.

(** Layer [n] of a peeling is not dominated from layer [m > n]. *)
Lemma peel_monotone d : forall k (points : list P) n m Ln Lm p q,
  NoDup (map get_id points) ->
  nth_error (peel k d points) n = Some Ln ->
  nth_error (peel k d points) m = Some Lm ->
  (n < m)%nat -> In p Ln -> In q Lm ->
  ~ Dominates d (get_distances q) (get_distances p).
Proof.
  induction k as [|k IH]; intros points n m Ln Lm p q Hnd Hn Hm Hlt Hp Hq.
  - destruct n; discriminate.
  - destruct points as [|p0 rest]; [destruct n; discriminate|].
    rewrite peel_step in Hn, Hm.
    destruct m as [|m]; [lia|]. cbn [nth_error] in Hm.
    destruct n as [|n].
    + cbn [nth_error] in Hn.
      assert (HF : filter (fun x => is_skyline_scan d x (p0 :: rest)) (p0 :: rest) = Ln)
        by congruence.
      rewrite <- HF in Hp. apply filter_In in Hp. destruct Hp as [Hp Hsky].
      assert (Hq' : In q (p0 :: rest)).
      { apply nth_error_In in Hm. apply (peel_In _ _ _ _ _ Hm) in Hq.
        apply filter_In in Hq. tauto. }
      destruct (N.eq_dec (get_id q) (get_id p)) as [Heq | Hne].
      * rewrite (NoDup_map_injective_on get_id _ Hnd q p Hq' Hp Heq).
        apply Dominates_irrefl.
      * rewrite is_skyline_scan_iff in Hsky. apply Hsky; assumption.
    + cbn [nth_error] in Hn.
      eapply IH; [| exact Hn | exact Hm | lia | exact Hp | exact Hq].
      apply NoDup_map_filter. exact Hnd.
Qed.
End InitFacts.

Lemma last_nth_error {A : Type} (l : list A) (d : A) :
  l <> [] -> nth_error l (length l - 1) = Some (last l d).
Proof.
  induction l as [|a l IH]; intros Hne; [congruence|].
  destruct l as [|b l]; [reflexivity|].
  change (last (a :: b :: l) d) with (last (b :: l) d).
  rewrite <- IH by discriminate.
  cbn [length]. replace (S (S (length l)) - 1)%nat with (S (S (length l) - 1))%nat by lia.
  reflexivity.
Qed.

Section InitTheorems.
Context {P : Type} {NL : NeighborLike P}.

Lemma has_id_true (l : list P) e id :
  In e l -> get_id e = id -> has_id id l = true.
Proof.
  intros Hin Hid. apply existsb_exists. exists e. split; [exact Hin|].
  apply N.eqb_eq. exact Hid.
Qed.

Lemma has_id_false (l : list P) id :
  has_id id l = false <-> ~ In id (map get_id l).
Proof.
  unfold has_id. rewrite <- not_true_iff_false, existsb_exists, in_map_iff.
  split; intros H [x Hx]; apply H; exists x.
  - destruct Hx as [Hid Hin]. split; [exact Hin | apply N.eqb_eq; exact Hid].
  - destruct Hx as [Hin Hid]. split; [apply N.eqb_eq; exact Hid | exact Hin].
Qed.

(** C4.  From an empty pool, [initNeighbor] on points with pairwise distinct
    ids and vectors of length [d] returns normally; every input point gets a
    pool entry, and no pool point of a later layer dominates a pool point of
    an earlier layer. *)
Theorem initNeighbor_layer_monotone (s : LayeredPool) (points : list P) :
  pool_ s = [] ->
  NoDup (map get_id points) ->
  dims_ok (num_dimensions_ s) points ->
  exists s',
    initNeighbor s points = Some (Done, s') /\
    (forall p, In p points -> exists e, In e (pool_ s') /\ same_point e p) /\
    (forall p q, In p (pool_ s') -> In q (pool_ s') ->
       (get_layer p < get_layer q)%Z ->
       ~ Dominates (num_dimensions_ s) (get_distances q) (get_distances p)).
Proof.
  intros Hempty Hnd Hdim. eexists. split; [apply initNeighbor_run; exact Hdim|].
  cbn zeta. unfold with_pools, init_result. cbn [pool_]. rewrite Hempty. cbn [app].
  set (layers := peel (length points) (num_dimensions_ s) points).
  split.
  - intros p Hp.
    destruct (peel_covers (num_dimensions_ s) (length points) points p (le_n _) Hp)
      as [layer [Hl Hin]].
    apply In_nth_error in Hl. destruct Hl as [n Hn].
    exists (construct (get_id p) (get_distances p) true (0 + Z.of_nat n)).
    split.
    + apply sort_In, layered_In. exists n, layer, p. auto.
    + split; [apply construct_id | apply construct_distances].
  - intros p q Hp Hq Hlt.
    apply sort_In, layered_In in Hp, Hq.
    destruct Hp as [n [Ln [p' [Hn [Hp' ->]]]]].
    destruct Hq as [m [Lm [q' [Hm [Hq' ->]]]]].
    rewrite !construct_layer in Hlt. rewrite !construct_distances.
    eapply (peel_monotone _ _ _ n m); try eassumption. lia.
Qed.

(** C10.  On a non-empty input of the right dimension [initNeighbor]
    returns normally and leaves in [outlier_] exactly the last skyline layer
    it extracted.  That layer is not empty, each of its points also has a
    pool entry (at the top layer), and [insert] with the id of any of them
    returns without changing anything. *)
Theorem initNeighbor_outlier_is_last_layer (s : LayeredPool) (points : list P) :
  points <> [] ->
  dims_ok (num_dimensions_ s) points ->
  exists s',
    initNeighbor s points = Some (Done, s') /\
    outlier_ s' = last (peel (length points) (num_dimensions_ s) points) [] /\
    outlier_ s' <> [] /\
    (forall o, In o (outlier_ s') ->
       In o points /\
       exists e, In e (pool_ s') /\ same_point e o /\
                 get_layer e = (num_layer_ s' - 1)%Z) /\
    (forall o v, In o (outlier_ s') -> length v = num_dimensions_ s' ->
       insert s' (get_id o) v = (Done, s')).
Proof.
  intros Hne Hdim. eexists. split; [apply initNeighbor_run; exact Hdim|].
  cbn zeta. unfold with_pools, init_result.
  cbn [pool_ outlier_ num_layer_ num_dimensions_ M_ Q_].
  set (layers := peel (length points) (num_dimensions_ s) points).
  assert (Hlayers : layers <> []).
  { subst layers. destruct points as [|p rest]; [congruence|].
    change (length (p :: rest)) with (S (length rest)).
    rewrite peel_step. discriminate. }
  assert (Hnth := last_nth_error layers (outlier_ s) Hlayers).
  assert (Hlast : last layers (outlier_ s) = last layers []).
  { rewrite (last_nth_error layers [] Hlayers) in Hnth. congruence. }
  assert (Hpool : forall o, In o (last layers (outlier_ s)) ->
            exists e, In e (sort (pool_ s ++ layered 0 layers)) /\ same_point e o /\
                      get_layer e = (0 + Z.of_nat (length layers) - 1)%Z).
  { intros o Ho.
    exists (construct (get_id o) (get_distances o) true
                      (0 + Z.of_nat (length layers - 1))).
    split; [|split].
    - apply sort_In, in_or_app. right. apply layered_In.
      exists (length layers - 1)%nat, (last layers (outlier_ s)), o. auto.
    - split; [apply construct_id | apply construct_distances].
    - rewrite construct_layer. destruct layers; [congruence | cbn [length]; lia]. }
  split; [exact Hlast|]. split; [|split].
  - eapply peel_layers_nonempty. eapply nth_error_In. exact Hnth.
  - intros o Ho. split.
    + eapply peel_In; [eapply nth_error_In; exact Hnth | exact Ho].
    + apply Hpool. exact Ho.
  - intros o v Ho Hv. unfold insert. cbn [pool_ outlier_ num_dimensions_].
    rewrite (proj2 (Nat.eqb_eq _ _) Hv). cbn [negb].
    destruct (Hpool o Ho) as [e [He [[Hid _] _]]].
    rewrite (has_id_true _ e (get_id o) He Hid). reflexivity.
Qed.
End InitTheorems.

(** ** updateNeighbor and insert *)

Section UpdateFacts.
Context {P : Type} {NL : NeighborLike P}.

Lemma emplace_kept_In l (skyline : list P) e :
  In e (emplace_kept l skyline) ->
  get_layer e = l /\ exists p, In p skyline /\ same_point e p /\ get_flag e = get_flag p.
Proof.
  unfold emplace_kept. rewrite in_map_iff. intros [p [<- Hp]].
  split; [apply construct_layer|]. exists p. split; [exact Hp|].
  split; [split; [apply construct_id | apply construct_distances] | apply construct_flag].
Qed.

(** The loop of [updateNeighbor] never runs out of fuel. *)
Lemma updateNeighbor_loop_total : forall fuel (s : LayeredPool) candidate l,
  (length candidate < fuel)%nat ->
  exists r, updateNeighbor_loop fuel s candidate l = Some r.
Proof.
  induction fuel as [|fuel IH]; intros s candidate l Hlen; [lia|].
  cbn [updateNeighbor_loop].
  destruct ((length (pool_ s) <? M_ s) && (0 <? length candidate)) eqn:Hcond;
    [|eexists; reflexivity].
  apply andb_true_iff in Hcond. destruct Hcond as [_ Hpos]. apply Nat.ltb_lt in Hpos.
  destruct (findSkyline_cases (num_dimensions_ s) candidate) as [[_ ->] | [_ ->]];
    [|eexists; reflexivity].
  apply IH.
  assert (Hshort := remainder_shorter (num_dimensions_ s) candidate).
  destruct candidate; [simpl in Hpos; lia|].
  specialize (Hshort ltac:(discriminate)). lia.
Qed.

(** The rebuilt pool only holds entries of the old pool state or copies of
    candidates. *)
Lemma updateNeighbor_loop_ids : forall fuel (s : LayeredPool) candidate l c s',
  updateNeighbor_loop fuel s candidate l = Some (c, s') ->
  forall e, In e (pool_ s') ->
    In e (pool_ s) \/ exists p, In p candidate /\ get_id e = get_id p.
Proof.
  induction fuel as [|fuel IH]; intros s candidate l c s' Hrun e He; [discriminate|].
  cbn [updateNeighbor_loop] in Hrun.
  destruct ((length (pool_ s) <? M_ s) && (0 <? length candidate)).
  - destruct (findSkyline_cases (num_dimensions_ s) candidate) as [[_ Hf] | [_ Hf]];
      rewrite Hf in Hrun.
    + destruct (IH _ _ _ _ _ Hrun e He) as [Hin | [p [Hp Hid]]].
      * cbn [with_pools pool_] in Hin. apply in_app_or in Hin.
        destruct Hin as [Hin | Hin]; [left; exact Hin|].
        apply emplace_kept_In in Hin. destruct Hin as [_ [p [Hp [[Hid _] _]]]].
        right. exists p. apply filter_In in Hp. tauto.
      * right. exists p. apply filter_In in Hp. tauto.
    + injection Hrun as _ <-. left. exact He.
  - injection Hrun as _ <-. left. exact He.
Qed.

Lemma updateNeighbor_loop_length : forall fuel (s : LayeredPool) candidate l c s',
  updateNeighbor_loop fuel s candidate l = Some (c, s') ->
  (length (pool_ s') <= length (pool_ s) + length candidate)%nat.
Proof.
  induction fuel as [|fuel IH]; intros s candidate l c s' Hrun; [discriminate|].
  cbn [updateNeighbor_loop] in Hrun.
  destruct ((length (pool_ s) <? M_ s) && (0 <? length candidate)).
  - destruct (findSkyline_cases (num_dimensions_ s) candidate) as [[_ Hf] | [_ Hf]];
      rewrite Hf in Hrun.
    + apply IH in Hrun. cbn [with_pools pool_] in Hrun.
      unfold emplace_kept in Hrun. rewrite length_app, length_map in Hrun.
      pose proof (filter_length
        (fun p => is_skyline_scan (num_dimensions_ s) p candidate) candidate).
      lia.
    + injection Hrun as _ <-. lia.
  - injection Hrun as _ <-. cbn [with_num_layer pool_]. lia.
Qed.

(** Capacity is checked before a layer enters the pool, never after. *)
Lemma updateNeighbor_loop_capacity : forall fuel (s : LayeredPool) candidate l s',
  updateNeighbor_loop fuel s candidate l = Some (Done, s') ->
  M_ s' = M_ s /\
  ((pool_ s' = pool_ s /\ num_layer_ s' = l) \/
   exists lower top,
     pool_ s' = lower ++ top /\ (length lower < M_ s)%nat /\ top <> [] /\
     (l < num_layer_ s')%Z /\
     (forall e, In e top -> get_layer e = (num_layer_ s' - 1)%Z) /\
     (forall e, In e lower ->
        In e (pool_ s) \/ (l <= get_layer e < num_layer_ s' - 1)%Z)).
Proof.
  induction fuel as [|fuel IH]; intros s candidate l s' Hrun; [discriminate|].
  cbn [updateNeighbor_loop] in Hrun.
  destruct ((length (pool_ s) <? M_ s) && (0 <? length candidate)) eqn:Hcond.
  - apply andb_true_iff in Hcond. destruct Hcond as [Hcap Hpos].
    apply Nat.ltb_lt in Hcap, Hpos.
    destruct (findSkyline_cases (num_dimensions_ s) candidate) as [[_ Hf] | [_ Hf]];
      rewrite Hf in Hrun; [|discriminate].
    apply IH in Hrun. cbn [with_pools pool_ M_] in Hrun.
    destruct Hrun as [HM Hrun]. split; [exact HM|]. right.
    set (F := filter (fun p => is_skyline_scan (num_dimensions_ s) p candidate) candidate) in *.
    assert (HF : emplace_kept l F <> []).
    { assert (F <> []) by (apply skyline_nonempty; destruct candidate;
                           [simpl in Hpos; lia | discriminate]).
      destruct F; [congruence | discriminate]. }
    destruct Hrun as [[Hpool Hl] | [lower [top [Hpool [Hlen [Htop [Hl [Hlt Hlow]]]]]]]].
    + exists (pool_ s), (emplace_kept l F).
      split; [exact Hpool|]. split; [exact Hcap|]. split; [exact HF|].
      split; [lia|]. split.
      * intros e He. apply emplace_kept_In in He. lia.
      * intros e He. left. exact He.
    + exists lower, top. split; [exact Hpool|]. split; [exact Hlen|].
      split; [exact Htop|]. split; [lia|]. split; [exact Hlt|].
      intros e He. destruct (Hlow e He) as [Hin | Hrange]; [|right; lia].
      apply in_app_or in Hin. destruct Hin as [Hin | Hin]; [left; exact Hin|].
      apply emplace_kept_In in Hin. right. lia.
  - injection Hrun as <-. split; [reflexivity|]. left. split; reflexivity.
Qed.

(** [updateNeighbor] always returns, and its pool only holds copies of
    points of the pool it started from. *)
Lemma updateNeighbor_pool_ids (s : LayeredPool) :
  exists c s', updateNeighbor s = Some (c, s') /\
    forall e, In e (pool_ s') -> In (get_id e) (map get_id (pool_ s)).
Proof.
  unfold updateNeighbor.
  destruct (updateNeighbor_loop_total (S (length (sort (pool_ s))))
              (with_pools s [] (outlier_ s)) (sort (pool_ s)) 0 (Nat.lt_succ_diag_r _))
    as [[c s'] Hrun].
  exists c, s'. split; [exact Hrun|].
  intros e He. destruct (updateNeighbor_loop_ids _ _ _ _ _ _ Hrun e He) as [[] | [p [Hp ->]]].
  apply in_map, sort_In, Hp.
Qed.
End UpdateFacts.

Section UpdateTheorems.
Context {P : Type} {NL : NeighborLike P}.

(** C1 (what the code does).  A point inserted under a fresh id goes to
    [outlier_]; the following [updateNeighbor] always returns, and the pool
    it leaves does not hold the inserted id: [updateNeighbor] rebuilds the
    pool from the pool alone and never reads [outlier_]. *)
Theorem insert_then_update_leaves_point_out (s : LayeredPool) (id : N) (v : list distance) :
  length v = num_dimensions_ s ->
  ~ In id (map get_id (pool_ s)) ->
  ~ In id (map get_id (outlier_ s)) ->
  exists s1 c s2,
    insert s id v = (Done, s1) /\
    pool_ s1 = pool_ s /\
    outlier_ s1 = outlier_ s ++ [construct id v true 0] /\
    updateNeighbor s1 = Some (c, s2) /\
    ~ In id (map get_id (pool_ s2)).
Proof.
  intros Hlen Hpool Hout.
  destruct (updateNeighbor_pool_ids
              (with_pools s (pool_ s) (outlier_ s ++ [construct id v true 0])))
    as [c [s2 [Hrun Hids]]].
  eexists. exists c, s2. split; [|split; [|split; [|split; [exact Hrun|]]]].
  - unfold insert. rewrite (proj2 (Nat.eqb_eq _ _) Hlen). cbn [negb].
    rewrite (proj2 (has_id_false _ _) Hpool), (proj2 (has_id_false _ _) Hout).
    reflexivity.
  - reflexivity.
  - reflexivity.
  - intros Hin. apply in_map_iff in Hin. destruct Hin as [e [<- He]].
    apply Hpool. exact (Hids e He).
Qed.

Lemma insert_dup_state (s : LayeredPool) (id : N) (v : list distance) :
  In id (map get_id (pool_ s)) \/ In id (map get_id (outlier_ s)) ->
  length v = num_dimensions_ s ->
  snd (insert s id v) = s /\ fst (insert s id v) = Done.
Proof.
  intros Hdup Hlen. unfold insert.
  rewrite (proj2 (Nat.eqb_eq _ _) Hlen). cbn [negb].
  destruct (has_id id (pool_ s)) eqn:Hp; [split; reflexivity|].
  destruct (has_id id (outlier_ s)) eqn:Ho; [split; reflexivity|].
  apply has_id_false in Hp, Ho. tauto.
Qed.

(** The length of the vector is checked before the id is looked up: with
    an id that is already in [pool_] or [outlier_], [insert] leaves the pool
    state as it is, whatever the vector; it returns normally when the vector
    has [num_dimensions_] entries and throws [std::invalid_argument] when it
    has not. *)
Lemma insert_duplicate_any_length (s : LayeredPool) (id : N) (v : list distance) :
  In id (map get_id (pool_ s)) \/ In id (map get_id (outlier_ s)) ->
  snd (insert s id v) = s /\
  (length v = num_dimensions_ s -> fst (insert s id v) = Done) /\
  (length v <> num_dimensions_ s -> fst (insert s id v) = Thrown invalid_argument).
Proof.
  intros Hdup. unfold insert.
  destruct (Nat.eqb_spec (length v) (num_dimensions_ s)) as [Hlen | Hlen]; cbn [negb].
  - destruct (insert_dup_state s id v Hdup Hlen) as [Hs Hf].
    unfold insert in Hs, Hf. rewrite (proj2 (Nat.eqb_eq _ _) Hlen) in Hs, Hf.
    cbn [negb] in Hs, Hf. tauto.
  - cbn [fst snd]. tauto.
Qed.

Lemma insert_keeps_dimension (s s1 : LayeredPool) (id : N) (v : list distance) c :
  insert s id v = (c, s1) -> num_dimensions_ s1 = num_dimensions_ s.
Proof.
  unfold insert. intros H.
  destruct (negb (length v =? num_dimensions_ s)); [injection H as _ <-; reflexivity|].
  destruct (has_id id (pool_ s)); [injection H as _ <-; reflexivity|].
  destruct (has_id id (outlier_ s)); injection H as _ <-; reflexivity.
Qed.

(** After an [insert] that returned normally, a second [insert] of the same
    id with a vector of the right length changes nothing. *)
Lemma insert_twice (s s1 : LayeredPool) (id : N) (v1 v2 : list distance) :
  insert s id v1 = (Done, s1) ->
  length v2 = num_dimensions_ s1 ->
  insert s1 id v2 = (Done, s1).
Proof.
  intros H1 Hlen.
  assert (Hdup : In id (map get_id (pool_ s1)) \/ In id (map get_id (outlier_ s1))).
  { unfold insert in H1.
    destruct (negb (length v1 =? num_dimensions_ s)); [discriminate|].
    destruct (has_id id (pool_ s)) eqn:Hp.
    - injection H1 as <-. left.
      apply existsb_exists in Hp. destruct Hp as [x [Hx Hid]].
      apply in_map_iff. exists x. split; [apply N.eqb_eq; exact Hid | exact Hx].
    - destruct (has_id id (outlier_ s)) eqn:Ho; injection H1 as <-; right.
      + apply existsb_exists in Ho. destruct Ho as [x [Hx Hid]].
        apply in_map_iff. exists x. split; [apply N.eqb_eq; exact Hid | exact Hx].
      + cbn [with_pools outlier_]. rewrite map_app. apply in_or_app. right.
        left. apply construct_id. }
  destruct (insert_dup_state s1 id v2 Hdup Hlen) as [Hs Hf].
  destruct (insert s1 id v2) as [c s2]. cbn [fst snd] in *. congruence.
Qed.

(** C7.  With an id that is already in [pool_] or in [outlier_], [insert]
    of a vector of [num_dimensions_] entries is a silent no-op: it returns
    normally and leaves the pool state, and with it the contents and the
    sizes of [pool_] and [outlier_], as it was.  So a second [insert] of an
    id, after the first one has returned, changes nothing and raises no
    error. *)
Theorem insert_duplicate_id (s : LayeredPool) (id : N) (v : list distance) :
  length v = num_dimensions_ s ->
  (In id (map get_id (pool_ s)) \/ In id (map get_id (outlier_ s)) ->
   insert s id v = (Done, s)) /\
  (forall v1 s1, insert s id v1 = (Done, s1) ->
     insert s1 id v = (Done, s1) /\
     (length (pool_ s1) + length (outlier_ s1)
      = length (pool_ (snd (insert s1 id v)))
        + length (outlier_ (snd (insert s1 id v))))%nat).
Proof.
  intros Hlen. split.
  - intros Hdup. destruct (insert_dup_state s id v Hdup Hlen) as [Hs Hf].
    destruct (insert s id v) as [c s']. cbn [fst snd] in *. congruence.
  - intros v1 s1 H1.
    assert (Hlen1 : length v = num_dimensions_ s1)
      by (rewrite (insert_keeps_dimension _ _ _ _ _ H1); exact Hlen).
    rewrite (insert_twice s s1 id v1 v H1 Hlen1). split; reflexivity.
Qed.
End UpdateTheorems.

(** ** MultiVectorSkylineQueue::updateNeighbor(int &nk) *)

Lemma existsb_filter_split {A : Type} (f g : A -> bool) (l : list A) :
  existsb f l = existsb f (filter g l) || existsb f (filter (fun x => negb (g x)) l).
Proof.
  induction l as [|a l IH]; [reflexivity|]. simpl.
  destruct (g a); simpl; rewrite IH; destruct (f a); simpl;
    rewrite ?orb_true_r; try reflexivity.
Qed.

Section QueueFacts.
Context {P : Type} {NL : NeighborLike P}.

Lemma first_flagged_app (pool : list P) x :
  first_flagged (pool ++ [x]) =
  match first_flagged pool with
  | Some pos => Some pos
  | None => if get_flag x then Some (length pool) else None
  end.
Proof.
  induction pool as [|p pool IH]; simpl.
  - destruct (get_flag x); reflexivity.
  - destruct (get_flag p); [reflexivity|]. rewrite IH.
    destruct (first_flagged pool); [reflexivity|].
    destruct (get_flag x); reflexivity.
Qed.

Lemma first_flagged_none (pool : list P) :
  first_flagged pool = None <-> existsb get_flag pool = false.
Proof.
  induction pool as [|p pool IH]; simpl; [tauto|].
  destruct (get_flag p); simpl; [split; discriminate|].
  rewrite <- IH. destruct (first_flagged pool); simpl; split; congruence.
Qed.

Lemma emplace_tracking_spec l : forall (skyline : list P) pool k nk updated,
  tracking_inv (pool, k, nk, updated) ->
  exists k' nk' updated',
    emplace_tracking l skyline (pool, k, nk, updated)
      = (pool ++ emplace_kept l skyline, k', nk', updated') /\
    tracking_inv (pool ++ emplace_kept l skyline, k', nk', updated').
Proof.
  induction skyline as [|point rest IH]; intros pool k nk updated Hinv.
  - exists k, nk, updated. cbn [emplace_tracking emplace_kept map].
    rewrite app_nil_r. split; [reflexivity | exact Hinv].
  - cbn [emplace_tracking].
    set (x := construct (get_id point) (get_distances point) (get_flag point) l).
    assert (Hx : get_flag x = get_flag point) by apply construct_flag.
    assert (Hstep : forall k1 nk1 u1,
              tracking_inv (pool ++ [x], k1, nk1, u1) ->
              exists k' nk' updated',
                emplace_tracking l rest (pool ++ [x], k1, nk1, u1)
                  = (pool ++ emplace_kept l (point :: rest), k', nk', updated') /\
                tracking_inv (pool ++ emplace_kept l (point :: rest), k', nk', updated')).
    { intros k1 nk1 u1 H1. destruct (IH _ _ _ _ H1) as [k' [nk' [u' [Heq Hi]]]].
      exists k', nk', u'. unfold emplace_kept in *. cbn [map].
      fold x. rewrite <- app_assoc in Heq, Hi. split; assumption. }
    unfold tracking_inv in Hinv. destruct updated.
    + destruct Hinv as [Hnone Hk]. destruct (get_flag point) eqn:Hflag.
      * apply Hstep. unfold tracking_inv. rewrite first_flagged_app, Hnone, Hx.
        exists (length pool). split; [reflexivity | exact Hk].
      * apply Hstep. unfold tracking_inv. rewrite first_flagged_app, Hnone, Hx.
        split; [reflexivity|]. rewrite length_app. cbn [length]. lia.
    + destruct Hinv as [pos [Hpos Hnk]]. apply Hstep. unfold tracking_inv.
      rewrite first_flagged_app, Hpos. exists pos. split; [reflexivity | exact Hnk].
Qed.

Lemma existsb_flag_emplace_kept l (skyline : list P) :
  existsb get_flag (emplace_kept l skyline) = existsb get_flag skyline.
Proof.
  induction skyline as [|p rest IH]; [reflexivity|].
  cbn [emplace_kept map existsb]. rewrite construct_flag. f_equal. exact IH.
Qed.

(** Below capacity the loop takes in every candidate and keeps the
    invariant. *)
Lemma queue_update_loop_run : forall fuel M d (candidate : list P) l pool k nk updated,
  dims_ok d candidate ->
  (length candidate < fuel)%nat ->
  (length pool + length candidate < M)%nat ->
  tracking_inv (pool, k, nk, updated) ->
  exists pool' l' k' nk' updated',
    queue_update_loop fuel M d candidate l (pool, k, nk, updated)
      = Some (Done, (pool', l', nk')) /\
    tracking_inv (pool', k', nk', updated') /\
    length pool' = (length pool + length candidate)%nat /\
    existsb get_flag pool' = existsb get_flag pool || existsb get_flag candidate.
Proof.
  induction fuel as [|fuel IH]; intros M d candidate l pool k nk updated
                                       Hdim Hfuel Hcap Hinv; [lia|].
  cbn [queue_update_loop].
  destruct candidate as [|c0 rest].
  - replace ((length pool <? M) && (0 <? length (@nil P))) with false
      by (cbn; rewrite andb_false_r; reflexivity).
    exists pool, l, k, nk, updated. cbn [length existsb].
    rewrite orb_false_r, Nat.add_0_r. auto.
  - replace ((length pool <? M) && (0 <? length (c0 :: rest))) with true.
    2:{ symmetry. apply andb_true_iff. cbn [length] in *.
        split; apply Nat.ltb_lt; lia. }
    rewrite (findSkyline_valid _ _ [] [] Hdim). cbn [app].
    set (F := filter (fun p => is_skyline_scan d p (c0 :: rest)) (c0 :: rest)).
    set (R := filter (fun p => negb (is_skyline_scan d p (c0 :: rest))) (c0 :: rest)).
    assert (Hshort : (length R < length (c0 :: rest))%nat)
      by (apply remainder_shorter; discriminate).
    assert (Hsum : (length F + length R = length (c0 :: rest))%nat)
      by apply filter_length.
    destruct (emplace_tracking_spec l F pool k nk updated Hinv)
      as [k1 [nk1 [u1 [-> Hinv1]]]].
    destruct (IH M d R (l + 1)%Z (pool ++ emplace_kept l F) k1 nk1 u1)
      as [pool' [l' [k' [nk' [u' [Hrun [Hinv' [Hlen Hflag]]]]]]]].
    + apply Forall_filter. exact Hdim.
    + lia.
    + unfold emplace_kept. rewrite length_app, length_map. lia.
    + exact Hinv1.
    + exists pool', l', k', nk', u'. split; [exact Hrun|]. split; [exact Hinv'|].
      split.
      * rewrite Hlen. unfold emplace_kept. rewrite length_app, length_map. lia.
      * rewrite Hflag, existsb_app, existsb_flag_emplace_kept.
        rewrite (existsb_filter_split get_flag
                   (fun p => is_skyline_scan d p (c0 :: rest)) (c0 :: rest)).
        fold F. fold R. rewrite orb_assoc. reflexivity.
Qed.

(** X29.  On any state of the members, also one with unflagged points,
    which no sequence of calls builds: below capacity, with a flagged point
    and vectors of the right length, [updateNeighbor(nk)] returns normally,
    keeps every point, and sets [nk] to twice the position at which the
    first flagged point lands in the rebuilt pool, because the counter [k]
    advances by two for every unflagged point that comes before it. *)
Theorem queue_updateNeighbor_reports_twice_the_position (q : SkylineQueue) (nk : Z) :
  (length (q_pool_ q) < q_M_ q)%nat ->
  dims_ok (q_num_dimensions_ q) (q_pool_ q) ->
  existsb get_flag (q_pool_ q) = true ->
  exists q' nk' pos,
    queue_updateNeighbor q nk = Some (Done, (q', nk')) /\
    length (q_pool_ q') = length (q_pool_ q) /\
    first_flagged (q_pool_ q') = Some pos /\
    nk' = (2 * Z.of_nat pos)%Z.
Proof.
  intros Hcap Hdim Hflag. unfold queue_updateNeighbor.
  destruct (queue_update_loop_run (S (length (sort (q_pool_ q)))) (q_M_ q)
              (q_num_dimensions_ q) (sort (q_pool_ q)) 0 [] 0 nk true)
    as [pool' [l' [k' [nk' [u' [Hrun [Hinv [Hlen Hfl]]]]]]]].
  - unfold dims_ok in *. rewrite Forall_forall in *. intros x Hx.
    apply Hdim, sort_In, Hx.
  - lia.
  - rewrite sort_length. simpl. exact Hcap.
  - split; reflexivity.
  - rewrite Hrun. cbn [existsb orb length Nat.add] in Hfl, Hlen.
    assert (Hany : existsb get_flag pool' = true).
    { rewrite Hfl. apply existsb_exists. apply existsb_exists in Hflag.
      destruct Hflag as [x [Hx Hf]]. exists x. split; [apply sort_In; exact Hx | exact Hf]. }
    unfold tracking_inv in Hinv. destruct u'.
    + destruct Hinv as [Hnone _]. apply first_flagged_none in Hnone. congruence.
    + destruct Hinv as [pos [Hpos Hnk]].
      eexists. exists nk', pos. split; [reflexivity|]. cbn [q_pool_].
      rewrite Hlen, sort_length. auto.
Qed.
End QueueFacts.

(** ** The pruning bitmap *)

Lemma nth_error_set_word {A : Type} (l : list A) (idx : nat) (w : A) (j : nat) :
  (idx < length l)%nat ->
  nth_error (firstn idx l ++ w :: skipn (S idx) l) j =
  if Nat.eqb j idx then Some w else nth_error l j.
Proof.
  revert idx j. induction l as [|a l IH]; intros idx j Hlen; [simpl in Hlen; lia|].
  destruct idx as [|idx]; destruct j as [|j]; cbn; try reflexivity.
  apply IH. simpl in Hlen. lia.
Qed.

Lemma length_set_word {A : Type} (l : list A) (idx : nat) (w : A) :
  (idx < length l)%nat ->
  length (firstn idx l ++ w :: skipn (S idx) l) = length l.
Proof.
  intros Hlen. rewrite length_app, length_firstn. cbn [length].
  rewrite length_skipn. lia.
Qed.

Lemma test_mask (w b : Z) :
  (0 <= b)%Z -> negb (Z.land w (Z.shiftl 1 b) =? 0)%Z = Z.testbit w b.
Proof.
  intros Hb. rewrite Z.shiftl_1_l.
  destruct (Z.testbit w b) eqn:Hbit.
  - apply negb_true_iff, Z.eqb_neq. intros H0.
    assert (Ht : Z.testbit (Z.land w (2 ^ b)) b = true)
      by (rewrite Z.land_spec, Hbit, Z.pow2_bits_true; [reflexivity | exact Hb]).
    rewrite H0, Z.bits_0 in Ht. discriminate.
  - apply negb_false_iff, Z.eqb_eq, Z.bits_inj'. intros n Hn.
    rewrite Z.land_spec, Z.bits_0, Z.pow2_bits_eqb by exact Hb.
    destruct (Z.eqb_spec b n) as [<- | _]; [rewrite Hbit; reflexivity|].
    apply andb_false_r.
Qed.

Lemma set_bit_spec (w b c : Z) :
  (0 <= b)%Z -> (0 <= c)%Z ->
  Z.testbit (Z.lor w (Z.shiftl 1 b)) c = Z.testbit w c || (b =? c)%Z.
Proof.
  intros Hb Hc. rewrite Z.lor_spec, Z.shiftl_1_l, Z.pow2_bits_eqb by exact Hb.
  reflexivity.
Qed.

Lemma clear_bit_spec (w b c : Z) :
  (0 <= b)%Z -> (0 <= c < 64)%Z ->
  Z.testbit (Z.land w (Weighted.not64 (Z.shiftl 1 b))) c
  = Z.testbit w c && negb (b =? c)%Z.
Proof.
  intros Hb Hc. unfold Weighted.not64.
  rewrite !Z.land_spec, Z.lnot_spec, Z.shiftl_1_l, Z.pow2_bits_eqb by lia.
  rewrite Z.ones_spec_low by lia. rewrite andb_true_r. reflexivity.
Qed.

Lemma word_index_in_range (K i : N) :
  (i < K)%N -> (i / 64 < (K + 63) / 64)%N.
Proof.
  intros Hi. apply N.Div0.div_lt_upper_bound.
  pose proof (N.div_mod (K + 63) 64 ltac:(discriminate)).
  pose proof (N.mod_lt (K + 63) 64 ltac:(discriminate)). lia.
Qed.

Lemma index_split (i j : N) :
  (i / 64 = j / 64)%N -> (i mod 64 = j mod 64)%N -> i = j.
Proof.
  intros Hd Hm.
  rewrite (N.div_mod i 64), (N.div_mod j 64) by discriminate. congruence.
Qed.

(** The constructor sizes the bitmap as long as [K + 63] does not wrap. *)
Lemma make_bitmap_sized id v K f l :
  (K + 63 <= SIZE_MAX)%N -> Weighted.bitmap_sized (Weighted.make id v K f l).
Proof.
  intros HK. unfold Weighted.bitmap_sized, Weighted.make. cbn.
  rewrite repeat_length, N2Nat.id. unfold size_t_wrap.
  rewrite N.mod_small; [reflexivity|]. unfold SIZE_MAX in *. lia.
Qed.

(** A fresh point has nothing pruned. *)
Lemma make_not_pruned id v K f l i :
  (K + 63 <= SIZE_MAX)%N -> (i < K)%N ->
  Weighted.isPruned (Weighted.make id v K f l) i = Normal false.
Proof.
  intros HK Hi. pose proof (make_bitmap_sized id v K f l HK) as Hsz.
  unfold Weighted.isPruned. cbn [Weighted.num_weight_combinations_ Weighted.make].
  replace (K <=? i)%N with false by (symmetry; apply N.leb_gt; exact Hi).
  destruct (nth_error _ _) as [w|] eqn:Hw.
  - apply nth_error_In in Hw. cbn in Hw. apply repeat_spec in Hw. subst w.
    rewrite Z.land_0_l. reflexivity.
  - exfalso. apply nth_error_None in Hw. unfold Weighted.bitmap_sized in Hsz.
    cbn [Weighted.num_weight_combinations_ Weighted.make] in Hsz.
    pose proof (word_index_in_range K i Hi). lia.
Qed.

(** The entries a [MultiVectorDEG] pool builds carry a bitmap of the right
    size. *)
Lemma weighted_pool_entry_sized K i v f l :
  (K + 63 <= SIZE_MAX)%N ->
  Weighted.bitmap_sized (construct (NeighborLike := Weighted_NeighborLike K) i v f l).
Proof. apply make_bitmap_sized. Qed.

(** C9.  On a point whose bitmap has its ceil(K / 64) words and for an
    index [i < K], [setPruned(i, b)] returns normally; afterwards
    [isPruned(i)] returns [b], [isPruned(j)] returns what it returned before
    for every other index [j < K], and nothing else of the point changed. *)
Theorem setPruned_isPruned_roundtrip (p : Weighted.MultiVectorDEGNeighbor) (i : N) (b : bool) :
  Weighted.bitmap_sized p ->
  (i < Weighted.num_weight_combinations_ p)%N ->
  exists p',
    Weighted.setPruned p i b = (Done, p') /\
    Weighted.isPruned p' i = Normal b /\
    (forall j, (j < Weighted.num_weight_combinations_ p)%N -> j <> i ->
       Weighted.isPruned p' j = Weighted.isPruned p j) /\
    Weighted.bitmap_sized p' /\
    Weighted.num_weight_combinations_ p' = Weighted.num_weight_combinations_ p /\
    Weighted.id_ p' = Weighted.id_ p /\
    Weighted.distances_ p' = Weighted.distances_ p /\
    Weighted.flag p' = Weighted.flag p /\
    Weighted.layer_ p' = Weighted.layer_ p.
Proof.
  intros Hsz Hi. unfold Weighted.bitmap_sized in Hsz.
  pose proof (word_index_in_range _ _ Hi) as Hword.
  assert (Hlen : (N.to_nat (i / 64) < length (Weighted.pruning_bitmap_ p))%nat) by lia.
  unfold Weighted.setPruned.
  replace (Weighted.num_weight_combinations_ p <=? i)%N with false
    by (symmetry; apply N.leb_gt; exact Hi).
  destruct (nth_error (Weighted.pruning_bitmap_ p) (N.to_nat (i / 64))) as [w|] eqn:Hw;
    [|apply nth_error_None in Hw; lia].
  pose proof (N.mod_lt i 64 ltac:(discriminate)) as Hbit.
  set (w' := if b then Z.lor w (Z.shiftl 1 (Z.of_N (i mod 64)))
             else Z.land w (Weighted.not64 (Z.shiftl 1 (Z.of_N (i mod 64))))).
  exists (Weighted.set_word p (N.to_nat (i / 64)) w').
  split; [destruct b; reflexivity|].
  assert (Hget : forall j, (j < Weighted.num_weight_combinations_ p)%N ->
            Weighted.isPruned (Weighted.set_word p (N.to_nat (i / 64)) w') j =
            if (j / 64 =? i / 64)%N
            then Normal (Z.testbit w' (Z.of_N (j mod 64)))
            else Weighted.isPruned p j).
  { intros j Hj. unfold Weighted.isPruned.
    cbn [Weighted.set_word Weighted.num_weight_combinations_ Weighted.pruning_bitmap_].
    replace (Weighted.num_weight_combinations_ p <=? j)%N with false
      by (symmetry; apply N.leb_gt; exact Hj).
    rewrite nth_error_set_word by exact Hlen.
    destruct (N.eqb_spec (j / 64) (i / 64)) as [Heq | Hne].
    - rewrite Heq, Nat.eqb_refl. rewrite test_mask by apply N2Z.is_nonneg. reflexivity.
    - replace (N.to_nat (j / 64) =? N.to_nat (i / 64)) with false; [reflexivity|].
      symmetry. apply Nat.eqb_neq. lia. }
  assert (Hrange : forall k : N, (0 <= Z.of_N (k mod 64) < 64)%Z).
  { intros k. split; [apply N2Z.is_nonneg|].
    change 64%Z with (Z.of_N 64). apply N2Z.inj_lt, N.mod_lt. discriminate. }
  split; [|split; [|split]].
  - rewrite Hget by exact Hi. rewrite N.eqb_refl. f_equal. subst w'. destruct b.
    + rewrite set_bit_spec by apply Hrange. rewrite Z.eqb_refl. apply orb_true_r.
    + rewrite clear_bit_spec by apply Hrange. rewrite Z.eqb_refl. apply andb_false_r.
  - intros j Hj Hne. rewrite Hget by exact Hj.
    destruct (N.eqb_spec (j / 64) (i / 64)) as [Heq | _]; [|reflexivity].
    unfold Weighted.isPruned.
    replace (Weighted.num_weight_combinations_ p <=? j)%N with false
      by (symmetry; apply N.leb_gt; exact Hj).
    rewrite Heq, Hw. rewrite test_mask by apply N2Z.is_nonneg. f_equal.
    assert (Hmod : (i mod 64 <> j mod 64)%N)
      by (intros Hm; apply Hne; apply index_split; congruence).
    assert (Hz : (Z.of_N (i mod 64) =? Z.of_N (j mod 64))%Z = false)
      by (apply Z.eqb_neq; intros Hz; apply Hmod, N2Z.inj, Hz).
    subst w'. destruct b.
    + rewrite set_bit_spec by apply Hrange. rewrite Hz. apply orb_false_r.
    + rewrite clear_bit_spec by apply Hrange. rewrite Hz. apply andb_true_r.
  - unfold Weighted.bitmap_sized.
    cbn [Weighted.set_word Weighted.num_weight_combinations_ Weighted.pruning_bitmap_].
    rewrite length_set_word by exact Hlen. exact Hsz.
  - repeat split.
Qed.

(** ** The weight lattice *)

Lemma table_ok_true : table_ok = true.
Proof. vm_compute. reflexivity. Qed.

Lemma tenths_ok_true : tenths_ok = true.
Proof. vm_compute. reflexivity. Qed.

Lemma same_eq (a b : float) : Float32.same a b = true -> a = b.
Proof.
  destruct a as [s | s | | s m e], b as [s' | s' | | s' m' e']; cbn; try discriminate.
  - intros H. apply Bool.eqb_prop in H. congruence.
  - intros H. apply Bool.eqb_prop in H. congruence.
  - reflexivity.
  - intros H. apply andb_true_iff in H. destruct H as [H He].
    apply andb_true_iff in H. destruct H as [Hs Hm].
    apply Bool.eqb_prop in Hs. apply Pos.eqb_eq in Hm. apply Z.eqb_eq in He.
    congruence.
Qed.

Lemma mem_float_In (x : float) (l : list float) : mem_float x l = true -> In x l.
Proof.
  unfold mem_float. rewrite existsb_exists. intros [y [Hy Hs]].
  apply same_eq in Hs. congruence.
Qed.

Lemma table_row_ok k cs :
  (k <= 10)%nat -> reachable k cs ->
  last_ok k cs = true /\ forall j, (j <= 11)%nat -> round_ok k cs j = true.
Proof.
  intros Hk Hcs. pose proof table_ok_true as H. unfold table_ok in H.
  rewrite forallb_forall in H. specialize (H k ltac:(apply in_seq; lia)).
  rewrite forallb_forall in H.
  specialize (H cs Hcs). apply andb_true_iff in H. destruct H as [Hlast Hround].
  split; [exact Hlast|]. intros j Hj.
  rewrite forallb_forall in Hround. apply Hround, in_seq. lia.
Qed.

Lemma reachable_start : reachable 0 f_0.
Proof. left. reflexivity. Qed.

(** [==] holds between a float and itself or between two zeros only. *)
Lemma eqb_cases (a b : float) :
  Float32.eqb a b = true ->
  a = b \/ exists s s', a = S754_zero s /\ b = S754_zero s'.
Proof.
  unfold Float32.eqb, SFeqb.
  destruct a as [s | s | | s m e], b as [s' | s' | | s' m' e']; cbn;
    try discriminate; try (destruct s; discriminate); try (destruct s'; discriminate).
  - intros _. right. eauto.
  - destruct s, s'; try discriminate; intros _; left; reflexivity.
  - destruct s, s'; try discriminate;
      destruct (Z.compare_spec e e') as [-> | |]; try discriminate;
      destruct (Pos.compare_cont Eq m m') eqn:Hm; try discriminate;
      intros _; left; apply Pos.compare_eq in Hm; congruence.
Qed.

Lemma compare_zero_l s s' x : SFcompare (S754_zero s) x = SFcompare (S754_zero s') x.
Proof. destruct x; reflexivity. Qed.

Lemma compare_zero_r s s' x : SFcompare x (S754_zero s) = SFcompare x (S754_zero s').
Proof. destruct x; reflexivity. Qed.

Lemma compare_eqb_l (a a' b : float) :
  Float32.eqb a a' = true -> SFcompare a b = SFcompare a' b.
Proof.
  intros H. destruct (eqb_cases _ _ H) as [-> | [s [s' [-> ->]]]];
    [reflexivity | apply compare_zero_l].
Qed.

Lemma compare_eqb_r (a b b' : float) :
  Float32.eqb b b' = true -> SFcompare a b = SFcompare a b'.
Proof.
  intros H. destruct (eqb_cases _ _ H) as [-> | [s [s' [-> ->]]]];
    [reflexivity | apply compare_zero_r].
Qed.

Lemma tenths_compare i j :
  (i <= 10)%nat -> (j <= 10)%nat ->
  Float32.ltb (tenth i) (tenth j) = (i <? j) /\
  Float32.eqb (tenth i) (tenth j) = (i =? j).
Proof.
  intros Hi Hj. pose proof tenths_ok_true as H. unfold tenths_ok in H.
  rewrite forallb_forall in H. specialize (H i ltac:(apply in_seq; lia)).
  rewrite forallb_forall in H. specialize (H j ltac:(apply in_seq; lia)).
  apply andb_true_iff in H. destruct H as [Hlt Heq].
  split; apply Bool.eqb_prop; assumption.
Qed.

(** Floats that stand for tenths compare like the tenths. *)
Lemma is_tenth_compare f g i j :
  is_tenth f i -> is_tenth g j ->
  Float32.ltb f g = (i <? j) /\ Float32.ltb g f = (j <? i) /\
  Float32.eqb f g = (i =? j).
Proof.
  intros [Hi Hf] [Hj Hg].
  destruct (tenths_compare i j Hi Hj) as [Hlt Heq].
  destruct (tenths_compare j i Hj Hi) as [Hgt _].
  unfold Float32.ltb, Float32.eqb, SFltb, SFeqb in *.
  rewrite (compare_eqb_l f (tenth i) g Hf), (compare_eqb_r (tenth i) g (tenth j) Hg).
  rewrite (compare_eqb_l g (tenth j) f Hg), (compare_eqb_r (tenth j) f (tenth i) Hf).
  auto.
Qed.

Lemma is_tenth_self j : (j <= 10)%nat -> is_tenth (tenth j) j.
Proof.
  intros Hj. split; [exact Hj|].
  destruct (tenths_compare j j Hj Hj) as [_ ->]. apply Nat.eqb_refl.
Qed.

Lemma weights_tenths_order : forall a x b y,
  Forall2 is_tenth a x -> Forall2 is_tenth b y -> nat_lex_lt x y ->
  weights_less b a = false /\ weights_equal a b = false.
Proof.
  intros a x b y Ha. revert b y.
  induction Ha as [|f i a x Hf Ha IH]; intros b y Hb Hlt; [contradiction|].
  destruct Hb as [|g j b y Hg Hb]; [contradiction|].
  destruct (is_tenth_compare f g i j Hf Hg) as [Hfg [Hgf Heq]].
  cbn [weights_less weights_equal]. rewrite Hfg, Hgf, Heq.
  cbn [nat_lex_lt] in Hlt. destruct Hlt as [Hlt | [-> Hlt]].
  - replace (j <? i) with false by (symmetry; apply Nat.ltb_ge; lia).
    replace (i <? j) with true by (symmetry; apply Nat.ltb_lt; lia).
    replace (i =? j) with false by (symmetry; apply Nat.eqb_neq; lia).
    split; reflexivity.
  - rewrite Nat.ltb_irrefl, Nat.eqb_refl. cbn [andb].
    apply (IH b y Hb Hlt).
Qed.

Lemma weight_loop_unfold nd dim current cs recurse fuel w result :
  weight_loop nd dim current cs recurse (S fuel) w result =
  if Float32.leb w f_1_001 && Float32.leb (Float32.add cs w) f_1_001
  then
    if Float32.geb (Float32.sub f_1 (Float32.add cs (round_to_tenth w)))
                   (Float32.sub f_0 f_0_001)
       && Float32.leb (Float32.sub f_1 (Float32.add cs (round_to_tenth w)))
            (Float32.add (Float32.mul (Float32.of_Z (Z.of_nat (nd - dim - 1))) f_1)
                         f_0_001)
    then
      match recurse (current ++ [round_to_tenth w])
                    (Float32.add cs (round_to_tenth w))
                    (Float32.sub f_1 (Float32.add cs (round_to_tenth w))) result with
      | None => None
      | Some result' =>
          weight_loop nd dim current cs recurse fuel (Float32.add w WEIGHT_STEP) result'
      end
    else weight_loop nd dim current cs recurse fuel (Float32.add w WEIGHT_STEP) result
  else Some result.
Proof. reflexivity. Qed.

Lemma Forall2_map_cons (f : float) (j : nat) out comps :
  is_tenth f j ->
  Forall2 (Forall2 is_tenth) out comps ->
  Forall2 (Forall2 is_tenth) (map (cons f) out) (map (cons j) comps).
Proof.
  intros Hf H. induction H as [|a x out comps Hax H IH]; cbn [map]; constructor.
  - constructor; assumption.
  - exact IH.
Qed.

(** The [for] loop from round [j0] on, at a sum of [k] tenths, when the
    recursive call enumerates what is left. *)
Lemma weight_loop_spec nd dim current cs recurse k r :
  (k <= 10)%nat -> reachable k cs ->
  (1 <= nd - dim - 1 <= 7)%nat ->
  (forall j rem result0,
     (j <= 10 - k)%nat ->
     exists out1,
       recurse (current ++ [tenth j]) (Float32.add cs (tenth j)) rem result0
         = Some (rev (map (app (current ++ [tenth j])) out1) ++ result0) /\
       Forall2 (Forall2 is_tenth) out1 (compositions r (10 - k - j))) ->
  forall t j0 fuel result,
    (j0 + t = 11 - k)%nat -> (t < fuel)%nat ->
    exists out,
      weight_loop nd dim current cs recurse fuel (w_at j0) result
        = Some (rev (map (app current) out) ++ result) /\
      Forall2 (Forall2 is_tenth) out
              (flat_map (fun j => map (cons j) (compositions r (10 - k - j))) (seq j0 t)).
Proof.
  intros Hk Hcs Hm Hrec.
  destruct (table_row_ok k cs Hk Hcs) as [_ Hround].
  induction t as [|t IH]; intros j0 fuel result Hj Hfuel;
    (destruct fuel as [|fuel]; [lia|]); rewrite weight_loop_unfold.
  - specialize (Hround j0 ltac:(lia)). unfold round_ok in Hround.
    replace (j0 <=? 10 - k) with false in Hround by (symmetry; apply Nat.leb_gt; lia).
    replace (j0 =? 11 - k) with true in Hround by (symmetry; apply Nat.eqb_eq; lia).
    apply negb_true_iff in Hround. unfold loop_guard in Hround. rewrite Hround.
    exists []. split; [reflexivity | constructor].
  - specialize (Hround j0 ltac:(lia)). unfold round_ok in Hround.
    replace (j0 <=? 10 - k) with true in Hround by (symmetry; apply Nat.leb_le; lia).
    apply andb_true_iff in Hround. destruct Hround as [Hround Hneed].
    apply andb_true_iff in Hround. destruct Hround as [Hround Hmem].
    apply andb_true_iff in Hround. destruct Hround as [Hguard Hsame].
    unfold loop_guard in Hguard. rewrite Hguard.
    apply same_eq in Hsame. rewrite Hsame.
    rewrite forallb_forall in Hneed.
    specialize (Hneed (nd - dim - 1)%nat ltac:(apply in_seq; lia)).
    unfold need_ok in Hneed. rewrite Hsame in Hneed. rewrite Hneed.
    destruct (Hrec j0 (Float32.sub f_1 (Float32.add cs (tenth j0))) result ltac:(lia))
      as [out1 [-> Hout1]].
    destruct (IH (S j0) fuel
                 (rev (map (app (current ++ [tenth j0])) out1) ++ result)
                 ltac:(lia) ltac:(lia)) as [out2 [Hrun Hout2]].
    cbn [w_at] in Hrun. rewrite Hrun.
    exists (map (cons (tenth j0)) out1 ++ out2). split.
    + f_equal. rewrite map_app, rev_app_distr, map_map, <- app_assoc.
      do 3 f_equal. apply map_ext. intros a. rewrite <- app_assoc. reflexivity.
    + cbn [seq flat_map]. apply Forall2_app; [|exact Hout2].
      apply Forall2_map_cons; [|exact Hout1]. apply is_tenth_self. lia.
Qed.

(** With [r + 1] dimensions to go at a sum of [k] tenths, [backtrack]
    pushes the compositions of [10 - k] into [r + 1] parts, in order. *)
Lemma backtrack_spec nd :
  (nd <= 8)%nat ->
  forall r dim fuel k current cs rem result,
    (nd - dim = S r)%nat -> (r < fuel)%nat -> (k <= 10)%nat -> reachable k cs ->
    exists out,
      backtrack nd fuel dim current cs rem result
        = Some (rev (map (app current) out) ++ result) /\
      Forall2 (Forall2 is_tenth) out (compositions (S r) (10 - k)).
Proof.
  intros Hnd. induction r as [|r IH];
    intros dim fuel k current cs rem result Hdim Hfuel Hk Hcs;
    (destruct fuel as [|fuel]; [lia|]); cbn [backtrack].
  - replace (dim =? nd - 1) with true by (symmetry; apply Nat.eqb_eq; lia).
    destruct (table_row_ok k cs Hk Hcs) as [Hlast _]. unfold last_ok in Hlast.
    repeat (apply andb_true_iff in Hlast; destruct Hlast as [Hlast ?]).
    rewrite Hlast, H2. cbn [andb]. rewrite H1, H0. cbn [andb].
    exists [[round_to_tenth (Float32.sub f_1 cs)]]. split; [reflexivity|].
    cbn [compositions]. constructor; [|constructor].
    constructor; [|constructor]. split; [lia | assumption].
  - replace (dim =? nd - 1) with false by (symmetry; apply Nat.eqb_neq; lia).
    destruct (weight_loop_spec nd dim current cs (backtrack nd fuel (S dim)) k (S r)
                Hk Hcs ltac:(lia)) with (t := (11 - k)%nat) (j0 := O) (fuel := 16%nat)
                                           (result := result)
      as [out [Hrun Hout]].
    + intros j rem0 result0 Hj.
      destruct (table_row_ok k cs Hk Hcs) as [_ Hround].
      specialize (Hround j ltac:(lia)). unfold round_ok in Hround.
      replace (j <=? 10 - k) with true in Hround by (symmetry; apply Nat.leb_le; lia).
      apply andb_true_iff in Hround. destruct Hround as [Hround _].
      apply andb_true_iff in Hround. destruct Hround as [_ Hmem].
      apply mem_float_In in Hmem.
      destruct (IH (S dim) fuel (k + j)%nat (current ++ [tenth j])
                   (Float32.add cs (tenth j)) rem0 result0
                   ltac:(lia) ltac:(lia) ltac:(lia) Hmem) as [out1 [Hrun1 Hout1]].
      exists out1. split; [exact Hrun1|].
      replace (10 - k - j)%nat with (10 - (k + j))%nat by lia. exact Hout1.
    + lia.
    + lia.
    + exists out. split; [exact Hrun|].
      change (compositions (S (S r)) (10 - k))
        with (flat_map (fun j => map (cons j) (compositions (S r) (10 - k - j)))
                       (seq 0 (S (10 - k)))).
      replace (S (10 - k)) with (11 - k)%nat by lia. exact Hout.
Qed.

(** *** The integer enumeration *)

Lemma ForallOrdPairs_app {A : Type} (R : A -> A -> Prop) (l1 l2 : list A) :
  ForallOrdPairs R l1 -> ForallOrdPairs R l2 ->
  (forall x y, In x l1 -> In y l2 -> R x y) ->
  ForallOrdPairs R (l1 ++ l2).
Proof.
  intros H1 H2 H12. induction H1 as [|a l1 Ha H1 IH]; [exact H2|].
  cbn [app]. constructor.
  - apply Forall_app. split; [exact Ha|].
    apply Forall_forall. intros y Hy. apply H12; [left; reflexivity | exact Hy].
  - apply IH. intros x y Hx Hy. apply H12; [right; exact Hx | exact Hy].
Qed.

Lemma ordered_map_cons j (l : list (list nat)) :
  ForallOrdPairs nat_lex_lt l -> ForallOrdPairs nat_lex_lt (map (cons j) l).
Proof.
  intros H. induction H as [|a l Ha H IH]; cbn [map]; constructor; [|exact IH].
  apply Forall_map. eapply Forall_impl; [|exact Ha].
  intros b Hab. right. split; [reflexivity | exact Hab].
Qed.

Lemma ordered_flat_map (f : nat -> list (list nat)) :
  (forall j, ForallOrdPairs nat_lex_lt (f j)) ->
  forall len a,
    ForallOrdPairs nat_lex_lt (flat_map (fun j => map (cons j) (f j)) (seq a len)).
Proof.
  intros Hf. induction len as [|len IH]; intros a; cbn [seq flat_map]; [constructor|].
  apply ForallOrdPairs_app; [apply ordered_map_cons, Hf | apply IH|].
  intros x y Hx Hy. apply in_map_iff in Hx. destruct Hx as [x' [<- _]].
  apply in_flat_map in Hy. destruct Hy as [j [Hj Hy]].
  apply in_map_iff in Hy. destruct Hy as [y' [<- _]].
  apply in_seq in Hj. left. lia.
Qed.

Lemma compositions_ordered : forall r n, ForallOrdPairs nat_lex_lt (compositions r n).
Proof.
  induction r as [|r IH]; intros n; cbn [compositions]; [constructor|].
  destruct r as [|r]; [repeat constructor|].
  apply (ordered_flat_map (fun j => compositions (S r) (n - j))).
  intros j. apply IH.
Qed.

Lemma length_flat_map_sum {A B : Type} (f : A -> list B) (l : list A) :
  length (flat_map f l) = list_sum (map (fun x => length (f x)) l).
Proof.
  induction l as [|a l IH]; [reflexivity|].
  cbn [flat_map map list_sum]. rewrite length_app, IH. reflexivity.
Qed.

Lemma compositions_length : forall r n,
  length (compositions r n) = count_compositions r n.
Proof.
  induction r as [|r IH]; intros n; [reflexivity|].
  cbn [compositions count_compositions]. destruct r as [|r]; [reflexivity|].
  rewrite length_flat_map_sum. f_equal. apply map_ext.
  intros j. rewrite length_map. apply IH.
Qed.

Lemma binomial_above : forall n k, (n < k)%nat -> binomial n k = 0%nat.
Proof.
  induction n as [|n IH]; intros k Hk; destruct k as [|k]; try lia; [reflexivity|].
  cbn [binomial]. rewrite !IH by lia. reflexivity.
Qed.

Lemma binomial_diag n : binomial n n = 1%nat.
Proof.
  induction n as [|n IH]; [reflexivity|].
  cbn [binomial]. rewrite IH, binomial_above by lia. reflexivity.
Qed.

Lemma count_compositions_step r n :
  count_compositions (S (S r)) (S n) =
  (count_compositions (S r) (S n) + count_compositions (S (S r)) n)%nat.
Proof.
  change (count_compositions (S (S r)) (S n))
    with (list_sum (map (fun j => count_compositions (S r) (S n - j)) (seq 0 (S (S n))))).
  change (count_compositions (S (S r)) n)
    with (list_sum (map (fun j => count_compositions (S r) (n - j)) (seq 0 (S n)))).
  change (seq 0 (S (S n))) with (0%nat :: seq 1 (S n)).
  cbn [map list_sum]. rewrite <- seq_shift, map_map. reflexivity.
Qed.

(** Stars and bars: [n] splits into [r + 1] ordered parts in C(n + r, r)
    ways. *)
Lemma count_compositions_binomial : forall r n,
  count_compositions (S r) n = binomial (n + r) r.
Proof.
  induction r as [|r IHr]; intros n; [destruct n; reflexivity|].
  induction n as [|n IHn].
  - change (count_compositions (S (S r)) 0)
      with (count_compositions (S r) 0 + 0)%nat.
    rewrite IHr, Nat.add_0_r. cbn [Nat.add]. rewrite !binomial_diag. reflexivity.
  - rewrite count_compositions_step, IHr, IHn.
    replace (S n + S r)%nat with (S (n + S r)) by lia.
    replace (S n + r)%nat with (n + S r)%nat by lia.
    reflexivity.
Qed.

(** *** Sorting and deduplicating an ascending list changes nothing *)

Lemma weights_sort_ascending (l : list (list float)) :
  ForallOrdPairs (fun a b => weights_less b a = false /\ weights_equal a b = false) l ->
  weights_sort l = l.
Proof.
  intros H. induction H as [|a l Ha H IH]; [reflexivity|].
  cbn [weights_sort fold_right]. fold (weights_sort l). rewrite IH.
  destruct l as [|b l]; [reflexivity|]. cbn [weights_sort_insert].
  inversion Ha as [|? ? [Hba _] _]; subst. rewrite Hba. reflexivity.
Qed.

Lemma unique_ascending (l : list (list float)) :
  ForallOrdPairs (fun a b => weights_less b a = false /\ weights_equal a b = false) l ->
  unique l = l.
Proof.
  intros H. destruct H as [|a l Ha H]; [reflexivity|].
  cbn [unique]. f_equal. revert a Ha.
  induction H as [|b l Hb H IH]; intros a Ha; [reflexivity|].
  cbn [unique_after]. inversion Ha as [|? ? [_ Hab] _]; subst.
  rewrite Hab. f_equal. apply IH. exact Hb.
Qed.

Lemma tenths_ascending : forall out comps,
  Forall2 (Forall2 is_tenth) out comps ->
  ForallOrdPairs nat_lex_lt comps ->
  ForallOrdPairs (fun a b => weights_less b a = false /\ weights_equal a b = false) out.
Proof.
  intros out comps H. induction H as [|a x out comps Hax H IH]; intros Hord;
    [constructor|].
  inversion Hord as [|? ? Hx Hord']; subst. constructor; [|apply IH; exact Hord'].
  clear IH Hord Hord'. induction H as [|b y out comps Hby H IH]; [constructor|].
  inversion Hx as [|? ? Hxy Hx']; subst. constructor; [|apply IH; exact Hx'].
  eapply weights_tenths_order; eassumption.
Qed.

(** C8.  [generateWeightCombinations] returns the empty list for 0
    dimensions and the single combination {1.0} for 1 dimension.  For every
    [d] from 1 to 8 it returns a list of exactly C(10 + d - 1, d - 1)
    combinations, no two of them equal; they are, in order, the lists of [d]
    multiples of 0.1 whose tenths add up to 10.  The counts for 2, 3 and 4
    dimensions are 11, 66 and 286. *)
Theorem generateWeightCombinations_cardinality :
  generateWeightCombinations 0 = Some [] /\
  generateWeightCombinations 1 = Some [[f_1]] /\
  (forall d, (1 <= d <= 8)%nat ->
     exists combos,
       generateWeightCombinations d = Some combos /\
       length combos = binomial (10 + d - 1) (d - 1) /\
       pairwise_distinct combos /\
       Forall2 (Forall2 is_tenth) combos (compositions d 10)) /\
  binomial (10 + 2 - 1) (2 - 1) = 11%nat /\
  binomial (10 + 3 - 1) (3 - 1) = 66%nat /\
  binomial (10 + 4 - 1) (4 - 1) = 286%nat.
Proof.
  split; [reflexivity|]. split; [reflexivity|].
  split; [|split; [|split]; reflexivity].
  intros d Hd.
  assert (Hgen : exists combos,
            generateWeightCombinations d = Some combos /\
            Forall2 (Forall2 is_tenth) combos (compositions d 10)).
  { destruct d as [|[|d]]; [lia| |].
    - exists [[f_1]]. split; [reflexivity|].
      cbn [compositions]. constructor; [|constructor].
      constructor; [|constructor]. split; [lia | vm_compute; reflexivity].
    - unfold generateWeightCombinations. cbn [Nat.eqb].
      destruct (backtrack_spec (S (S d)) ltac:(lia) (S d) 0 (S (S d)) 0 [] f_0 f_1 []
                  ltac:(lia) ltac:(lia) ltac:(lia) reachable_start)
        as [out [-> Hout]].
      rewrite app_nil_r, rev_involutive.
      replace (map (app []) out) with out
        by (symmetry; rewrite <- (map_id out) at 2; apply map_ext; reflexivity).
      assert (Hasc := tenths_ascending out _ Hout (compositions_ordered _ _)).
      rewrite (weights_sort_ascending out Hasc), (unique_ascending out Hasc).
      exists out. split; [reflexivity | exact Hout]. }
  destruct Hgen as [combos [Hrun Hcombos]].
  exists combos. split; [exact Hrun|]. split; [|split; [|exact Hcombos]].
  - rewrite (Forall2_length Hcombos), compositions_length.
    destruct d as [|d]; [lia|]. rewrite count_compositions_binomial.
    f_equal; lia.
  - assert (Hasc := tenths_ascending combos _ Hcombos (compositions_ordered _ _)).
    unfold pairwise_distinct. clear -Hasc.
    induction Hasc as [|a l Ha H IH]; constructor; [|exact IH].
    eapply Forall_impl; [|exact Ha]. intros b [_ Hab]. exact Hab.
Qed.

(** ** The worked cases *)

Ltac distinct_ids :=
  repeat (constructor; [cbn; intuition discriminate|]); constructor.

Ltac right_dimension := repeat constructor.

(** The scenario of the specification: three points on the frontier, two in
    the remainder. *)
Lemma findSkyline_five :
  findSkyline 2 Example.five [] [] =
  (Done, ([Example.point 1 [5; 30]%Q true; Example.point 2 [15; 10]%Q true;
           Example.point 3 [8; 15]%Q true],
          [Example.point 0 [10; 20]%Q true; Example.point 4 [20; 25]%Q true])).
Proof. reflexivity. Qed.

(** [MultiVectorGPS gps(10, 5, 2, 2)] reserves 10 and 400 elements;
    [gps(10, 5, 2, 0)] throws before it reserves; for [m] = 32768 the
    product 4 * m * m wraps to 0. *)
Lemma new_pool_example :
  new_pool (N.eqb 10) (N.eqb 400) 10 5 2 2 = Normal (Example.gps 10) /\
  new_pool (P := Plain.MultiVectorNeighbor) (fun _ => false) (fun _ => false) 10 5 2 0
  = Thrown invalid_argument /\
  new_pool (P := Plain.MultiVectorNeighbor) (fun _ => true) (fun _ => false) 10 5 2 2
  = Thrown bad_alloc /\
  unsigned_wrap (unsigned_wrap (4 * 32768) * 32768) = 0%N.
Proof. repeat split. Qed.

Lemma initNeighbor_five :
  initNeighbor (Example.gps 10) Example.five = Some (Done, Example.gps_five).
Proof. reflexivity. Qed.

Lemma findSkyline_frontier_and_remainder_witness :
  NoDup (map get_id Example.five) /\
  Forall (fun p => length (get_distances p) = 2%nat) Example.five /\
  exists frontier remainder,
    findSkyline 2 Example.five [] [] = (Done, ([] ++ frontier, [] ++ remainder)) /\
    (forall p, In p frontier \/ In p remainder -> In p Example.five) /\
    (forall p, In p Example.five ->
       (In p frontier <->
        forall q, In q Example.five -> q <> p ->
                  ~ Dominates 2 (get_distances q) (get_distances p))) /\
    (forall p, In p Example.five -> (In p remainder <-> ~ In p frontier)) /\
    (forall r, In r remainder ->
       exists f, In f frontier /\ Dominates 2 (get_distances f) (get_distances r)).
Proof.
  assert (Hnd : NoDup (map get_id Example.five)) by distinct_ids.
  assert (Hdim : Forall (fun p => length (get_distances p) = 2%nat) Example.five)
    by right_dimension.
  split; [exact Hnd|]. split; [exact Hdim|].
  exact (findSkyline_frontier_and_remainder 2 Example.five [] [] Hnd Hdim).
Defined.

Lemma findSkyline_dimension_mismatch_witness :
  Exists (fun p => length (get_distances p) <> 2%nat) Example.mixed /\
  findSkyline 2 Example.mixed [] [] = (Thrown invalid_argument, ([], [])).
Proof.
  assert (Hex : Exists (fun p => length (get_distances p) <> 2%nat) Example.mixed)
    by (right; left; cbn; discriminate).
  split; [exact Hex|].
  exact (findSkyline_dimension_mismatch 2 Example.mixed [] [] Hex).
Defined.

Lemma initNeighbor_layer_monotone_witness :
  exists s',
    initNeighbor (Example.gps 10) Example.five = Some (Done, s') /\
    (forall p, In p Example.five -> exists e, In e (pool_ s') /\ same_point e p) /\
    (forall p q, In p (pool_ s') -> In q (pool_ s') ->
       (get_layer p < get_layer q)%Z ->
       ~ Dominates 2 (get_distances q) (get_distances p)).
Proof.
  apply (initNeighbor_layer_monotone (Example.gps 10) Example.five).
  - reflexivity.
  - distinct_ids.
  - right_dimension.
Defined.

Lemma initNeighbor_outlier_is_last_layer_witness :
  exists s',
    initNeighbor (Example.gps 10) Example.five = Some (Done, s') /\
    outlier_ s' = last (peel (length Example.five) 2 Example.five) [] /\
    outlier_ s' <> [] /\
    (forall o, In o (outlier_ s') ->
       In o Example.five /\
       exists e, In e (pool_ s') /\ same_point e o /\
                 get_layer e = (num_layer_ s' - 1)%Z) /\
    (forall o v, In o (outlier_ s') -> length v = num_dimensions_ s' ->
       insert s' (get_id o) v = (Done, s')).
Proof.
  apply (initNeighbor_outlier_is_last_layer (Example.gps 10) Example.five).
  - discriminate.
  - right_dimension.
Defined.

(** After [initNeighbor(five)] the point 4 is in both vectors, and
    [insert(4, ...)] is refused. *)
Lemma initNeighbor_five_outlier :
  outlier_ Example.gps_five = [Example.point 4 [20; 25]%Q true] /\
  In 4%N (map get_id (pool_ Example.gps_five)) /\
  insert Example.gps_five 4 [0; 0]%Q = (Done, Example.gps_five).
Proof. repeat split. cbn. tauto. Qed.

(** C1, the failing case: the point inserted into a fresh pool is still
    outside the pool after [updateNeighbor]. *)
Lemma insert_then_update_leaves_point_out_witness :
  length [1; 1]%Q = num_dimensions_ (Example.gps 10) /\
  ~ In 7%N (map get_id (pool_ (Example.gps 10))) /\
  ~ In 7%N (map get_id (outlier_ (Example.gps 10))) /\
  exists s1 c s2,
    insert (Example.gps 10) 7 [1; 1]%Q = (Done, s1) /\
    pool_ s1 = pool_ (Example.gps 10) /\
    outlier_ s1 = outlier_ (Example.gps 10) ++ [construct 7%N [1; 1]%Q true 0%Z] /\
    updateNeighbor s1 = Some (c, s2) /\
    ~ In 7%N (map get_id (pool_ s2)).
Proof.
  split; [reflexivity|]. split; [intros []|]. split; [intros []|].
  apply (insert_then_update_leaves_point_out (Example.gps 10) 7 [1; 1]%Q);
    [reflexivity | intros [] | intros []].
Defined.

Lemma insert_then_update_fresh :
  insert (Example.gps 10) 7 [1; 1]%Q = (Done, Example.gps_inserted) /\
  updateNeighbor Example.gps_inserted = Some (Done, Example.gps_inserted) /\
  pool_ Example.gps_inserted = [].
Proof. repeat split. Qed.

(** On a filled pool the inserted point, which dominates every other, is
    dropped altogether: the pass overwrites [outlier_]. *)
Lemma insert_then_update_five :
  exists s1 s2,
    insert Example.gps_five 7 [1; 1]%Q = (Done, s1) /\
    updateNeighbor s1 = Some (Done, s2) /\
    map get_id (pool_ s2) = [1; 3; 2; 0; 4]%N /\
    map get_id (outlier_ s2) = [4]%N.
Proof. do 2 eexists. repeat split. Qed.

(** C2, the counterexample: capacity 1, two points after the pass. *)
Lemma updateNeighbor_exceeds_capacity :
  initNeighbor (Example.gps 1) Example.two = Some (Done, Example.gps_two) /\
  updateNeighbor Example.gps_two = Some (Done, Example.gps_two) /\
  ~ (length (pool_ Example.gps_two) <= M_ Example.gps_two)%nat.
Proof. split; [reflexivity|]. split; [reflexivity|]. cbn. lia. Qed.

(** The id is present, the vector has three entries, and [insert]
    throws. *)
Lemma insert_duplicate_id_wrong_length_throws :
  In 7%N (map get_id (outlier_ Example.gps_inserted)) /\
  insert Example.gps_inserted 7 [1; 1; 1]%Q = (Thrown invalid_argument, Example.gps_inserted).
Proof. split; [left; reflexivity | reflexivity]. Qed.

Lemma insert_duplicate_id_witness :
  insert Example.gps_inserted 7 [2; 2]%Q = (Done, Example.gps_inserted) /\
  insert (Example.gps 10) 7 [1; 1]%Q = (Done, Example.gps_inserted) /\
  insert Example.gps_inserted 7 [2; 2]%Q = (Done, Example.gps_inserted) /\
  (length (pool_ Example.gps_inserted) + length (outlier_ Example.gps_inserted)
   = length (pool_ (snd (insert Example.gps_inserted 7 [2; 2]%Q)))
     + length (outlier_ (snd (insert Example.gps_inserted 7 [2; 2]%Q))))%nat.
Proof.
  assert (Hfirst : insert (Example.gps 10) 7 [1; 1]%Q = (Done, Example.gps_inserted))
    by reflexivity.
  split.
  - apply (insert_duplicate_id Example.gps_inserted 7 [2; 2]%Q); [reflexivity|].
    right. left. reflexivity.
  - split; [exact Hfirst|].
    apply (proj2 (insert_duplicate_id (Example.gps 10) 7 [2; 2]%Q eq_refl)
             [1; 1]%Q Example.gps_inserted Hfirst).
Defined.

(** An unflagged point ahead of the flagged one: the flagged point lands
    at position 1 and [nk] is 2. *)
Lemma queue_updateNeighbor_reports_twice_the_position_witness :
  (length (q_pool_ Example.queue) < q_M_ Example.queue)%nat /\
  dims_ok (q_num_dimensions_ Example.queue) (q_pool_ Example.queue) /\
  existsb get_flag (q_pool_ Example.queue) = true /\
  exists q' nk' pos,
    queue_updateNeighbor Example.queue (-1) = Some (Done, (q', nk')) /\
    length (q_pool_ q') = length (q_pool_ Example.queue) /\
    first_flagged (q_pool_ q') = Some pos /\
    nk' = (2 * Z.of_nat pos)%Z.
Proof.
  assert (Hcap : (length (q_pool_ Example.queue) < q_M_ Example.queue)%nat)
    by (cbn; lia).
  assert (Hdim : dims_ok (q_num_dimensions_ Example.queue) (q_pool_ Example.queue))
    by right_dimension.
  split; [exact Hcap|]. split; [exact Hdim|]. split; [reflexivity|].
  exact (queue_updateNeighbor_reports_twice_the_position
           Example.queue (-1) Hcap Hdim eq_refl).
Defined.

Lemma queue_updateNeighbor_example :
  exists q',
    queue_updateNeighbor Example.queue (-1) = Some (Done, (q', 2%Z)) /\
    map get_id (q_pool_ q') = [1; 2]%N /\
    first_flagged (q_pool_ q') = Some 1%nat.
Proof. eexists. repeat split. Qed.

Lemma setPruned_isPruned_roundtrip_witness :
  Weighted.bitmap_sized Example.weighted /\
  (3 < Weighted.num_weight_combinations_ Example.weighted)%N /\
  exists p',
    Weighted.setPruned Example.weighted 3 true = (Done, p') /\
    Weighted.isPruned p' 3 = Normal true /\
    (forall j, (j < Weighted.num_weight_combinations_ Example.weighted)%N -> j <> 3%N ->
       Weighted.isPruned p' j = Weighted.isPruned Example.weighted j) /\
    Weighted.bitmap_sized p' /\
    Weighted.num_weight_combinations_ p' =
      Weighted.num_weight_combinations_ Example.weighted /\
    Weighted.id_ p' = Weighted.id_ Example.weighted /\
    Weighted.distances_ p' = Weighted.distances_ Example.weighted /\
    Weighted.flag p' = Weighted.flag Example.weighted /\
    Weighted.layer_ p' = Weighted.layer_ Example.weighted.
Proof.
  assert (Hsz : Weighted.bitmap_sized Example.weighted) by reflexivity.
  assert (Hi : (3 < Weighted.num_weight_combinations_ Example.weighted)%N)
    by reflexivity.
  split; [exact Hsz|]. split; [exact Hi|].
  exact (setPruned_isPruned_roundtrip Example.weighted 3 true Hsz Hi).
Defined.

(** Setting and then clearing a bit of a fresh point. *)
Lemma setPruned_then_clear :
  exists p1,
    Weighted.setPruned Example.weighted 3 true = (Done, p1) /\
    Weighted.isPruned p1 3 = Normal true /\
    Weighted.isPruned p1 4 = Normal false /\
    Weighted.setPruned p1 3 false = (Done, Example.weighted).
Proof. eexists. repeat split. Qed.

(** Where the constructor's word count wraps, the bitmap is empty and
    [setPruned] indexes out of bounds. *)
Lemma setPruned_after_wrap :
  Weighted.pruning_bitmap_ (Weighted.make 1 [10; 20]%Q SIZE_MAX true 0) = [] /\
  fst (Weighted.setPruned (Weighted.make 1 [10; 20]%Q SIZE_MAX true 0) 0 true)
    = Undefined.
Proof. split; reflexivity. Qed.

Lemma generateWeightCombinations_cardinality_witness :
  (1 <= 3 <= 8)%nat /\
  exists combos,
    generateWeightCombinations 3 = Some combos /\
    length combos = binomial (10 + 3 - 1) (3 - 1) /\
    pairwise_distinct combos /\
    Forall2 (Forall2 is_tenth) combos (compositions 3 10).
Proof.
  split; [lia|].
  apply (proj1 (proj2 (proj2 generateWeightCombinations_cardinality)) 3%nat). lia.
Defined.

(** The eleven combinations for two dimensions, by evaluation. *)
Lemma generateWeightCombinations_two :
  option_map (@length _) (generateWeightCombinations 2) = Some 11%nat /\
  option_map (@length _) (generateWeightCombinations 3) = Some 66%nat /\
  option_map (@length _) (generateWeightCombinations 4) = Some 286%nat.
Proof. repeat split; vm_compute; reflexivity. Qed.

(** The literals of the source as binary32 data: 0.1f is 0x3DCCCCCD,
    0.001f is 0x3A83126F, 1.001f is 0x3F8020C5. *)
Lemma literal_bits :
  WEIGHT_STEP = S754_finite false 13421773 (-27) /\
  f_0_001 = S754_finite false 8589935 (-33) /\
  f_1_001 = S754_finite false 8396997 (-23) /\
  f_1 = S754_finite false 8388608 (-23) /\
  f_10 = S754_finite false 10485760 (-20).
Proof. repeat split. Qed.

(** [std::round] on 2.5f, 0.4f * 10 and a small negative number. *)
Lemma round_examples :
  Float32.round (Float32.literal 5 2) = Float32.of_Z 3 /\
  Float32.round (Float32.mul (Float32.literal 4 10) f_10) = Float32.of_Z 4 /\
  Float32.round (Float32.neg f_0_001) = S754_zero true.
Proof. repeat split. Qed.

(** * Further properties of the code *)

(** ** Skyline extraction *)

Lemma filter_partition_perm {A : Type} (f : A -> bool) (l : list A) :
  Permutation (filter f l ++ filter (fun x => negb (f x)) l) l.
Proof.
  induction l as [|a l IH]; [constructor|]. cbn [filter].
  destruct (f a); cbn [negb app].
  - constructor. exact IH.
  - rewrite <- Permutation_middle. constructor. exact IH.
Qed.

(** X1.  The verdict of the dominance loop of [findSkyline] is a strict
    partial order on distance vectors: no vector dominates itself, two
    vectors never dominate each other, and dominance is transitive. *)
Theorem dominance_verdict_strict_order (d : nat) (a b c : list distance) :
  dominatesb d a a = false /\
  (dominatesb d a b = true -> dominatesb d b a = false) /\
  (dominatesb d a b = true -> dominatesb d b c = true -> dominatesb d a c = true).
Proof.
  split; [|split].
  - apply dominatesb_false_iff, Dominates_irrefl.
  - intros Hab. apply dominatesb_false_iff. intros Hba.
    apply dominatesb_iff in Hab.
    exact (Dominates_irrefl d a (Dominates_trans d a b a Hab Hba)).
  - intros Hab Hbc. apply dominatesb_iff. apply dominatesb_iff in Hab, Hbc.
    eapply Dominates_trans; eassumption.
Qed.

Section MoreSkylineFacts.
Context {P : Type} {NL : NeighborLike P}.

(** What a normal return of [findSkyline] has appended. *)
Lemma findSkyline_normal d (points skyline remain skyline' remain' : list P) :
  findSkyline d points skyline remain = (Done, (skyline', remain')) ->
  skyline' = skyline ++ filter (fun p => is_skyline_scan d p points) points /\
  remain' = remain ++ filter (fun p => negb (is_skyline_scan d p points)) points.
Proof.
  intros Hrun.
  destruct (Forall_Exists_dec (fun p => length (get_distances p) = d)
              (fun p => Nat.eq_dec (length (get_distances p)) d) points) as [Hall | Hex].
  - rewrite (findSkyline_valid d points skyline remain Hall) in Hrun.
    split; congruence.
  - rewrite (findSkyline_invalid d points skyline remain Hex) in Hrun. discriminate.
Qed.

(** Every point that leaves the frontier is dominated by one that stays. *)
Lemma remainder_covered d (points : list P) r :
  In r (filter (fun p => negb (is_skyline_scan d p points)) points) ->
  exists f, In f (filter (fun p => is_skyline_scan d p points) points) /\
            Dominates d (get_distances f) (get_distances r).
Proof.
  intros Hr. apply filter_In in Hr. destruct Hr as [Hr Hns].
  destruct (minimal_exists d points r Hr) as [f [Hf [Hmin Hfr]]].
  assert (Hsky : is_skyline_scan d f points = true)
    by (apply is_skyline_scan_iff; intros o Ho _; apply Hmin, Ho).
  destruct Hfr as [-> | Hfr].
  - rewrite Hsky in Hns. discriminate.
  - exists f. split; [apply filter_In; split; assumption | exact Hfr].
Qed.

(** X2.  When [findSkyline] returns normally on points with pairwise
    distinct ids, no point it has put on the frontier dominates another
    point of that frontier. *)
Theorem findSkyline_frontier_antichain d (points frontier remainder : list P) :
  NoDup (map get_id points) ->
  findSkyline d points [] [] = (Done, (frontier, remainder)) ->
  forall p q, In p frontier -> In q frontier ->
    ~ Dominates d (get_distances q) (get_distances p).
Proof.
  intros Hnd Hrun p q Hp Hq.
  destruct (findSkyline_normal d points [] [] frontier remainder Hrun) as [-> _].
  cbn [app] in Hp, Hq. apply filter_In in Hp, Hq.
  destruct Hp as [Hp Hsky], Hq as [Hq _].
  destruct (N.eq_dec (get_id q) (get_id p)) as [Heq | Hne].
  - rewrite (NoDup_map_injective_on get_id points Hnd q p Hq Hp Heq).
    apply Dominates_irrefl.
  - rewrite is_skyline_scan_iff in Hsky. apply Hsky; assumption.
Qed.

(** X3.  A normal return of [findSkyline] splits the input between its two
    outputs: what it appends to [skyline] and to [remain_points] are two
    subsequences of the input, in input order, that together hold every
    input point exactly once; what the outputs held before stays in front. *)
Theorem findSkyline_splits_input d (points skyline remain skyline' remain' : list P) :
  findSkyline d points skyline remain = (Done, (skyline', remain')) ->
  exists keep : P -> bool,
    skyline' = skyline ++ filter keep points /\
    remain' = remain ++ filter (fun p => negb (keep p)) points /\
    Permutation (filter keep points ++ filter (fun p => negb (keep p)) points) points /\
    (length skyline' + length remain'
     = length skyline + length remain + length points)%nat.
Proof.
  intros Hrun.
  destruct (findSkyline_normal d points skyline remain skyline' remain' Hrun)
    as [-> ->].
  exists (fun p => is_skyline_scan d p points).
  split; [reflexivity|]. split; [reflexivity|].
  split; [apply filter_partition_perm|].
  rewrite !length_app.
  pose proof (filter_length (fun p => is_skyline_scan d p points) points). lia.
Qed.

(** X4.  Two input points with the same distance vector share their fate
    when the ids are pairwise distinct: [findSkyline] puts both on the
    frontier or both into the remainder. *)
Theorem findSkyline_ties_together d (points frontier remainder : list P) p q :
  NoDup (map get_id points) ->
  findSkyline d points [] [] = (Done, (frontier, remainder)) ->
  In p points -> In q points ->
  get_distances p = get_distances q ->
  (In p frontier <-> In q frontier).
Proof.
  intros Hnd Hrun Hp Hq Heq.
  destruct (findSkyline_normal d points [] [] frontier remainder Hrun) as [-> _].
  cbn [app]. rewrite !filter_In, !is_skyline_scan_iff.
  assert (Hside : forall a b : P, In a points -> In b points ->
            get_distances a = get_distances b ->
            (forall o, In o points -> get_id o <> get_id a ->
                       ~ Dominates d (get_distances o) (get_distances a)) ->
            forall o, In o points -> get_id o <> get_id b ->
                      ~ Dominates d (get_distances o) (get_distances b)).
  { intros a b Ha Hb Hab H o Ho _. rewrite <- Hab.
    destruct (N.eq_dec (get_id o) (get_id a)) as [Hid | Hid].
    - rewrite (NoDup_map_injective_on get_id points Hnd o a Ho Ha Hid).
      apply Dominates_irrefl.
    - apply H; assumption. }
  split; intros [_ H]; (split; [assumption|]).
  - exact (Hside p q Hp Hq Heq H).
  - exact (Hside q p Hq Hp (eq_sym Heq) H).
Qed.
End MoreSkylineFacts.

(** ** The comparison operators of the point types *)

Lemma vector_less_cons_true x a y b :
  vector_less (x :: a) (y :: b) = true <->
  (x < y)%Q \/ ((x == y)%Q /\ vector_less a b = true).
Proof.
  cbn [vector_less]. unfold dist_ne. destruct (Qeq_bool x y) eqn:E; cbn [negb].
  - apply Qeq_bool_iff in E. split; [intros H; right; split; assumption|].
    intros [H | [_ H]]; [lra | exact H].
  - apply Qeq_bool_neq in E. rewrite dist_lt_iff. split; [intros H; left; exact H|].
    intros [H | [H _]]; [exact H | contradiction].
Qed.

Lemma vector_less_cons_false x a y b :
  vector_less (x :: a) (y :: b) = false <->
  (y < x)%Q \/ ((x == y)%Q /\ vector_less a b = false).
Proof.
  cbn [vector_less]. unfold dist_ne. destruct (Qeq_bool x y) eqn:E; cbn [negb].
  - apply Qeq_bool_iff in E. split; [intros H; right; split; assumption|].
    intros [H | [_ H]]; [lra | exact H].
  - apply Qeq_bool_neq in E. rewrite dist_lt_false_iff. split.
    + intros H. left. destruct (Q_dec x y) as [[Hlt | Hgt] | Heq];
        [lra | exact Hgt | contradiction].
    + intros [H | [H _]]; [lra | contradiction].
Qed.

Lemma vector_less_irrefl a : vector_less a a = false.
Proof.
  induction a as [|x a IH]; [reflexivity|].
  apply vector_less_cons_false. right. split; [reflexivity | exact IH].
Qed.

Lemma vector_less_asym : forall a b,
  vector_less a b = true -> vector_less b a = false.
Proof.
  induction a as [|x a IH]; intros [|y b] H; try reflexivity; try discriminate.
  apply vector_less_cons_true in H. apply vector_less_cons_false.
  destruct H as [H | [Heq H]]; [left; exact H|].
  right. split; [symmetry; exact Heq | apply IH; exact H].
Qed.

Lemma vector_less_trans : forall a b c,
  vector_less a b = true -> vector_less b c = true -> vector_less a c = true.
Proof.
  induction a as [|x a IH]; intros [|y b] [|z c] Hab Hbc;
    try reflexivity; try discriminate.
  apply vector_less_cons_true in Hab, Hbc. apply vector_less_cons_true.
  destruct Hab as [Hab | [Exy Hab]], Hbc as [Hbc | [Eyz Hbc]];
    try (left; lra).
  right. split; [lra | eapply IH; eassumption].
Qed.

Lemma vector_less_negtrans : forall a b c,
  vector_less a b = false -> vector_less b c = false -> vector_less a c = false.
Proof.
  induction a as [|x a IH]; intros [|y b] [|z c] Hab Hbc;
    try reflexivity; try discriminate.
  apply vector_less_cons_false in Hab, Hbc. apply vector_less_cons_false.
  destruct Hab as [Hab | [Exy Hab]], Hbc as [Hbc | [Eyz Hbc]];
    try (left; lra).
  right. split; [lra | eapply IH; eassumption].
Qed.

Lemma distances_equal_iff : forall a b,
  length a = length b ->
  (distances_equal a b = true <-> Forall2 Qeq a b).
Proof.
  induction a as [|x a IH]; intros [|y b] Hlen; try discriminate Hlen.
  - split; [constructor | reflexivity].
  - cbn [distances_equal]. unfold dist_ne.
    injection Hlen as Hlen. specialize (IH b Hlen).
    destruct (Qeq_bool x y) eqn:E; cbn [negb].
    + apply Qeq_bool_iff in E. rewrite IH. split.
      * intros H. constructor; assumption.
      * intros H. inversion H; subst. assumption.
    + apply Qeq_bool_neq in E. split; [discriminate|].
      intros H. inversion H; subst. contradiction.
Qed.

Lemma vector_less_equal_vectors : forall a b,
  Forall2 Qeq a b -> vector_less a b = false.
Proof.
  intros a b H. induction H as [|x y a b Hxy H IH]; [reflexivity|].
  apply vector_less_cons_false. right. split; assumption.
Qed.

Section OperatorFacts.
Context {P : Type} {NL : NeighborLike P}.

Lemma neighbor_equal_iff (a b : P) :
  neighbor_equal a b = true <->
  get_id a = get_id b /\ Forall2 Qeq (get_distances a) (get_distances b).
Proof.
  unfold neighbor_equal.
  destruct (N.eqb_spec (get_id a) (get_id b)) as [Hid | Hid]; cbn [negb].
  - destruct (Nat.eqb_spec (length (get_distances a)) (length (get_distances b)))
      as [Hlen | Hlen]; cbn [negb].
    + rewrite (distances_equal_iff _ _ Hlen). tauto.
    + split; [discriminate|]. intros [_ H]. apply Forall2_length in H. contradiction.
  - split; [discriminate | tauto].
Qed.

(** X5.  [operator<] of the point types is a strict weak ordering, which is
    what [std::sort] requires of it: it is irreflexive, asymmetric and
    transitive, and "not less" is transitive as well. *)
Theorem operator_less_strict_weak_order (a b c : P) :
  neighbor_less a a = false /\
  (neighbor_less a b = true -> neighbor_less b a = false) /\
  (neighbor_less a b = true -> neighbor_less b c = true -> neighbor_less a c = true) /\
  (neighbor_less a b = false -> neighbor_less b c = false -> neighbor_less a c = false).
Proof.
  unfold neighbor_less. split; [apply vector_less_irrefl|].
  split; [apply vector_less_asym|].
  split; [apply vector_less_trans | apply vector_less_negtrans].
Qed.

(** X6.  [operator==] of the point types is an equivalence relation that
    looks at the id and the distances only (never at [flag] or [layer_]),
    and two equal points are never ordered by [operator<] or [operator>]. *)
Theorem operator_equal_equivalence (a b c : P) :
  neighbor_equal a a = true /\
  (neighbor_equal a b = true -> neighbor_equal b a = true) /\
  (neighbor_equal a b = true -> neighbor_equal b c = true -> neighbor_equal a c = true) /\
  (get_id a = get_id b -> get_distances a = get_distances b ->
   neighbor_equal a b = true) /\
  (neighbor_equal a b = true ->
   neighbor_less a b = false /\ neighbor_greater a b = false /\
   neighbor_not_equal a b = false).
Proof.
  assert (Hrefl : forall v : list distance, Forall2 Qeq v v).
  { induction v; constructor; [reflexivity | assumption]. }
  assert (Hsym : forall u v : list distance, Forall2 Qeq u v -> Forall2 Qeq v u).
  { intros u v H. induction H; constructor; [symmetry|]; assumption. }
  split; [apply neighbor_equal_iff; split; [reflexivity | apply Hrefl]|].
  split; [|split; [|split]].
  - rewrite !neighbor_equal_iff. intros [Hid H]. split; [congruence | apply Hsym, H].
  - rewrite !neighbor_equal_iff. intros [Hid1 H1] [Hid2 H2]. split; [congruence|].
    clear -H1 H2. revert H2. generalize (get_distances c).
    induction H1 as [|x y u v Hxy H1 IH]; intros w H2; inversion H2; subst;
      constructor; [lra | apply IH; assumption].
  - intros Hid Hd. apply neighbor_equal_iff. split; [exact Hid|].
    rewrite Hd. apply Hrefl.
  - intros H. unfold neighbor_not_equal. rewrite H.
    apply neighbor_equal_iff in H. destruct H as [_ H].
    unfold neighbor_greater, neighbor_less.
    split; [apply vector_less_equal_vectors, H|].
    split; [apply vector_less_equal_vectors, Hsym, H | reflexivity].
Qed.

Lemma sort_insert_ordered (x : P) (l : list P) :
  ForallOrdPairs not_after l -> ForallOrdPairs not_after (sort_insert x l).
Proof.
  intros H. induction H as [|y l Hy H IH]; cbn [sort_insert].
  - constructor; constructor.
  - destruct (vector_less (get_distances y) (get_distances x)) eqn:Hyx.
    + constructor; [|exact IH].
      apply Forall_forall. intros z Hz.
      apply (Permutation_in _ (sort_insert_perm x l)) in Hz.
      destruct Hz as [<- | Hz].
      * apply vector_less_asym. exact Hyx.
      * rewrite Forall_forall in Hy. apply Hy, Hz.
    + constructor; [|constructor; assumption].
      constructor; [exact Hyx|].
      apply Forall_forall. intros z Hz. rewrite Forall_forall in Hy.
      unfold not_after, neighbor_less.
      eapply vector_less_negtrans; [apply (Hy z Hz) | exact Hyx].
Qed.

Lemma sort_ordered (l : list P) : ForallOrdPairs not_after (sort l).
Proof.
  induction l as [|x l IH]; [constructor|].
  apply sort_insert_ordered. exact IH.
Qed.

(** X7.  On points of the right dimension [initNeighbor] returns normally
    and leaves the whole pool, old entries included, in ascending order of
    [operator<]: no entry is less than an entry before it. *)
Theorem initNeighbor_pool_sorted (s : LayeredPool) (points : list P) :
  dims_ok (num_dimensions_ s) points ->
  exists s',
    initNeighbor s points = Some (Done, s') /\
    ForallOrdPairs not_after (pool_ s').
Proof.
  intros Hdim. eexists. split; [apply initNeighbor_run; exact Hdim|].
  cbn zeta. cbn [with_pools pool_]. apply sort_ordered.
Qed.
End OperatorFacts.

(** ** initNeighbor, once more *)

Lemma nonempty_layers_count {A : Type} (layers : list (list A)) :
  (forall layer, In layer layers -> layer <> []) ->
  (length layers <= length (concat layers))%nat.
Proof.
  induction layers as [|L layers IH]; intros Hne; [apply le_n|].
  cbn [concat length]. rewrite length_app.
  assert (L <> []) by (apply Hne; left; reflexivity).
  assert (length layers <= length (concat layers))%nat
    by (apply IH; intros l Hl; apply Hne; right; exact Hl).
  destruct L; [congruence | cbn [length]; lia].
Qed.

Section MoreInitFacts.
Context {P : Type} {NL : NeighborLike P}.

Lemma peel_concat_perm d : forall k (points : list P),
  (length points <= k)%nat -> Permutation (concat (peel k d points)) points.
Proof.
  induction k as [|k IH]; intros points Hlen.
  - destruct points; [constructor | simpl in Hlen; lia].
  - destruct points as [|p rest]; [constructor|].
    rewrite peel_step. cbn [concat].
    assert (Hshort := remainder_shorter d (p :: rest) ltac:(discriminate)).
    rewrite IH by (cbn [length] in *; lia).
    apply filter_partition_perm.
Qed.

Lemma layered_keys l0 (layers : list (list P)) :
  map point_key (layered l0 layers) = map point_key (concat layers).
Proof.
  revert l0. induction layers as [|L rest IH]; intros l0; [reflexivity|].
  cbn [layered concat]. rewrite !map_app, IH. f_equal.
  unfold emplace_fresh. rewrite map_map. apply map_ext.
  intros p. unfold point_key. rewrite construct_id, construct_distances. reflexivity.
Qed.

Lemma peel_chain d : forall k (points : list P) n upper lower r,
  nth_error (peel k d points) n = Some upper ->
  nth_error (peel k d points) (S n) = Some lower ->
  In r lower ->
  exists f, In f upper /\ Dominates d (get_distances f) (get_distances r).
Proof.
  induction k as [|k IH]; intros points n upper lower r Hn Hm Hr.
  - destruct n; discriminate.
  - destruct points as [|p0 rest]; [destruct n; discriminate|].
    rewrite peel_step in Hn, Hm. cbn [nth_error] in Hm.
    destruct n as [|n].
    + cbn [nth_error] in Hn.
      assert (HF : filter (fun x => is_skyline_scan d x (p0 :: rest)) (p0 :: rest) = upper)
        by congruence.
      rewrite <- HF. apply remainder_covered.
      eapply peel_In; [eapply nth_error_In; exact Hm | exact Hr].
    + cbn [nth_error] in Hn. eapply IH; eassumption.
Qed.

(** X8.  On points of the right dimension [initNeighbor] returns normally
    and the pool then holds its old entries and exactly one entry per input
    point, with the point's id and distances and with [flag] set: the pool
    grows by the number of input points. *)
Theorem initNeighbor_keeps_every_point (s : LayeredPool) (points : list P) :
  dims_ok (num_dimensions_ s) points ->
  exists s',
    initNeighbor s points = Some (Done, s') /\
    Permutation (map point_key (pool_ s')) (map point_key (pool_ s ++ points)) /\
    getPoolSize s' = (getPoolSize s + length points)%nat /\
    (forall e, In e (pool_ s') -> In e (pool_ s) \/ get_flag e = true).
Proof.
  intros Hdim. eexists. split; [apply initNeighbor_run; exact Hdim|].
  cbn zeta. unfold getPoolSize. cbn [with_pools init_result pool_].
  set (layers := peel (length points) (num_dimensions_ s) points).
  assert (Hperm : Permutation (map point_key (sort (pool_ s ++ layered 0 layers)))
                              (map point_key (pool_ s ++ points))).
  { rewrite (Permutation_map point_key (sort_perm _)).
    rewrite !map_app, layered_keys. apply Permutation_app_head, Permutation_map.
    apply peel_concat_perm, le_n. }
  split; [exact Hperm|]. split.
  - apply Permutation_length in Hperm. rewrite !length_map, length_app in Hperm.
    exact Hperm.
  - intros e He. apply sort_In, in_app_or in He.
    destruct He as [He | He]; [left; exact He | right].
    apply layered_In in He. destruct He as [n [L [p [_ [_ ->]]]]].
    apply construct_flag.
Qed.

(** X9.  After [initNeighbor] from an empty pool every pool entry above
    layer 0 is dominated by some pool entry exactly one layer below it. *)
Theorem initNeighbor_layer_chain (s : LayeredPool) (points : list P) :
  pool_ s = [] ->
  dims_ok (num_dimensions_ s) points ->
  exists s',
    initNeighbor s points = Some (Done, s') /\
    forall e, In e (pool_ s') -> (1 <= get_layer e)%Z ->
      exists e', In e' (pool_ s') /\ get_layer e' = (get_layer e - 1)%Z /\
                 Dominates (num_dimensions_ s) (get_distances e') (get_distances e).
Proof.
  intros Hempty Hdim. eexists. split; [apply initNeighbor_run; exact Hdim|].
  cbn zeta. cbn [with_pools init_result pool_]. rewrite Hempty. cbn [app].
  set (layers := peel (length points) (num_dimensions_ s) points).
  intros e He Hlayer. apply sort_In, layered_In in He.
  destruct He as [n [lower [r [Hn [Hr ->]]]]].
  rewrite construct_layer in Hlayer. destruct n as [|n]; [lia|].
  destruct (nth_error layers n) as [upper|] eqn:Hup.
  2:{ apply nth_error_None in Hup.
      assert (S n < length layers)%nat by (apply nth_error_Some; congruence). lia. }
  destruct (peel_chain _ _ _ n upper lower r Hup Hn Hr) as [f [Hf Hdom]].
  exists (construct (get_id f) (get_distances f) true (0 + Z.of_nat n)).
  split; [apply sort_In, layered_In; exists n, upper, f; auto|].
  rewrite !construct_layer, !construct_distances. split; [lia | exact Hdom].
Qed.

(** X10.  After [initNeighbor] from an empty pool the layer numbers in use
    are exactly 0, ..., [num_layer_ - 1]: every entry has one of them and
    each of them has an entry; there are at most as many layers as input
    points, and at least one when there is a point. *)
Theorem initNeighbor_layer_numbers (s : LayeredPool) (points : list P) :
  pool_ s = [] ->
  dims_ok (num_dimensions_ s) points ->
  exists s',
    initNeighbor s points = Some (Done, s') /\
    (0 <= getNumLayer s' <= Z.of_nat (length points))%Z /\
    (points <> [] -> 1 <= getNumLayer s')%Z /\
    (forall e, In e (pool_ s') -> 0 <= get_layer e < getNumLayer s')%Z /\
    (forall L, (0 <= L < getNumLayer s')%Z ->
       exists e, In e (pool_ s') /\ get_layer e = L).
Proof.
  intros Hempty Hdim. eexists. split; [apply initNeighbor_run; exact Hdim|].
  cbn zeta. unfold getNumLayer. cbn [with_pools init_result pool_ num_layer_].
  rewrite Hempty. cbn [app].
  set (layers := peel (length points) (num_dimensions_ s) points).
  assert (Hne : forall layer, In layer layers -> layer <> [])
    by (intros layer; apply peel_layers_nonempty).
  assert (Hcount : (length layers <= length points)%nat).
  { rewrite (nonempty_layers_count layers Hne).
    apply Nat.eq_le_incl, Permutation_length, peel_concat_perm, le_n. }
  split; [lia|]. split; [|split].
  - intros Hpts. subst layers. destruct points as [|p rest]; [congruence|].
    change (length (p :: rest)) with (S (length rest)). rewrite peel_step.
    cbn [length]. lia.
  - intros e He. apply sort_In, layered_In in He.
    destruct He as [n [L [p [Hn [_ ->]]]]]. rewrite construct_layer.
    assert (n < length layers)%nat by (apply nth_error_Some; congruence). lia.
  - intros L HL.
    destruct (nth_error layers (Z.to_nat L)) as [layer|] eqn:Hn.
    2:{ apply nth_error_None in Hn. lia. }
    assert (Hlayer := Hne layer (nth_error_In _ _ Hn)).
    destruct layer as [|p layer]; [congruence|].
    exists (construct (get_id p) (get_distances p) true (0 + Z.of_nat (Z.to_nat L))).
    split; [|rewrite construct_layer; lia].
    apply sort_In, layered_In. exists (Z.to_nat L), (p :: layer), p.
    split; [exact Hn|]. split; [left; reflexivity | reflexivity].
Qed.

(** X11.  [initNeighbor] is all or nothing: when a point has the wrong
    number of distances it throws [std::invalid_argument] and leaves the
    pool, the outlier vector and the layer count as they were. *)
Theorem initNeighbor_rejects_wrong_dimension (s : LayeredPool) (points : list P) :
  Exists (fun p => length (get_distances p) <> num_dimensions_ s) points ->
  initNeighbor s points = Some (Thrown invalid_argument, s).
Proof.
  intros Hbad. unfold initNeighbor.
  destruct points as [|p rest]; [inversion Hbad|].
  cbn [initNeighbor_loop length].
  rewrite (findSkyline_invalid _ _ [] [] Hbad). reflexivity.
Qed.

(** X12.  The copy constructor of [MultiVectorGPS] copies no point: a copy
    of a pool that [initNeighbor] has filled reports the layer count of
    the original, at least 1, and a pool size of 0. *)
Theorem copy_has_layers_but_no_points (s : LayeredPool) (points : list P) :
  points <> [] ->
  dims_ok (num_dimensions_ s) points ->
  exists s',
    initNeighbor s points = Some (Done, s') /\
    (0 < getPoolSize s')%nat /\
    getPoolSize (copy_pool s') = 0%nat /\
    outlier_ (copy_pool s') = [] /\
    getNumLayer (copy_pool s') = getNumLayer s' /\
    (1 <= getNumLayer (copy_pool s'))%Z.
Proof.
  intros Hne Hdim. eexists. split; [apply initNeighbor_run; exact Hdim|].
  cbn zeta. unfold getPoolSize, getNumLayer, copy_pool.
  cbn [with_pools init_result pool_ outlier_ num_layer_ length].
  split; [|split; [reflexivity|split; [reflexivity|split; [reflexivity|]]]].
  - rewrite sort_length, length_app.
    destruct points as [|p rest]; [congruence|].
    change (length (p :: rest)) with (S (length rest)). rewrite peel_step.
    cbn [layered]. rewrite length_app.
    assert (Hsky := skyline_nonempty (num_dimensions_ s) (p :: rest) ltac:(discriminate)).
    unfold emplace_fresh. rewrite length_map.
    destruct (filter _ (p :: rest)); [congruence | cbn [length]; lia].
  - destruct points as [|p rest]; [congruence|].
    change (length (p :: rest)) with (S (length rest)). rewrite peel_step.
    cbn [length]. lia.
Qed.
End MoreInitFacts.

(** ** updateNeighbor, once more *)

Section MoreUpdateFacts.
Context {P : Type} {NL : NeighborLike P}.

(** On candidates of the right dimension the loop of [updateNeighbor] takes
    whole layers of the peeling while the pool is below capacity. *)
Lemma updateNeighbor_loop_run : forall fuel (s : LayeredPool) candidate l,
  dims_ok (num_dimensions_ s) candidate ->
  (length candidate < fuel)%nat ->
  updateNeighbor_loop fuel s candidate l =
  Some (Done, update_result s l
                (taken_layers (M_ s) (length (pool_ s))
                   (peel (length candidate) (num_dimensions_ s) candidate))).
Proof.
  induction fuel as [|fuel IH]; intros s candidate l Hdim Hlen; [lia|].
  cbn [updateNeighbor_loop]. destruct candidate as [|p rest].
  - cbn [length Nat.ltb Nat.leb]. rewrite andb_false_r.
    unfold update_result, with_num_layer. cbn.
    rewrite app_nil_r, Z.add_0_r. reflexivity.
  - change (0 <? length (p :: rest)) with true. rewrite andb_true_r.
    change (length (p :: rest)) with (S (length rest)). rewrite peel_step.
    cbn [taken_layers].
    destruct (length (pool_ s) <? M_ s) eqn:Hcap.
    + rewrite (findSkyline_valid _ _ [] [] Hdim). cbn [app].
      set (F := filter (fun x => is_skyline_scan (num_dimensions_ s) x (p :: rest))
                       (p :: rest)).
      set (R := filter (fun x => negb (is_skyline_scan (num_dimensions_ s) x (p :: rest)))
                       (p :: rest)).
      assert (Hshort : (length R < length (p :: rest))%nat)
        by (apply remainder_shorter; discriminate).
      cbn [length] in Hshort, Hlen.
      rewrite IH; [| apply Forall_filter; exact Hdim | lia].
      cbn [with_pools pool_ M_ num_dimensions_].
      rewrite (peel_fuel_any _ (length rest) (length R)) by lia.
      assert (Hsize : length (pool_ s ++ emplace_kept l F)
                      = (length (pool_ s) + length F)%nat)
        by (unfold emplace_kept; rewrite length_app, length_map; reflexivity).
      rewrite Hsize. unfold update_result.
      cbn [with_pools pool_ outlier_ M_ Q_ num_layer_ num_dimensions_ layered_kept].
      rewrite last_cons_default, <- app_assoc.
      do 3 f_equal. cbn [length]. lia.
    + unfold update_result, with_num_layer. cbn.
      rewrite app_nil_r, Z.add_0_r. reflexivity.
Qed.

Lemma updateNeighbor_run (s : LayeredPool) :
  dims_ok (num_dimensions_ s) (pool_ s) ->
  updateNeighbor s =
  Some (Done, update_result (with_pools s [] (outlier_ s)) 0
                (taken_layers (M_ s) 0
                   (peel (length (pool_ s)) (num_dimensions_ s) (sort (pool_ s))))).
Proof.
  intros Hdim. unfold updateNeighbor.
  rewrite updateNeighbor_loop_run.
  - cbn [with_pools pool_ M_ num_dimensions_ length]. rewrite sort_length. reflexivity.
  - cbn [with_pools num_dimensions_]. unfold dims_ok in *.
    rewrite Forall_forall in *. intros x Hx. apply Hdim, sort_In, Hx.
  - lia.
Qed.

Lemma taken_layers_prefix M : forall (layers : list (list P)) size,
  exists rest, layers = taken_layers M size layers ++ rest.
Proof.
  induction layers as [|L layers IH]; intros size; [exists []; reflexivity|].
  cbn [taken_layers]. destruct (size <? M).
  - destruct (IH (size + length L)%nat) as [rest Hrest].
    exists rest. cbn [app]. f_equal. exact Hrest.
  - exists (L :: layers). reflexivity.
Qed.

Lemma taken_layers_floor M : forall (layers : list (list P)) size,
  (M <= size + length (concat (taken_layers M size layers)))%nat \/
  taken_layers M size layers = layers.
Proof.
  induction layers as [|L layers IH]; intros size; [right; reflexivity|].
  cbn [taken_layers]. destruct (size <? M) eqn:Hcap.
  - destruct (IH (size + length L)%nat) as [Hfull | Hall].
    + left. cbn [concat]. rewrite length_app. lia.
    + right. f_equal. exact Hall.
  - left. apply Nat.ltb_ge in Hcap. cbn. lia.
Qed.

Lemma layered_kept_keys l0 (layers : list (list P)) :
  map point_key_flag (layered_kept l0 layers) = map point_key_flag (concat layers).
Proof.
  revert l0. induction layers as [|L rest IH]; intros l0; [reflexivity|].
  cbn [layered_kept concat]. rewrite !map_app, IH. f_equal.
  unfold emplace_kept. rewrite map_map. apply map_ext.
  intros p. unfold point_key_flag.
  rewrite construct_id, construct_distances, construct_flag. reflexivity.
Qed.

Lemma layered_kept_In l0 layers (e : P) :
  In e (layered_kept l0 layers) <->
  exists n layer p, nth_error layers n = Some layer /\ In p layer /\
    e = construct (get_id p) (get_distances p) (get_flag p) (l0 + Z.of_nat n).
Proof.
  revert l0. induction layers as [|L rest IH]; intros l0; cbn [layered_kept].
  - split; [contradiction|]. intros [n [layer [p [Hn _]]]]. destruct n; discriminate.
  - rewrite in_app_iff, IH. unfold emplace_kept. rewrite in_map_iff. split.
    + intros [[p [<- Hp]] | [n [layer [p [Hn [Hp ->]]]]]].
      * exists O, L, p. rewrite Z.add_0_r. auto.
      * exists (S n), layer, p. split; [exact Hn|]. split; [exact Hp|].
        f_equal. lia.
    + intros [n [layer [p [Hn [Hp ->]]]]]. destruct n as [|n].
      * left. cbn [nth_error] in Hn. assert (L = layer) as -> by congruence.
        exists p. rewrite Z.add_0_r. auto.
      * right. exists n, layer, p. split; [exact Hn|]. split; [exact Hp|].
        f_equal. lia.
Qed.

(** Whatever the outcome, the entries of the rebuilt pool are new
    constructions. *)
Lemma updateNeighbor_loop_entries : forall fuel (s : LayeredPool) candidate l c s',
  updateNeighbor_loop fuel s candidate l = Some (c, s') ->
  forall e, In e (pool_ s') ->
    In e (pool_ s) \/
    exists p l', e = construct (get_id p) (get_distances p) (get_flag p) l'.
Proof.
  induction fuel as [|fuel IH]; intros s candidate l c s' Hrun e He; [discriminate|].
  cbn [updateNeighbor_loop] in Hrun.
  destruct ((length (pool_ s) <? M_ s) && (0 <? length candidate)).
  - destruct (findSkyline_cases (num_dimensions_ s) candidate) as [[_ Hf] | [_ Hf]];
      rewrite Hf in Hrun.
    + destruct (IH _ _ _ _ _ Hrun e He) as [Hin | Hnew]; [|right; exact Hnew].
      cbn [with_pools pool_] in Hin. apply in_app_or in Hin.
      destruct Hin as [Hin | Hin]; [left; exact Hin | right].
      unfold emplace_kept in Hin. apply in_map_iff in Hin.
      destruct Hin as [p [<- _]]. eauto.
    + injection Hrun as _ <-. left. exact He.
  - injection Hrun as _ <-. left. exact He.
Qed.

Lemma nil_or_last {A : Type} (l : list A) :
  l = [] \/ exists front a, l = front ++ [a].
Proof.
  induction l as [|a l _] using rev_ind; [left; reflexivity|].
  right. exists l, a. reflexivity.
Qed.

Lemma taken_layers_last M : forall (layers : list (list P)) size below last_layer,
  taken_layers M size layers = below ++ [last_layer] ->
  (size + length (concat below) < M)%nat.
Proof.
  induction layers as [|L layers IH]; intros size below last_layer Htaken;
    cbn [taken_layers] in Htaken.
  - destruct below; discriminate.
  - destruct (size <? M) eqn:Hcap; [|destruct below; discriminate].
    apply Nat.ltb_lt in Hcap. destruct below as [|b below].
    + cbn. lia.
    + cbn [app] in Htaken. injection Htaken as <- Hrest.
      specialize (IH _ _ _ Hrest). cbn [concat]. rewrite length_app. lia.
Qed.

Lemma layered_kept_app (a b : list (list P)) : forall l,
  layered_kept l (a ++ b)
  = layered_kept l a ++ layered_kept (l + Z.of_nat (length a)) b.
Proof.
  induction a as [|L a IH]; intros l.
  - cbn. rewrite Z.add_0_r. reflexivity.
  - cbn [app layered_kept length]. rewrite IH, <- app_assoc.
    do 3 f_equal. lia.
Qed.

Lemma layered_kept_length l (layers : list (list P)) :
  length (layered_kept l layers) = length (concat layers).
Proof.
  rewrite <- (length_map point_key_flag), layered_kept_keys, length_map.
  reflexivity.
Qed.

(** C2 (amended).  [updateNeighbor] always returns.  When it returns
    normally the pool holds no more points than before, and either it is
    empty or it is made of the first layers of the old pool, whole: the
    layers below the last one, which together hold fewer than [M_] points,
    followed by the last layer, taken in full.  So the pool stays below
    [M_] plus the size of its last layer. *)
Theorem updateNeighbor_soft_capacity (s : LayeredPool) :
  exists r, updateNeighbor s = Some r /\
    forall s', r = (Done, s') ->
      (length (pool_ s') <= length (pool_ s))%nat /\
      (pool_ s' = [] \/
       exists below last_layer later,
         peel (length (pool_ s)) (num_dimensions_ s) (sort (pool_ s))
           = below ++ last_layer :: later /\
         pool_ s' = layered_kept 0 below
                    ++ emplace_kept (Z.of_nat (length below)) last_layer /\
         (length (layered_kept 0 below) < M_ s')%nat /\
         last_layer <> [] /\
         (length (pool_ s') < M_ s' + length last_layer)%nat /\
         num_layer_ s' = (Z.of_nat (length below) + 1)%Z /\
         (forall e, In e (emplace_kept (Z.of_nat (length below)) last_layer) ->
            get_layer e = (num_layer_ s' - 1)%Z) /\
         (forall e, In e (layered_kept 0 below) ->
            (0 <= get_layer e < num_layer_ s' - 1)%Z)).
Proof.
  unfold updateNeighbor.
  destruct (updateNeighbor_loop_total (S (length (sort (pool_ s))))
              (with_pools s [] (outlier_ s)) (sort (pool_ s)) 0 (Nat.lt_succ_diag_r _))
    as [r Hrun].
  exists r. split; [exact Hrun|]. intros s' ->. split.
  { apply updateNeighbor_loop_length in Hrun.
    rewrite sort_length in Hrun. exact Hrun. }
  destruct (Forall_Exists_dec (fun p => length (get_distances p) = num_dimensions_ s)
              (fun p => Nat.eq_dec (length (get_distances p)) (num_dimensions_ s))
              (sort (pool_ s))) as [Hdim | Hbad].
  - rewrite updateNeighbor_loop_run in Hrun by (try exact Hdim; lia).
    injection Hrun as <-. unfold update_result.
    cbn [with_pools pool_ M_ num_layer_ num_dimensions_ app length].
    rewrite sort_length.
    set (layers := peel (length (pool_ s)) (num_dimensions_ s) (sort (pool_ s))).
    destruct (taken_layers_prefix (M_ s) layers 0) as [later Hlater].
    destruct (nil_or_last (taken_layers (M_ s) 0 layers))
      as [Hnone | [below [last_layer Htaken]]].
    + left. rewrite Hnone. reflexivity.
    + right. exists below, last_layer, later. rewrite Htaken in *.
      pose proof (taken_layers_last _ _ _ _ _ Htaken) as Hbelow.
      cbn [Nat.add] in Hbelow.
      assert (Hsplit : layered_kept 0 (below ++ [last_layer])
                       = layered_kept 0 below
                         ++ emplace_kept (Z.of_nat (length below)) last_layer).
      { rewrite layered_kept_app. cbn [layered_kept]. rewrite app_nil_r.
        reflexivity. }
      split; [rewrite Hlater, <- app_assoc; reflexivity|].
      split; [exact Hsplit|].
      split; [rewrite layered_kept_length; exact Hbelow|].
      split.
      { apply (peel_layers_nonempty (num_dimensions_ s) (length (pool_ s))
                 (sort (pool_ s))).
        fold layers. rewrite Hlater. apply in_or_app. left.
        apply in_or_app. right. left. reflexivity. }
      split.
      { rewrite Hsplit, length_app, layered_kept_length.
        unfold emplace_kept. rewrite length_map. lia. }
      split; [rewrite length_app; cbn [length]; lia|].
      rewrite length_app. cbn [length]. split.
      * intros e He. unfold emplace_kept in He. apply in_map_iff in He.
        destruct He as [x [<- _]]. rewrite construct_layer. lia.
      * intros e He. apply layered_kept_In in He.
        destruct He as [n [L [x [Hn [_ ->]]]]]. rewrite construct_layer.
        assert (n < length below)%nat by (apply nth_error_Some; congruence). lia.
  - left. cbn [updateNeighbor_loop] in Hrun.
    destruct ((length (pool_ (with_pools s [] (outlier_ s)))
               <? M_ (with_pools s [] (outlier_ s)))
              && (0 <? length (sort (pool_ s)))).
    + cbn [with_pools num_dimensions_] in Hrun.
      rewrite (findSkyline_invalid _ _ [] [] Hbad) in Hrun. discriminate.
    + injection Hrun as <-. reflexivity.
Qed.

(** X13.  On a pool of the right dimension [updateNeighbor] returns
    normally and keeps at least min(M, n) of the n points and never more
    than n; when the pool does not exceed the capacity M, it keeps all. *)
Theorem updateNeighbor_keeps_up_to_capacity (s : LayeredPool) :
  dims_ok (num_dimensions_ s) (pool_ s) ->
  exists s',
    updateNeighbor s = Some (Done, s') /\
    (Nat.min (M_ s) (getPoolSize s) <= getPoolSize s' <= getPoolSize s)%nat /\
    ((getPoolSize s <= M_ s)%nat -> getPoolSize s' = getPoolSize s).
Proof.
  intros Hdim. eexists. split; [apply updateNeighbor_run; exact Hdim|].
  unfold getPoolSize, update_result. cbn [with_pools pool_ app].
  set (layers := peel (length (pool_ s)) (num_dimensions_ s) (sort (pool_ s))).
  assert (Hall : length (concat layers) = length (pool_ s)).
  { subst layers. rewrite <- (sort_length (pool_ s)) at 2.
    rewrite <- (sort_length (pool_ s)) at 1.
    apply Permutation_length, peel_concat_perm, le_n. }
  assert (Hlen : length (layered_kept 0 (taken_layers (M_ s) 0 layers))
                 = length (concat (taken_layers (M_ s) 0 layers))).
  { rewrite <- (length_map point_key_flag), layered_kept_keys, length_map.
    reflexivity. }
  rewrite Hlen.
  destruct (taken_layers_prefix (M_ s) layers 0) as [rest Hrest].
  assert (Hle : (length (concat (taken_layers (M_ s) 0 layers))
                 <= length (pool_ s))%nat).
  { rewrite <- Hall. rewrite Hrest at 2. rewrite concat_app, length_app. lia. }
  destruct (taken_layers_floor (M_ s) layers 0) as [Hfull | Heq].
  - cbn [Nat.add] in Hfull. split; lia.
  - rewrite Heq, Hall. split; lia.
Qed.

(** X14.  After [updateNeighbor] on a pool with pairwise distinct ids and
    the right dimension, no pool entry of a later layer dominates a pool
    entry of an earlier layer. *)
Theorem updateNeighbor_layer_monotone (s : LayeredPool) :
  NoDup (map get_id (pool_ s)) ->
  dims_ok (num_dimensions_ s) (pool_ s) ->
  exists s',
    updateNeighbor s = Some (Done, s') /\
    forall p q, In p (pool_ s') -> In q (pool_ s') ->
      (get_layer p < get_layer q)%Z ->
      ~ Dominates (num_dimensions_ s) (get_distances q) (get_distances p).
Proof.
  intros Hnd Hdim. eexists. split; [apply updateNeighbor_run; exact Hdim|].
  unfold update_result. cbn [with_pools pool_ app].
  set (layers := peel (length (pool_ s)) (num_dimensions_ s) (sort (pool_ s))).
  destruct (taken_layers_prefix (M_ s) layers 0) as [rest Hrest].
  assert (Hnth : forall n L, nth_error (taken_layers (M_ s) 0 layers) n = Some L ->
                             nth_error layers n = Some L).
  { intros n L Hn. rewrite Hrest. rewrite nth_error_app1; [exact Hn|].
    apply nth_error_Some. congruence. }
  intros p q Hp Hq Hlt. apply layered_kept_In in Hp, Hq.
  destruct Hp as [n [Ln [p' [Hn [Hp' ->]]]]].
  destruct Hq as [m [Lm [q' [Hm [Hq' ->]]]]].
  rewrite !construct_layer in Hlt. rewrite !construct_distances.
  apply Hnth in Hn, Hm.
  apply (peel_monotone _ _ _ n m Ln Lm p' q'
           (Permutation_NoDup
              (Permutation_map get_id (Permutation_sym (sort_perm (pool_ s)))) Hnd)
           Hn Hm); [lia | exact Hp' | exact Hq'].
Qed.


(** X16.  [setNumDimensions] does not touch the points.  Changing the
    dimension of a non-empty pool of positive capacity therefore makes the
    next [updateNeighbor] throw [std::invalid_argument], and by then the
    pool has been emptied. *)
Theorem updateNeighbor_after_setNumDimensions (s : LayeredPool) (d' : nat) :
  pool_ s <> [] ->
  dims_ok (num_dimensions_ s) (pool_ s) ->
  (0 < M_ s)%nat -> (1 <= d')%nat -> d' <> num_dimensions_ s ->
  exists s1 s2,
    setNumDimensions s d' = (Done, s1) /\
    pool_ s1 = pool_ s /\ num_dimensions_ s1 = d' /\
    updateNeighbor s1 = Some (Thrown invalid_argument, s2) /\
    pool_ s2 = [] /\ outlier_ s2 = outlier_ s.
Proof.
  intros Hne Hdim HM Hd Hchange. unfold setNumDimensions.
  replace (d' <? 1) with false by (symmetry; apply Nat.ltb_ge; exact Hd).
  eexists. eexists. split; [reflexivity|]. split; [reflexivity|].
  split; [reflexivity|]. cbn [pool_ outlier_ M_ Q_ num_layer_ num_dimensions_].
  unfold updateNeighbor. cbn [pool_ outlier_ M_ Q_ num_layer_ num_dimensions_].
  assert (Hbad : Exists (fun p => length (get_distances p) <> d') (sort (pool_ s))).
  { destruct (pool_ s) as [|p rest] eqn:Hpool; [congruence|].
    apply Exists_exists. exists p. split; [apply sort_In; left; reflexivity|].
    unfold dims_ok in Hdim. rewrite Forall_forall in Hdim.
    rewrite (Hdim p (or_introl eq_refl)). congruence. }
  cbn [updateNeighbor_loop with_pools pool_ M_ num_dimensions_ length].
  replace (0 <? M_ s) with true by (symmetry; apply Nat.ltb_lt; exact HM).
  replace (0 <? length (sort (pool_ s))) with true.
  2:{ symmetry. apply Nat.ltb_lt. rewrite sort_length.
      destruct (pool_ s); [congruence | cbn; lia]. }
  cbn [andb]. rewrite (findSkyline_invalid _ _ [] [] Hbad).
  split; [reflexivity|]. split; reflexivity.
Qed.
End MoreUpdateFacts.

(** ** insert, once more *)

Section MoreInsertFacts.
Context {P : Type} {NL : NeighborLike P}.

(** X17.  [insert] keeps the ids of [pool_] pairwise distinct and those
    of [outlier_] pairwise distinct; it never touches [pool_] or the layer
    count; after a normal return the id is among the stored ones, and it
    only fails, changing nothing, on a vector of the wrong length. *)
Theorem insert_keeps_ids_unique (s : LayeredPool) (id : N) (distances : list distance) :
  NoDup (map get_id (pool_ s)) ->
  NoDup (map get_id (outlier_ s)) ->
  exists c s',
    insert s id distances = (c, s') /\
    NoDup (map get_id (pool_ s')) /\
    NoDup (map get_id (outlier_ s')) /\
    pool_ s' = pool_ s /\ getNumLayer s' = getNumLayer s /\
    (c = Done -> In id (map get_id (pool_ s' ++ outlier_ s'))) /\
    (c <> Done -> s' = s /\ length distances <> num_dimensions_ s).
Proof.
  intros Hpool_nd Hout_nd. unfold insert.
  destruct (length distances =? num_dimensions_ s) eqn:Hlen; cbn [negb].
  2:{ exists (Thrown invalid_argument), s. apply Nat.eqb_neq in Hlen.
      repeat split; try assumption; try reflexivity. intros H. discriminate. }
  destruct (has_id id (pool_ s)) eqn:Hpool.
  { exists Done, s. repeat split; try assumption; try reflexivity; try congruence.
    intros _. unfold has_id in Hpool. apply existsb_exists in Hpool.
    destruct Hpool as [x [Hx Hid]]. apply N.eqb_eq in Hid.
    rewrite map_app. apply in_or_app. left. apply in_map_iff. eauto. }
  destruct (has_id id (outlier_ s)) eqn:Hout.
  { exists Done, s. repeat split; try assumption; try reflexivity; try congruence.
    intros _. unfold has_id in Hout. apply existsb_exists in Hout.
    destruct Hout as [x [Hx Hid]]. apply N.eqb_eq in Hid.
    rewrite map_app. apply in_or_app. right. apply in_map_iff. eauto. }
  eexists. eexists. split; [reflexivity|].
  unfold getNumLayer. cbn [with_pools pool_ outlier_ num_layer_].
  apply has_id_false in Hout.
  split; [exact Hpool_nd|].
  split; [|split; [reflexivity | split; [reflexivity | split; [|congruence]]]].
  - rewrite map_app. cbn [map]. rewrite construct_id.
    apply Permutation_NoDup with (l := id :: map get_id (outlier_ s)).
    + apply Permutation_cons_append.
    + constructor; assumption.
  - intros _. rewrite app_assoc, map_app. apply in_or_app. right.
    cbn [map]. rewrite construct_id. left. reflexivity.
Qed.
End MoreInsertFacts.

(** ** The queues, once more *)

Lemma layered_ascending {P : Type} {NL : NeighborLike P} (layers : list (list P)) :
  forall l0,
  ForallOrdPairs (fun a b => (get_layer a <= get_layer b)%Z) (layered l0 layers) /\
  Forall (fun e => (l0 <= get_layer e)%Z /\ get_flag e = true) (layered l0 layers).
Proof.
  induction layers as [|L rest IH]; intros l0; cbn [layered];
    [split; constructor|].
  destruct (IH (l0 + 1)%Z) as [Hord Hlow].
  assert (Hhere : Forall (fun e => get_layer e = l0 /\ get_flag e = true)
                         (emplace_fresh l0 L)).
  { apply Forall_forall. intros e He. unfold emplace_fresh in He.
    apply in_map_iff in He. destruct He as [p [<- _]].
    rewrite construct_layer, construct_flag. auto. }
  rewrite Forall_forall in Hhere, Hlow. split.
  - apply ForallOrdPairs_app; [|exact Hord|].
    + clear -Hhere. induction (emplace_fresh l0 L) as [|a l IHl]; constructor.
      * apply Forall_forall. intros b Hb.
        destruct (Hhere a (or_introl eq_refl)) as [-> _].
        destruct (Hhere b (or_intror Hb)) as [-> _]. lia.
      * apply IHl. intros x Hx. apply Hhere. right. exact Hx.
    + intros x y Hx Hy. destruct (Hhere x Hx) as [-> _].
      destruct (Hlow y Hy) as [Hy' _]. lia.
  - apply Forall_forall. intros e He. apply in_app_or in He.
    destruct He as [He | He].
    + destruct (Hhere e He) as [-> Hf]. split; [lia | exact Hf].
    + destruct (Hlow e He) as [Hl Hf]. split; [lia | exact Hf].
Qed.

Section MoreQueueFacts.
Context {P : Type} {NL : NeighborLike P}.

Lemma initQueue_loop_run : forall fuel d (insert_points pool : list P) l,
  dims_ok d insert_points ->
  (length insert_points < fuel)%nat ->
  initQueue_loop fuel d insert_points pool l =
  Some (Done, (pool ++ layered l (peel (length insert_points) d insert_points),
               (l + Z.of_nat (length (peel (length insert_points) d insert_points)))%Z)).
Proof.
  induction fuel as [|fuel IH]; intros d insert_points pool l Hdim Hlen; [lia|].
  cbn [initQueue_loop]. destruct insert_points as [|p rest].
  - cbn. rewrite app_nil_r, Z.add_0_r. reflexivity.
  - rewrite (findSkyline_valid _ _ [] [] Hdim). cbn [app].
    change (length (p :: rest)) with (S (length rest)). rewrite peel_step.
    set (F := filter (fun x => is_skyline_scan d x (p :: rest)) (p :: rest)).
    set (R := filter (fun x => negb (is_skyline_scan d x (p :: rest))) (p :: rest)).
    assert (Hshort : (length R < length (p :: rest))%nat)
      by (apply remainder_shorter; discriminate).
    cbn [length] in Hshort, Hlen.
    rewrite IH; [| apply Forall_filter; exact Hdim | lia].
    rewrite (peel_fuel_any _ (length rest) (length R)) by lia.
    cbn [layered length]. rewrite <- app_assoc. do 3 f_equal. lia.
Qed.

(** X18.  On points of the right dimension [initQueue] returns normally.
    It keeps the old entries at the front of the pool and appends one
    entry per inserted point, whatever the capacity [M_]: each with the
    point's id and distances, flagged, and in ascending order of layer.
    [num_layer_] becomes the number of layers of the inserted points
    alone: the appended entries use exactly the layer numbers 0, ...,
    [num_layer_ - 1], at most as many as there are inserted points and at
    least one when there is a point. *)
Theorem initQueue_appends_all_points (q : SkylineQueue) (insert_points : list P) :
  dims_ok (q_num_dimensions_ q) insert_points ->
  exists q' added,
    initQueue q insert_points = Some (Done, q') /\
    q_pool_ q' = q_pool_ q ++ added /\
    Permutation (map point_key added) (map point_key insert_points) /\
    length (q_pool_ q') = (length (q_pool_ q) + length insert_points)%nat /\
    ForallOrdPairs (fun a b => (get_layer a <= get_layer b)%Z) added /\
    (forall e, In e added ->
       get_flag e = true /\ (0 <= get_layer e < q_num_layer_ q')%Z) /\
    q_num_layer_ q'
    = Z.of_nat (length (peel (length insert_points) (q_num_dimensions_ q)
                             insert_points)) /\
    (forall L, (0 <= L < q_num_layer_ q')%Z ->
       exists e, In e added /\ get_layer e = L) /\
    (0 <= q_num_layer_ q' <= Z.of_nat (length insert_points))%Z /\
    (insert_points <> [] -> 1 <= q_num_layer_ q')%Z /\
    q_M_ q' = q_M_ q /\ q_num_dimensions_ q' = q_num_dimensions_ q.
Proof.
  intros Hdim. unfold initQueue.
  rewrite initQueue_loop_run by (try exact Hdim; lia).
  set (layers := peel (length insert_points) (q_num_dimensions_ q) insert_points).
  eexists. exists (layered 0 layers). split; [reflexivity|].
  cbn [q_pool_ q_num_layer_ q_M_ q_num_dimensions_].
  assert (Hperm : Permutation (map point_key (layered 0 layers))
                              (map point_key insert_points)).
  { rewrite layered_keys. apply Permutation_map, peel_concat_perm, le_n. }
  assert (Hne : forall layer, In layer layers -> layer <> [])
    by (intros layer; apply peel_layers_nonempty).
  assert (Hcount : (length layers <= length insert_points)%nat).
  { rewrite (nonempty_layers_count layers Hne).
    apply Nat.eq_le_incl, Permutation_length, peel_concat_perm, le_n. }
  destruct (layered_ascending layers 0) as [Hord Hlow].
  split; [reflexivity|]. split; [exact Hperm|]. split.
  { rewrite length_app. f_equal. apply Permutation_length in Hperm.
    rewrite !length_map in Hperm. exact Hperm. }
  split; [exact Hord|]. split.
  { intros e He. rewrite Forall_forall in Hlow. destruct (Hlow e He) as [H0 Hf].
    split; [exact Hf|]. apply layered_In in He.
    destruct He as [n [L [p [Hn [_ ->]]]]]. rewrite construct_layer.
    assert (n < length layers)%nat by (apply nth_error_Some; congruence). lia. }
  split; [apply Z.add_0_l|]. split.
  { intros L HL.
    destruct (nth_error layers (Z.to_nat L)) as [layer|] eqn:Hn.
    2:{ apply nth_error_None in Hn. lia. }
    assert (Hlayer := Hne layer (nth_error_In _ _ Hn)).
    destruct layer as [|p layer]; [congruence|].
    exists (construct (get_id p) (get_distances p) true (0 + Z.of_nat (Z.to_nat L))).
    split; [|rewrite construct_layer; lia].
    apply layered_In. exists (Z.to_nat L), (p :: layer), p.
    split; [exact Hn|]. split; [left; reflexivity | reflexivity]. }
  split; [lia|]. split; [|split; reflexivity].
  intros Hpts. subst layers. destruct insert_points as [|p rest]; [congruence|].
  change (length (p :: rest)) with (S (length rest)). rewrite peel_step.
  cbn [length]. lia.
Qed.

(** X19.  [initQueue] is all or nothing: when an inserted point has the
    wrong number of distances it throws [std::invalid_argument] and leaves
    the queue as it was. *)
Theorem initQueue_rejects_wrong_dimension (q : SkylineQueue) (insert_points : list P) :
  Exists (fun p => length (get_distances p) <> q_num_dimensions_ q) insert_points ->
  initQueue q insert_points = Some (Thrown invalid_argument, q).
Proof.
  intros Hbad. unfold initQueue.
  destruct insert_points as [|p rest]; [inversion Hbad|].
  cbn [initQueue_loop length].
  rewrite (findSkyline_invalid _ _ [] [] Hbad). destruct q. reflexivity.
Qed.

Lemma emplace_tracking_unflagged l : forall (skyline : list P) pool k nk,
  Forall (fun p => get_flag p = false) skyline ->
  exists k', emplace_tracking l skyline (pool, k, nk, true)
             = (pool ++ emplace_kept l skyline, k', nk, true).
Proof.
  induction skyline as [|point rest IH]; intros pool k nk Hflags.
  - exists k. cbn [emplace_tracking emplace_kept map]. rewrite app_nil_r. reflexivity.
  - inversion Hflags as [|? ? Hpoint Hrest]; subst.
    cbn [emplace_tracking]. rewrite Hpoint.
    destruct (IH (pool ++ [construct (get_id point) (get_distances point) false l])
                 (k + 1 + 1)%Z nk Hrest) as [k' Hk'].
    exists k'. rewrite Hk'. unfold emplace_kept. cbn [map].
    rewrite Hpoint, <- app_assoc. reflexivity.
Qed.

Lemma queue_update_loop_unflagged : forall fuel M d (candidate : list P) l pool k nk,
  dims_ok d candidate ->
  Forall (fun p => get_flag p = false) candidate ->
  Forall (fun p => get_flag p = false) pool ->
  (length candidate < fuel)%nat ->
  exists pool' l',
    queue_update_loop fuel M d candidate l (pool, k, nk, true)
      = Some (Done, (pool', l', nk)) /\
    Forall (fun p => get_flag p = false) pool'.
Proof.
  induction fuel as [|fuel IH]; intros M d candidate l pool k nk Hdim Hflags Hclean Hlen;
    [lia|].
  cbn [queue_update_loop].
  destruct ((length pool <? M) && (0 <? length candidate)) eqn:Hcond.
  2:{ exists pool, l. auto. }
  rewrite (findSkyline_valid _ _ [] [] Hdim). cbn [app].
  destruct candidate as [|c0 rest]; [rewrite andb_false_r in Hcond; discriminate|].
  set (F := filter (fun p => is_skyline_scan d p (c0 :: rest)) (c0 :: rest)).
  set (R := filter (fun p => negb (is_skyline_scan d p (c0 :: rest))) (c0 :: rest)).
  assert (Hshort : (length R < length (c0 :: rest))%nat)
    by (apply remainder_shorter; discriminate).
  assert (HF : Forall (fun p => get_flag p = false) F) by (apply Forall_filter; exact Hflags).
  destruct (emplace_tracking_unflagged l F pool k nk HF) as [k' ->].
  apply IH.
  - apply Forall_filter. exact Hdim.
  - apply Forall_filter. exact Hflags.
  - apply Forall_app. split; [exact Hclean|].
    apply Forall_forall. intros e He. unfold emplace_kept in He.
    apply in_map_iff in He. destruct He as [p [<- Hp]].
    rewrite construct_flag. rewrite Forall_forall in HF. apply HF, Hp.
  - cbn [length] in *. lia.
Qed.

(** X20.  When no point of the queue is flagged, [updateNeighbor(nk)]
    never assigns [nk]: on a queue of the right dimension it returns
    normally with [nk] as the caller passed it, whatever the capacity. *)
Theorem queue_updateNeighbor_leaves_nk_without_flag (q : SkylineQueue) (nk : Z) :
  dims_ok (q_num_dimensions_ q) (q_pool_ q) ->
  Forall (fun p => get_flag p = false) (q_pool_ q) ->
  exists q',
    queue_updateNeighbor q nk = Some (Done, (q', nk)) /\
    first_flagged (q_pool_ q') = None.
Proof.
  intros Hdim Hflags. unfold queue_updateNeighbor.
  destruct (queue_update_loop_unflagged (S (length (sort (q_pool_ q)))) (q_M_ q)
              (q_num_dimensions_ q) (sort (q_pool_ q)) 0 [] 0 nk)
    as [pool' [l' [Hrun Hclean]]].
  - unfold dims_ok in *. rewrite Forall_forall in *. intros x Hx.
    apply Hdim, sort_In, Hx.
  - rewrite Forall_forall in *. intros x Hx. apply Hflags, sort_In, Hx.
  - constructor.
  - lia.
  - rewrite Hrun. eexists. split; [reflexivity|]. cbn [q_pool_].
    clear -Hclean. induction Hclean as [|x pool Hx _ IH]; [reflexivity|].
    cbn [first_flagged]. rewrite Hx, IH. reflexivity.
Qed.
End MoreQueueFacts.

(** ** The indices of weight vectors *)

Lemma lattice_ok_true : lattice_ok = true.
Proof. vm_compute. reflexivity. Qed.

Lemma tenth_zero : tenth 0 = S754_zero false.
Proof. vm_compute. reflexivity. Qed.

(** A float that stands for [j] tenths is [j / 10.0f], or a zero when
    [j] is 0. *)
Lemma is_tenth_floats f j : is_tenth f j -> In f (tenth_floats j).
Proof.
  intros [Hj Hf].
  destruct (eqb_cases _ _ Hf) as [-> | [s [s' [-> Hz]]]].
  - destruct j; left; reflexivity.
  - assert (j = 0)%nat as ->.
    { destruct (tenths_compare j 0 Hj ltac:(lia)) as [_ Heq].
      rewrite Hz, tenth_zero in Heq.
      replace (Float32.eqb (S754_zero s') (S754_zero false)) with true in Heq
        by (destruct s'; reflexivity).
      symmetry in Heq. apply Nat.eqb_eq in Heq. exact Heq. }
    cbn [tenth_floats]. destruct s; cbn [In]; auto.
Qed.

Lemma lattice_digit f a :
  is_tenth f a ->
  to_size_t (Float32.round (Float32.mul f f_10)) = Normal (N.of_nat a).
Proof.
  intros Hf. pose proof lattice_ok_true as H. unfold lattice_ok in H.
  rewrite forallb_forall in H.
  specialize (H a ltac:(apply in_seq; destruct Hf; lia)).
  rewrite forallb_forall in H. specialize (H f (is_tenth_floats f a Hf)).
  apply andb_true_iff in H. destruct H as [H _].
  destruct (to_size_t _) as [digit | |]; try discriminate.
  apply N.eqb_eq in H. congruence.
Qed.

Lemma lattice_tolerance f g a b :
  is_tenth f a -> is_tenth g b ->
  Float32.ltb f_0_001 (SFabs (Float32.sub f (round_to_tenth g))) = negb (a =? b).
Proof.
  intros Hf Hg. pose proof lattice_ok_true as H. unfold lattice_ok in H.
  rewrite forallb_forall in H.
  specialize (H a ltac:(apply in_seq; destruct Hf; lia)).
  rewrite forallb_forall in H. specialize (H f (is_tenth_floats f a Hf)).
  apply andb_true_iff in H. destruct H as [_ H].
  rewrite forallb_forall in H.
  specialize (H b ltac:(apply in_seq; destruct Hg; lia)).
  rewrite forallb_forall in H. specialize (H g (is_tenth_floats g b Hg)).
  apply Bool.eqb_prop in H. exact H.
Qed.

Lemma base11_wrap_congr : forall js x y,
  size_t_wrap x = size_t_wrap y ->
  size_t_wrap (fold_left base11_step js x) = size_t_wrap (fold_left base11_step js y).
Proof.
  induction js as [|j js IH]; intros x y Hxy; [exact Hxy|].
  cbn [fold_left]. apply IH. unfold base11_step, size_t_wrap in *.
  rewrite (N.Div0.add_mod (x * 11)), (N.Div0.add_mod (y * 11)).
  rewrite (N.Div0.mul_mod x), (N.Div0.mul_mod y), Hxy. reflexivity.
Qed.

Lemma weight_index_loop_lattice : forall w js,
  Forall2 is_tenth w js ->
  forall index, (index <= SIZE_MAX)%N ->
    weight_index_loop w index = Normal (size_t_wrap (fold_left base11_step js index)).
Proof.
  induction 1 as [|f a w js Hf Hw IH]; intros index Hindex.
  - cbn [weight_index_loop fold_left]. unfold size_t_wrap.
    rewrite N.mod_small; [reflexivity|]. unfold SIZE_MAX in *. lia.
  - cbn [weight_index_loop fold_left]. rewrite (lattice_digit f a Hf).
    unfold WEIGHT_STEPS. rewrite IH.
    + f_equal. apply base11_wrap_congr. unfold base11_step, size_t_wrap.
      rewrite N.Div0.mod_mod, N.Div0.add_mod_idemp_l. reflexivity.
    + unfold size_t_wrap.
      pose proof (N.mod_lt (size_t_wrap (index * 11) + N.of_nat a) (SIZE_MAX + 1)
                    ltac:(discriminate)).
      unfold size_t_wrap in *. lia.
Qed.

Lemma base11_bound : forall js x,
  Forall (fun j => (j <= 10)%nat) js ->
  (fold_left base11_step js x + 1 <= (x + 1) * 11 ^ N.of_nat (length js))%N.
Proof.
  induction js as [|j js IH]; intros x Hjs.
  - cbn [fold_left length]. change (11 ^ N.of_nat 0)%N with 1%N. lia.
  - inversion Hjs as [|? ? Hj Hjs']; subst. cbn [fold_left length].
    specialize (IH (base11_step x j) Hjs').
    rewrite Nat2N.inj_succ, N.pow_succ_r'. unfold base11_step in *.
    assert (N.of_nat j <= 10)%N by lia.
    set (p := (11 ^ N.of_nat (length js))%N) in *. nia.
Qed.

Lemma base11_injective : forall js js' x x',
  Forall (fun j => (j <= 10)%nat) js -> Forall (fun j => (j <= 10)%nat) js' ->
  length js = length js' ->
  fold_left base11_step js x = fold_left base11_step js' x' ->
  x = x' /\ js = js'.
Proof.
  induction js as [|j js IH]; intros js' x x' Hjs Hjs' Hlen Heq;
    destruct js' as [|j' js']; try discriminate.
  - cbn in Heq. auto.
  - inversion Hjs as [|? ? Hj Hrest]; inversion Hjs' as [|? ? Hj' Hrest']; subst.
    cbn [fold_left] in Heq. cbn [length] in Hlen.
    destruct (IH js' _ _ Hrest Hrest' ltac:(lia) Heq) as [Hstep ->].
    unfold base11_step in Hstep.
    assert (x = x' /\ j = j') as [-> ->] by lia. auto.
Qed.

Lemma is_tenth_digits w js :
  Forall2 is_tenth w js -> Forall (fun j => (j <= 10)%nat) js.
Proof.
  induction 1 as [|f a w js [Ha _] _ IH]; constructor; assumption.
Qed.

Lemma weight_index_lattice w js :
  Forall2 is_tenth w js -> (length js <= 18)%nat ->
  getWeightCombinationIndex w = Normal (base11 js) /\
  (base11 js < 11 ^ N.of_nat (length js))%N.
Proof.
  intros Hw Hlen. unfold getWeightCombinationIndex.
  rewrite (weight_index_loop_lattice w js Hw 0 ltac:(discriminate)).
  pose proof (base11_bound js 0 (is_tenth_digits w js Hw)) as Hb.
  change (fold_left base11_step js 0%N) with (base11 js) in *.
  assert (Hpow : (11 ^ N.of_nat (length js) <= 11 ^ 18)%N)
    by (apply N.pow_le_mono_r; [discriminate | lia]).
  assert (H18 : (11 ^ 18 <= SIZE_MAX)%N) by (vm_compute; discriminate).
  split; [|lia]. f_equal. unfold size_t_wrap. apply N.mod_small. lia.
Qed.

(** X21.  On a vector of at most 18 multiples of 0.1 between 0 and 1
    [getWeightCombinationIndex] returns, without wrapping, the number whose
    base-11 digits are the tenths of the weights, first weight first. *)
Theorem getWeightCombinationIndex_base11 (w : list float) (js : list nat) :
  Forall2 is_tenth w js -> (length js <= 18)%nat ->
  getWeightCombinationIndex w = Normal (base11 js) /\
  (base11 js < 11 ^ N.of_nat (length js))%N /\
  (base11 js <= SIZE_MAX)%N.
Proof.
  intros Hw Hlen. destruct (weight_index_lattice w js Hw Hlen) as [Hrun Hb].
  split; [exact Hrun|]. split; [exact Hb|].
  assert (Hpow : (11 ^ N.of_nat (length js) <= 11 ^ 18)%N)
    by (apply N.pow_le_mono_r; [discriminate | lia]).
  assert (H18 : (11 ^ 18 <= SIZE_MAX)%N) by (vm_compute; discriminate).
  lia.
Qed.

(** X22.  The index of [getWeightCombinationIndex] is unique: two vectors
    of the same length, at most 18, of multiples of 0.1 between 0 and 1
    get the same index only when they have the same tenths. *)
Theorem getWeightCombinationIndex_unique (w w' : list float) (js js' : list nat) :
  Forall2 is_tenth w js -> Forall2 is_tenth w' js' ->
  length js = length js' -> (length js <= 18)%nat ->
  getWeightCombinationIndex w = getWeightCombinationIndex w' ->
  js = js'.
Proof.
  intros Hw Hw' Hsame Hlen Heq.
  destruct (weight_index_lattice w js Hw Hlen) as [Hrun _].
  destruct (weight_index_lattice w' js' Hw' ltac:(lia)) as [Hrun' _].
  rewrite Hrun, Hrun' in Heq. injection Heq as Heq.
  apply (base11_injective js js' 0%N 0%N
           (is_tenth_digits w js Hw) (is_tenth_digits w' js' Hw') Hsame Heq).
Qed.

(** *** getWeightIndex *)

Lemma generateWeightCombinations_lattice d :
  (1 <= d <= 8)%nat ->
  exists combos,
    generateWeightCombinations d = Some combos /\
    Forall2 (Forall2 is_tenth) combos (compositions d 10).
Proof.
  intros Hd. destruct d as [|[|d]]; [lia| |].
  - exists [[f_1]]. split; [reflexivity|].
    cbn [compositions]. constructor; [|constructor].
    constructor; [|constructor]. split; [lia | vm_compute; reflexivity].
  - unfold generateWeightCombinations. cbn [Nat.eqb].
    destruct (backtrack_spec (S (S d)) ltac:(lia) (S d) 0 (S (S d)) 0 [] f_0 f_1 []
                ltac:(lia) ltac:(lia) ltac:(lia) reachable_start)
      as [out [-> Hout]].
    rewrite app_nil_r, rev_involutive.
    replace (map (app []) out) with out
      by (symmetry; rewrite <- (map_id out) at 2; apply map_ext; reflexivity).
    assert (Hasc := tenths_ascending out _ Hout (compositions_ordered _ _)).
    rewrite (weights_sort_ascending out Hasc), (unique_ascending out Hasc).
    exists out. split; [reflexivity | exact Hout].
Qed.

Lemma compositions_shape : forall r n c,
  In c (compositions r n) -> length c = r /\ list_sum c = n.
Proof.
  induction r as [|r IH]; intros n c Hc; [contradiction|].
  cbn [compositions] in Hc. destruct r as [|r].
  - destruct Hc as [<- | []]. cbn. split; [reflexivity | lia].
  - apply in_flat_map in Hc. destruct Hc as [j [Hj Hc]].
    apply in_map_iff in Hc. destruct Hc as [c' [<- Hc']].
    apply in_seq in Hj. destruct (IH _ _ Hc') as [Hlen Hsum].
    cbn [length list_sum fold_right]. unfold list_sum in Hsum. split; [congruence | lia].
Qed.

Lemma nat_lex_lt_irrefl : forall a, ~ nat_lex_lt a a.
Proof.
  induction a as [|x a IH]; cbn [nat_lex_lt]; [tauto|].
  intros [H | [_ H]]; [lia | exact (IH H)].
Qed.

Lemma ordered_earlier_differs (comps : list (list nat)) :
  ForallOrdPairs nat_lex_lt comps ->
  forall i j c y, (j < i)%nat ->
    nth_error comps j = Some c -> nth_error comps i = Some y -> c <> y.
Proof.
  induction 1 as [|a l Ha _ IH]; intros i j c y Hji Hj Hi.
  - destruct j; discriminate.
  - destruct i as [|i]; [lia|]. cbn [nth_error] in Hi. destruct j as [|j].
    + cbn [nth_error] in Hj. assert (a = c) as -> by congruence.
      rewrite Forall_forall in Ha. intros ->.
      apply (nat_lex_lt_irrefl y), Ha. eapply nth_error_In. exact Hi.
    + cbn [nth_error] in Hj. apply (IH i j); [lia | exact Hj | exact Hi].
Qed.

Lemma Forall2_nth_error_pair {A B : Type} (R : A -> B -> Prop) l l' :
  Forall2 R l l' ->
  forall i, (i < length l)%nat ->
    exists a b, nth_error l i = Some a /\ nth_error l' i = Some b /\ R a b.
Proof.
  induction 1 as [|a b l l' Hab _ IH]; intros i Hi; [simpl in Hi; lia|].
  destruct i as [|i]; [exists a, b; auto|].
  cbn [nth_error]. apply IH. simpl in Hi. lia.
Qed.

(** The loop over [j] compares tenth by tenth. *)
Lemma combination_matches_lattice : forall c x,
  Forall2 is_tenth c x ->
  forall w y, Forall2 is_tenth w y -> length x = length y ->
  forall pc pr, length pc = length pr ->
    (x = y -> combination_matches (pc ++ c) (pr ++ map round_to_tenth w)
                (length pc) (length x) = Normal true) /\
    (x <> y -> combination_matches (pc ++ c) (pr ++ map round_to_tenth w)
                 (length pc) (length x) = Normal false).
Proof.
  induction 1 as [|f a c x Hf Hc IH]; intros w y Hw Hlen pc pr Hp.
  - destruct y; [|discriminate]. cbn [length combination_matches].
    split; [reflexivity | congruence].
  - destruct Hw as [|g b w y Hg Hw]; [discriminate|].
    cbn [length] in Hlen. cbn [length combination_matches map].
    rewrite nth_error_app2 by lia. rewrite Nat.sub_diag. cbn [nth_error].
    rewrite nth_error_app2 by lia. rewrite Hp, Nat.sub_diag. cbn [nth_error].
    rewrite (lattice_tolerance f g a b Hf Hg).
    destruct (Nat.eqb_spec a b) as [-> | Hab]; cbn [negb].
    + destruct (IH w y Hw ltac:(lia) (pc ++ [f]) (pr ++ [round_to_tenth g])) as [Hyes Hno].
      { rewrite !length_app. cbn [length]. lia. }
      rewrite <- !app_assoc in Hyes, Hno. cbn [app] in Hyes, Hno.
      rewrite length_app in Hyes, Hno. cbn [length] in Hyes, Hno.
      rewrite Nat.add_1_r in Hyes, Hno. rewrite <- Hp in *.
      split; intros Hxy; [apply Hyes | apply Hno]; congruence.
    + split; [congruence | reflexivity].
Qed.

Lemma scan_combinations_lattice d : forall combos comps,
  Forall2 (Forall2 is_tenth) combos comps ->
  (forall c, In c comps -> length c = d) ->
  forall w y k, Forall2 is_tenth w y -> length y = d ->
    (forall i, nth_error comps i = Some y ->
       (forall j c, (j < i)%nat -> nth_error comps j = Some c -> c <> y) ->
       scan_combinations d combos (map round_to_tenth w) k = Normal (k + N.of_nat i)%N) /\
    (~ In y comps ->
       scan_combinations d combos (map round_to_tenth w) k = Normal SIZE_MAX).
Proof.
  induction 1 as [|c x combos comps Hcx _ IH]; intros Hlens w y k Hw Hy.
  - split; [intros i Hi; destruct i; discriminate | reflexivity].
  - assert (Hx : length x = d) by (apply Hlens; left; reflexivity).
    destruct (combination_matches_lattice c x Hcx w y Hw ltac:(congruence) [] []
                eq_refl) as [Hyes Hno].
    cbn [app length] in Hyes, Hno. rewrite Hx in Hyes, Hno.
    destruct (IH (fun c0 Hc0 => Hlens c0 (or_intror Hc0)) w y (k + 1)%N Hw Hy)
      as [Hfound Hmissing].
    cbn [scan_combinations]. split.
    + intros i Hi Hfirst. destruct i as [|i].
      * cbn [nth_error] in Hi. rewrite Hyes by congruence.
        change (N.of_nat 0) with 0%N. rewrite N.add_0_r. reflexivity.
      * rewrite Hno by (apply (Hfirst O x); [lia | reflexivity]).
        cbn [nth_error] in Hi. rewrite (Hfound i Hi).
        -- f_equal. lia.
        -- intros j c0 Hj Hc0. apply (Hfirst (S j) c0); [lia | exact Hc0].
    + intros Hnot. rewrite Hno by (intros ->; apply Hnot; left; reflexivity).
      apply Hmissing. intros Hin. apply Hnot. right. exact Hin.
Qed.

(** X23.  For 1 to 8 dimensions [getWeightIndex] inverts the table
    [generateWeightCombinations] has built: on a vector of multiples of 0.1
    whose tenths are those of the combination at position [i] it returns
    [i]; in particular on that combination itself. *)
Theorem getWeightIndex_finds_position (d : nat) :
  (1 <= d <= 8)%nat ->
  exists combos,
    generateWeightCombinations d = Some combos /\
    (forall i w js, nth_error (compositions d 10) i = Some js ->
       Forall2 is_tenth w js ->
       getWeightIndex d combos w = Normal (N.of_nat i)) /\
    (forall i, (i < length combos)%nat ->
       getWeightIndex d combos (nth i combos []) = Normal (N.of_nat i)).
Proof.
  intros Hd. destruct (generateWeightCombinations_lattice d Hd) as [combos [Hrun Hcombos]].
  exists combos. split; [exact Hrun|].
  assert (Hlens : forall c, In c (compositions d 10) -> length c = d)
    by (intros c Hc; apply (compositions_shape d 10 c Hc)).
  assert (Hgen : forall i w js, nth_error (compositions d 10) i = Some js ->
            Forall2 is_tenth w js ->
            getWeightIndex d combos w = Normal (N.of_nat i)).
  { intros i w js Hi Hw. unfold getWeightIndex.
    assert (Hjs : length js = d) by (apply Hlens; eapply nth_error_In; exact Hi).
    rewrite (Forall2_length Hw), Hjs, Nat.eqb_refl. cbn [negb].
    destruct (scan_combinations_lattice d combos _ Hcombos Hlens w js 0%N Hw Hjs)
      as [Hfound _].
    rewrite (Hfound i Hi); [reflexivity|].
    intros j c Hj Hc. exact (ordered_earlier_differs _ (compositions_ordered d 10)
                               i j c js Hj Hc Hi). }
  split; [exact Hgen|]. intros i Hi.
  destruct (Forall2_nth_error_pair _ _ _ Hcombos i Hi) as [c [js [Hc [Hjs Hcjs]]]].
  rewrite (nth_error_nth _ _ _ Hc). exact (Hgen i c js Hjs Hcjs).
Qed.

(** X24.  [getWeightIndex] finds nothing outside the table: on a vector
    of the right length of multiples of 0.1 whose tenths do not add up to
    10 it returns [SIZE_MAX], and so it does on a vector of any other
    length. *)
Theorem getWeightIndex_not_found (d : nat) (w : list float) (js : list nat) :
  (1 <= d <= 8)%nat ->
  Forall2 is_tenth w js ->
  list_sum js <> 10%nat \/ length js <> d ->
  exists combos,
    generateWeightCombinations d = Some combos /\
    getWeightIndex d combos w = Normal SIZE_MAX.
Proof.
  intros Hd Hw Hoff.
  destruct (generateWeightCombinations_lattice d Hd) as [combos [Hrun Hcombos]].
  exists combos. split; [exact Hrun|]. unfold getWeightIndex.
  rewrite (Forall2_length Hw).
  destruct (Nat.eqb_spec (length js) d) as [Hjs | Hjs]; [|reflexivity]. cbn [negb].
  assert (Hlens : forall c, In c (compositions d 10) -> length c = d)
    by (intros c Hc; apply (compositions_shape d 10 c Hc)).
  destruct (scan_combinations_lattice d combos _ Hcombos Hlens w js 0%N Hw Hjs)
    as [_ Hmissing].
  apply Hmissing. intros Hin. destruct (compositions_shape d 10 js Hin) as [_ Hsum].
  tauto.
Qed.

(** ** The pruning bitmap, once more *)

Lemma setPruned_word (p : Weighted.MultiVectorDEGNeighbor) (i : N) :
  Weighted.bitmap_sized p ->
  (i < Weighted.num_weight_combinations_ p)%N ->
  (N.to_nat (i / 64) < length (Weighted.pruning_bitmap_ p))%nat /\
  (Weighted.num_weight_combinations_ p <=? i)%N = false /\
  (0 <= Z.of_N (i mod 64) < 64)%Z /\
  (64 * Z.of_nat (N.to_nat (i / 64)) + Z.of_N (i mod 64) = Z.of_N i)%Z.
Proof.
  intros Hsz Hi. unfold Weighted.bitmap_sized in Hsz.
  pose proof (word_index_in_range _ i Hi) as Hword.
  pose proof (N.mod_lt i 64 ltac:(discriminate)) as Hmod.
  pose proof (N.div_mod i 64 ltac:(discriminate)) as Hsplit.
  split; [lia|]. split; [apply N.leb_gt; exact Hi|]. split.
  { split; [apply N2Z.is_nonneg|].
    change 64%Z with (Z.of_N 64). apply N2Z.inj_lt. exact Hmod. }
  rewrite N_nat_Z. rewrite Hsplit at 3.
  rewrite N2Z.inj_add, N2Z.inj_mul. reflexivity.
Qed.

(** What [setPruned] has written, [isPruned] reads. *)
Lemma setPruned_reads_back (p : Weighted.MultiVectorDEGNeighbor) (i : N) (b : bool) :
  Weighted.bitmap_sized p ->
  (i < Weighted.num_weight_combinations_ p)%N ->
  exists p',
    Weighted.setPruned p i b = (Done, p') /\
    Weighted.isPruned p' i = Normal b /\
    Weighted.num_weight_combinations_ p' = Weighted.num_weight_combinations_ p.
Proof.
  intros Hsz Hi.
  destruct (setPruned_word p i Hsz Hi) as [Hidx [Hrange [Hbit _]]].
  unfold Weighted.setPruned. rewrite Hrange.
  destruct (nth_error (Weighted.pruning_bitmap_ p) (N.to_nat (i / 64))) as [w|] eqn:Hw.
  2:{ apply nth_error_None in Hw. lia. }
  assert (Hread : forall w',
            Weighted.isPruned (Weighted.set_word p (N.to_nat (i / 64)) w') i
            = Normal (Z.testbit w' (Z.of_N (i mod 64)))).
  { intros w'. unfold Weighted.isPruned.
    cbn [Weighted.set_word Weighted.num_weight_combinations_ Weighted.pruning_bitmap_].
    rewrite Hrange, (nth_error_set_word _ _ _ _ Hidx), Nat.eqb_refl.
    rewrite test_mask by lia. reflexivity. }
  destruct b; eexists; (split; [reflexivity|]); (split; [|reflexivity]);
    rewrite Hread.
  - rewrite set_bit_spec by lia. rewrite Z.eqb_refl, orb_true_r. reflexivity.
  - rewrite clear_bit_spec by lia. rewrite Z.eqb_refl, andb_false_r. reflexivity.
Qed.

(** X25.  [updateNeighbor] of [MultiVectorDEG] forgets every pruning
    status: it always returns, and whatever was set on the entries of the
    old pool, every entry of the new pool is pruned for no weight
    combination, so that [calculatePruningStatus] is [false] for every
    index. *)
Theorem weighted_updateNeighbor_forgets_pruning
    (K : N) (weight_combinations : list (list float))
    (s : LayeredPool (P := Weighted.MultiVectorDEGNeighbor)) :
  (K + 63 <= SIZE_MAX)%N ->
  exists c s',
    updateNeighbor (NL := Weighted_NeighborLike K) s = Some (c, s') /\
    forall e, In e (pool_ s') ->
      (forall i, (i < K)%N -> Weighted.isPruned e i = Normal false) /\
      (forall i, calculatePruningStatus K weight_combinations e i = Normal false).
Proof.
  intros HK. unfold updateNeighbor.
  destruct (updateNeighbor_loop_total (NL := Weighted_NeighborLike K)
              (S (length (sort (NL := Weighted_NeighborLike K) (pool_ s))))
              (with_pools s [] (outlier_ s))
              (sort (NL := Weighted_NeighborLike K) (pool_ s)) 0 ltac:(lia))
    as [[c s'] Hrun].
  exists c, s'. split; [exact Hrun|]. intros e He.
  destruct (updateNeighbor_loop_entries (NL := Weighted_NeighborLike K)
              _ _ _ _ _ _ Hrun e He) as [[] | [p [l' ->]]].
  assert (Hfresh : forall i, (i < K)%N ->
            Weighted.isPruned
              (Weighted.make (Weighted.id_ p) (Weighted.distances_ p) K
                             (Weighted.flag p) l') i = Normal false)
    by (intros i Hi; apply make_not_pruned; assumption).
  split; [exact Hfresh|]. intros i. unfold calculatePruningStatus.
  destruct (N.leb_spec K i) as [_ | Hi]; [reflexivity|].
  destruct (N.of_nat (length weight_combinations) <=? i)%N; [reflexivity|].
  cbn [orb]. apply Hfresh, Hi.
Qed.

(** X26.  The bitmap invariant: the constructor builds, and [setPruned]
    keeps, whatever it returns, a bitmap of ceil(K / 64) words in which
    every word is a [uint64_t] and no bit at or beyond K is set. *)
Theorem setPruned_keeps_bitmap_clean :
  (forall id distances K f layer,
     (K + 63 <= SIZE_MAX)%N -> bitmap_clean (Weighted.make id distances K f layer)) /\
  (forall p i b, bitmap_clean p -> bitmap_clean (snd (Weighted.setPruned p i b))).
Proof.
  split.
  - intros id distances K f layer HK. split; [apply make_bitmap_sized; exact HK|].
    intros idx word Hword. apply nth_error_In in Hword.
    cbn [Weighted.make Weighted.pruning_bitmap_] in Hword.
    apply repeat_spec in Hword. subst word. split; [lia|].
    intros b _ Hb. rewrite Z.bits_0 in Hb. discriminate.
  - intros p i b [Hsz Hclean]. unfold Weighted.setPruned.
    destruct (N.leb_spec (Weighted.num_weight_combinations_ p) i) as [_ | Hi];
      [split; assumption|].
    destruct (setPruned_word p i Hsz Hi) as [Hidx [_ [Hbit Hsplit]]].
    destruct (nth_error (Weighted.pruning_bitmap_ p) (N.to_nat (i / 64))) as [w|] eqn:Hw;
      [|split; assumption].
    destruct (Hclean _ _ Hw) as [Hw0 Hwbits].
    assert (Hset : forall w',
              (0 <= w')%Z ->
              (forall c, (0 <= c)%Z -> Z.testbit w' c = true ->
                 Z.testbit w c = true \/ c = Z.of_N (i mod 64)) ->
              bitmap_clean (Weighted.set_word p (N.to_nat (i / 64)) w')).
    { intros w' Hw'0 Hw'bits. split.
      - unfold Weighted.bitmap_sized in *.
        cbn [Weighted.set_word Weighted.pruning_bitmap_ Weighted.num_weight_combinations_].
        rewrite length_set_word by exact Hidx. exact Hsz.
      - intros idx word.
        cbn [Weighted.set_word Weighted.pruning_bitmap_ Weighted.num_weight_combinations_].
        rewrite (nth_error_set_word _ _ _ _ Hidx).
        destruct (Nat.eqb_spec idx (N.to_nat (i / 64))) as [-> | _];
          [|apply Hclean].
        intros Hword. injection Hword as <-. split; [exact Hw'0|].
        intros c Hc Hcbit. destruct (Hw'bits c Hc Hcbit) as [Hold | ->].
        + apply Hwbits; assumption.
        + split; [lia|]. rewrite Hsplit. lia. }
    destruct b; cbn [snd]; apply Hset.
    + apply Z.lor_nonneg. split; [exact Hw0|]. apply Z.shiftl_nonneg. lia.
    + intros c Hc Hcbit. rewrite set_bit_spec in Hcbit by lia.
      apply orb_true_iff in Hcbit. destruct Hcbit as [H | H]; [left; exact H|].
      right. apply Z.eqb_eq in H. congruence.
    + apply Z.land_nonneg. left. exact Hw0.
    + intros c Hc Hcbit. rewrite Z.land_spec in Hcbit.
      apply andb_true_iff in Hcbit. left. apply Hcbit.
Qed.

(** ** The weight table of MultiVectorDEG *)

Lemma binomial_positive : forall n k, (k <= n)%nat -> (1 <= binomial n k)%nat.
Proof.
  induction n as [|n IH]; intros k Hk.
  - destruct k; [apply le_n | lia].
  - destruct k as [|k]; [apply le_n|]. cbn [binomial].
    specialize (IH k ltac:(lia)). lia.
Qed.

Lemma binomial_le_pow2 : forall n k, (N.of_nat (binomial n k) <= 2 ^ N.of_nat n)%N.
Proof.
  induction n as [|n IH]; intros k.
  - destruct k; cbn; lia.
  - rewrite Nat2N.inj_succ, N.pow_succ_r'. destruct k as [|k].
    + cbn [binomial]. specialize (IH O). cbn [binomial] in IH. lia.
    + cbn [binomial]. rewrite Nat2N.inj_add.
      pose proof (IH k). pose proof (IH (S k)). lia.
Qed.

Lemma table_size (d : nat) (combos : list (list float)) :
  (1 <= d <= 8)%nat ->
  Forall2 (Forall2 is_tenth) combos (compositions d 10) ->
  length combos = binomial (d + 9) (d - 1) /\
  (1 <= N.of_nat (length combos))%N /\
  (N.of_nat (length combos) + 63 <= SIZE_MAX)%N.
Proof.
  intros Hd Hcombos.
  assert (Hlen : length combos = binomial (d + 9) (d - 1)).
  { rewrite (Forall2_length Hcombos), compositions_length.
    destruct d as [|d]; [lia|]. rewrite count_compositions_binomial.
    f_equal; lia. }
  split; [exact Hlen|]. rewrite Hlen.
  pose proof (binomial_positive (d + 9) (d - 1) ltac:(lia)).
  pose proof (binomial_le_pow2 (d + 9) (d - 1)) as Hpow.
  assert (H17 : (2 ^ N.of_nat (d + 9) <= 2 ^ 17)%N)
    by (apply N.pow_le_mono_r; [discriminate | lia]).
  assert (Hmax : (2 ^ 17 + 63 <= SIZE_MAX)%N) by (vm_compute; discriminate).
  split; lia.
Qed.

(** X27.  The constructor of [MultiVectorDEG] accepts 1 to 8 dimensions
    and throws [std::invalid_argument] for every other number, 0 and
    whatever exceeds 8.  For [d] dimensions it builds the table of the
    C(d + 9, d - 1) weight combinations, and the bitmap of every point the
    pool constructs has room for all of them: [setPruningStatus] at an
    index below that number returns normally and [calculatePruningStatus]
    then reads the status back. *)
Theorem MultiVectorDEG_table_and_bitmaps (m q d : nat) :
  ((d < 1)%nat \/ (8 < d)%nat -> DEG.make m q d = Some (Thrown invalid_argument)) /\
  ((1 <= d <= 8)%nat ->
   exists g,
     DEG.make m q d = Some (Normal g) /\
     pool_ (DEG.pool g) = [] /\ outlier_ (DEG.pool g) = [] /\
     M_ (DEG.pool g) = m /\ Q_ (DEG.pool g) = q /\
     num_layer_ (DEG.pool g) = 0%Z /\ num_dimensions_ (DEG.pool g) = d /\
     Forall2 (Forall2 is_tenth) (DEG.weight_combinations_ g) (compositions d 10) /\
     DEG.getNumWeightCombinations g = N.of_nat (binomial (d + 9) (d - 1)) /\
     (1 <= DEG.getNumWeightCombinations g)%N /\
     forall id distances f layer i b,
       (i < DEG.getNumWeightCombinations g)%N ->
       exists p',
         setPruningStatus (DEG.getNumWeightCombinations g)
           (construct (NeighborLike := Weighted_NeighborLike (DEG.getNumWeightCombinations g))
              id distances f layer) i b = (Done, p') /\
         calculatePruningStatus (DEG.getNumWeightCombinations g)
           (DEG.weight_combinations_ g) p' i = Normal b).
Proof.
  split.
  { intros Hout. unfold DEG.make, MAX_VECTOR_DIM.
    destruct (Nat.ltb_spec d 1) as [_ | Hlow]; [reflexivity|].
    replace (8 <? d) with true by (symmetry; apply Nat.ltb_lt; lia).
    reflexivity. }
  intros Hd.
  destruct (generateWeightCombinations_lattice d Hd) as [combos [Hrun Hcombos]].
  destruct (table_size d combos Hd Hcombos) as [Hlen [Hpos Hmax]].
  unfold DEG.make, MAX_VECTOR_DIM, DEG.initializeWeightCombinations.
  replace (d <? 1) with false by (symmetry; apply Nat.ltb_ge; lia).
  replace (8 <? d) with false by (symmetry; apply Nat.ltb_ge; lia).
  cbn [DEG.pool num_dimensions_]. rewrite Hrun.
  eexists. split; [reflexivity|]. unfold DEG.getNumWeightCombinations.
  cbn [DEG.pool DEG.weight_combinations_ DEG.num_weight_combinations_
       pool_ outlier_ M_ Q_ num_layer_ num_dimensions_].
  do 6 (split; [reflexivity|]). split; [exact Hcombos|].
  split; [rewrite Hlen; reflexivity|]. split; [exact Hpos|].
  intros id distances f layer i b Hi.
  destruct (setPruned_reads_back
              (construct (NeighborLike := Weighted_NeighborLike (N.of_nat (length combos)))
                 id distances f layer)
              i b (weighted_pool_entry_sized _ id distances f layer Hmax) Hi)
    as [p' [Hset [Hread HK]]].
  exists p'. unfold setPruningStatus, calculatePruningStatus.
  replace (N.of_nat (length combos) <=? i)%N with false
    by (symmetry; apply N.leb_gt; exact Hi).
  cbn [orb]. split; [exact Hset | exact Hread].
Qed.

(** X28.  [setNumDimensions] of [MultiVectorDEG] rebuilds the weight
    table but not the points.  Going from [d] to a higher [d'] makes the
    table larger, and on a point constructed before, [setPruningStatus]
    at an index that only the new table has throws [std::out_of_range]
    and leaves the point as it was. *)
Theorem setNumDimensions_leaves_stale_bitmaps (m q d d' : nat) :
  (1 <= d)%nat -> (d < d')%nat -> (d' <= 8)%nat ->
  exists g g',
    DEG.make m q d = Some (Normal g) /\
    DEG.setNumDimensions g d' = Some (Done, g') /\
    pool_ (DEG.pool g') = pool_ (DEG.pool g) /\
    outlier_ (DEG.pool g') = outlier_ (DEG.pool g) /\
    num_dimensions_ (DEG.pool g') = d' /\
    (DEG.getNumWeightCombinations g < DEG.getNumWeightCombinations g')%N /\
    forall id distances f layer i b,
      (DEG.getNumWeightCombinations g <= i)%N ->
      setPruningStatus (DEG.getNumWeightCombinations g')
        (construct (NeighborLike := Weighted_NeighborLike (DEG.getNumWeightCombinations g))
           id distances f layer) i b
      = (Thrown out_of_range,
         construct (NeighborLike := Weighted_NeighborLike (DEG.getNumWeightCombinations g))
           id distances f layer).
Proof.
  intros Hd Hlt Hd'.
  destruct (generateWeightCombinations_lattice d ltac:(lia)) as [combos [Hrun Hcombos]].
  destruct (generateWeightCombinations_lattice d' ltac:(lia)) as [combos' [Hrun' Hcombos']].
  destruct (table_size d combos ltac:(lia) Hcombos) as [Hlen _].
  destruct (table_size d' combos' ltac:(lia) Hcombos') as [Hlen' _].
  unfold DEG.make, DEG.setNumDimensions, MAX_VECTOR_DIM, DEG.initializeWeightCombinations.
  replace (d <? 1) with false by (symmetry; apply Nat.ltb_ge; lia).
  replace (8 <? d) with false by (symmetry; apply Nat.ltb_ge; lia).
  replace (d' <? 1) with false by (symmetry; apply Nat.ltb_ge; lia).
  replace (8 <? d') with false by (symmetry; apply Nat.ltb_ge; lia).
  cbn [DEG.pool num_dimensions_]. rewrite Hrun.
  eexists. eexists. split; [reflexivity|].
  cbn [DEG.pool DEG.weight_combinations_ DEG.num_weight_combinations_
       pool_ outlier_ M_ Q_ num_layer_ num_dimensions_].
  rewrite Hrun'. split; [reflexivity|].
  unfold DEG.getNumWeightCombinations.
  cbn [DEG.pool DEG.weight_combinations_ DEG.num_weight_combinations_
       pool_ outlier_ num_dimensions_].
  split; [reflexivity|]. split; [reflexivity|]. split; [reflexivity|].
  split.
  - rewrite Hlen, Hlen'. apply N2Z.inj_lt. rewrite !nat_N_Z. apply Nat2Z.inj_lt.
    clear -Hd Hlt Hd'. induction Hlt as [|d' Hle IH].
    + destruct d as [|d]; [lia|].
      replace (S (S d) + 9)%nat with (S (S d + 9)) by lia.
      replace (S (S d) - 1)%nat with (S (S d - 1)) by lia.
      cbn [binomial].
      pose proof (binomial_positive (S d + 9) (S (S d - 1)) ltac:(lia)). lia.
    + specialize (IH ltac:(lia)).
      destruct d' as [|d']; [lia|].
      replace (S (S d') + 9)%nat with (S (S d' + 9)) by lia.
      replace (S (S d') - 1)%nat with (S (S d' - 1)) by lia.
      cbn [binomial]. lia.
  - intros id distances f layer i b Hi. unfold setPruningStatus.
    destruct (N.of_nat (length combos') <=? i)%N; [reflexivity|].
    unfold Weighted.setPruned. cbn [construct Weighted_NeighborLike
      Weighted.make Weighted.num_weight_combinations_].
    replace (N.of_nat (length combos) <=? i)%N with true
      by (symmetry; apply N.leb_le; exact Hi).
    reflexivity.
Qed.

(** ** The further properties at the worked cases *)

Ltac lattice_vector :=
  repeat (constructor; [split; [lia | vm_compute; reflexivity]|]); constructor.

Lemma dominance_verdict_strict_order_witness :
  dominatesb 2 [1; 1]%Q [1; 1]%Q = false /\
  dominatesb 2 [2; 2]%Q [1; 1]%Q = false /\
  dominatesb 2 [1; 1]%Q [3; 3]%Q = true.
Proof.
  destruct (dominance_verdict_strict_order 2 [1; 1]%Q [2; 2]%Q [3; 3]%Q)
    as [Hirrefl [Hasym Htrans]].
  split; [exact Hirrefl|]. split.
  - apply Hasym. reflexivity.
  - apply Htrans; reflexivity.
Defined.

Lemma findSkyline_frontier_antichain_witness :
  findSkyline 2 Example.five [] []
  = (Done, (Example2.five_frontier, Example2.five_remainder)) /\
  forall p q, In p Example2.five_frontier -> In q Example2.five_frontier ->
    ~ Dominates 2 (get_distances q) (get_distances p).
Proof.
  split; [reflexivity|].
  apply (findSkyline_frontier_antichain 2 Example.five Example2.five_frontier
           Example2.five_remainder).
  - distinct_ids.
  - reflexivity.
Defined.

Lemma findSkyline_splits_input_witness :
  exists keep : Plain.MultiVectorNeighbor -> bool,
    Example2.five_frontier = [] ++ filter keep Example.five /\
    Example2.five_remainder = [] ++ filter (fun p => negb (keep p)) Example.five /\
    Permutation (filter keep Example.five ++ filter (fun p => negb (keep p)) Example.five)
                Example.five /\
    (length Example2.five_frontier + length Example2.five_remainder
     = length (@nil Plain.MultiVectorNeighbor) + length (@nil Plain.MultiVectorNeighbor)
       + length Example.five)%nat.
Proof.
  apply (findSkyline_splits_input 2 Example.five [] []). reflexivity.
Defined.

Lemma findSkyline_ties_together_witness :
  In (Example.point 0 [1; 2]%Q true) (firstn 2 Example2.tied) <->
  In (Example.point 1 [1; 2]%Q false) (firstn 2 Example2.tied).
Proof.
  apply (findSkyline_ties_together 2 Example2.tied (firstn 2 Example2.tied)
           (skipn 2 Example2.tied)).
  - distinct_ids.
  - reflexivity.
  - left. reflexivity.
  - right. left. reflexivity.
  - reflexivity.
Defined.

Lemma operator_less_strict_weak_order_witness :
  neighbor_less (Example.point 1 [2; 3]%Q true) (Example.point 0 [1; 5]%Q true) = false /\
  neighbor_less (Example.point 0 [1; 5]%Q true) (Example.point 2 [3; 1]%Q true) = true /\
  neighbor_less (Example.point 2 [3; 1]%Q true) (Example.point 0 [1; 5]%Q true) = false.
Proof.
  destruct (operator_less_strict_weak_order
              (Example.point 0 [1; 5]%Q true) (Example.point 1 [2; 3]%Q true)
              (Example.point 2 [3; 1]%Q true)) as [_ [Hasym [Htrans _]]].
  destruct (operator_less_strict_weak_order
              (Example.point 2 [3; 1]%Q true) (Example.point 1 [2; 3]%Q true)
              (Example.point 0 [1; 5]%Q true)) as [_ [_ [_ Hneg]]].
  split; [apply Hasym; reflexivity|].
  split; [apply Htrans; reflexivity | apply Hneg; reflexivity].
Defined.

Lemma operator_equal_equivalence_witness :
  neighbor_equal (Plain.make 1 [1; 5]%Q false 3) (Example.point 1 [1; 5]%Q true) = true /\
  neighbor_equal (Example.point 1 [1; 5]%Q true) (Plain.make 1 [1; 5]%Q true 7) = true /\
  neighbor_less (Example.point 1 [1; 5]%Q true) (Plain.make 1 [1; 5]%Q false 3) = false /\
  neighbor_greater (Example.point 1 [1; 5]%Q true) (Plain.make 1 [1; 5]%Q false 3) = false /\
  neighbor_not_equal (Example.point 1 [1; 5]%Q true) (Plain.make 1 [1; 5]%Q false 3) = false.
Proof.
  destruct (operator_equal_equivalence
              (Example.point 1 [1; 5]%Q true) (Plain.make 1 [1; 5]%Q false 3)
              (Plain.make 1 [1; 5]%Q true 7)) as [_ [Hsym [Htrans [Hsame Horder]]]].
  split; [apply Hsym; reflexivity|].
  split; [apply Htrans; reflexivity|].
  apply Horder, Hsame; reflexivity.
Defined.

Lemma initNeighbor_pool_sorted_witness :
  exists s',
    initNeighbor (Example.gps 10) Example.five = Some (Done, s') /\
    ForallOrdPairs not_after (pool_ s').
Proof.
  apply (initNeighbor_pool_sorted (Example.gps 10) Example.five). right_dimension.
Defined.

Lemma initNeighbor_keeps_every_point_witness :
  exists s',
    initNeighbor (Example.gps 10) Example.five = Some (Done, s') /\
    Permutation (map point_key (pool_ s'))
                (map point_key (pool_ (Example.gps 10) ++ Example.five)) /\
    getPoolSize s' = (getPoolSize (Example.gps 10) + length Example.five)%nat /\
    (forall e, In e (pool_ s') -> In e (pool_ (Example.gps 10)) \/ get_flag e = true).
Proof.
  apply (initNeighbor_keeps_every_point (Example.gps 10) Example.five). right_dimension.
Defined.

Lemma initNeighbor_layer_chain_witness :
  exists s',
    initNeighbor (Example.gps 10) Example.five = Some (Done, s') /\
    forall e, In e (pool_ s') -> (1 <= get_layer e)%Z ->
      exists e', In e' (pool_ s') /\ get_layer e' = (get_layer e - 1)%Z /\
                 Dominates 2 (get_distances e') (get_distances e).
Proof.
  apply (initNeighbor_layer_chain (Example.gps 10) Example.five);
    [reflexivity | right_dimension].
Defined.

Lemma initNeighbor_layer_numbers_witness :
  exists s',
    initNeighbor (Example.gps 10) Example.five = Some (Done, s') /\
    (0 <= getNumLayer s' <= Z.of_nat (length Example.five))%Z /\
    (Example.five <> [] -> 1 <= getNumLayer s')%Z /\
    (forall e, In e (pool_ s') -> 0 <= get_layer e < getNumLayer s')%Z /\
    (forall L, (0 <= L < getNumLayer s')%Z ->
       exists e, In e (pool_ s') /\ get_layer e = L).
Proof.
  apply (initNeighbor_layer_numbers (Example.gps 10) Example.five);
    [reflexivity | right_dimension].
Defined.

Lemma initNeighbor_rejects_wrong_dimension_witness :
  initNeighbor (Example.gps 10) Example.mixed
  = Some (Thrown invalid_argument, Example.gps 10).
Proof.
  apply (initNeighbor_rejects_wrong_dimension (Example.gps 10) Example.mixed).
  apply Exists_cons_tl, Exists_cons_hd. discriminate.
Defined.

Lemma copy_has_layers_but_no_points_witness :
  exists s',
    initNeighbor (Example.gps 10) Example.five = Some (Done, s') /\
    (0 < getPoolSize s')%nat /\
    getPoolSize (copy_pool s') = 0%nat /\
    outlier_ (copy_pool s') = [] /\
    getNumLayer (copy_pool s') = getNumLayer s' /\
    (1 <= getNumLayer (copy_pool s'))%Z.
Proof.
  apply (copy_has_layers_but_no_points (Example.gps 10) Example.five);
    [discriminate | right_dimension].
Defined.

Lemma updateNeighbor_keeps_up_to_capacity_witness :
  exists s',
    updateNeighbor Example.gps_two = Some (Done, s') /\
    (Nat.min (M_ Example.gps_two) (getPoolSize Example.gps_two)
     <= getPoolSize s' <= getPoolSize Example.gps_two)%nat /\
    ((getPoolSize Example.gps_two <= M_ Example.gps_two)%nat ->
     getPoolSize s' = getPoolSize Example.gps_two).
Proof.
  apply (updateNeighbor_keeps_up_to_capacity Example.gps_two). right_dimension.
Defined.

Lemma updateNeighbor_layer_monotone_witness :
  exists s',
    updateNeighbor Example.gps_five = Some (Done, s') /\
    forall p q, In p (pool_ s') -> In q (pool_ s') ->
      (get_layer p < get_layer q)%Z ->
      ~ Dominates 2 (get_distances q) (get_distances p).
Proof.
  apply (updateNeighbor_layer_monotone Example.gps_five);
    [distinct_ids | right_dimension].
Defined.


Lemma updateNeighbor_after_setNumDimensions_witness :
  exists s1 s2,
    setNumDimensions Example.gps_five 3 = (Done, s1) /\
    pool_ s1 = pool_ Example.gps_five /\ num_dimensions_ s1 = 3%nat /\
    updateNeighbor s1 = Some (Thrown invalid_argument, s2) /\
    pool_ s2 = [] /\ outlier_ s2 = outlier_ Example.gps_five.
Proof.
  apply (updateNeighbor_after_setNumDimensions Example.gps_five 3).
  - discriminate.
  - right_dimension.
  - cbn. lia.
  - lia.
  - discriminate.
Defined.

Lemma insert_keeps_ids_unique_witness :
  exists c s',
    insert Example.gps_five 7 [1; 1]%Q = (c, s') /\
    NoDup (map get_id (pool_ s')) /\
    NoDup (map get_id (outlier_ s')) /\
    pool_ s' = pool_ Example.gps_five /\
    getNumLayer s' = getNumLayer Example.gps_five /\
    (c = Done -> In 7%N (map get_id (pool_ s' ++ outlier_ s'))) /\
    (c <> Done -> s' = Example.gps_five /\
                  length [1; 1]%Q <> num_dimensions_ Example.gps_five).
Proof.
  apply (insert_keeps_ids_unique Example.gps_five 7 [1; 1]%Q); distinct_ids.
Defined.

Lemma initQueue_appends_all_points_witness :
  exists q' added,
    initQueue Example.queue Example.five = Some (Done, q') /\
    q_pool_ q' = q_pool_ Example.queue ++ added /\
    Permutation (map point_key added) (map point_key Example.five) /\
    length (q_pool_ q') = (length (q_pool_ Example.queue) + length Example.five)%nat /\
    ForallOrdPairs (fun a b => (get_layer a <= get_layer b)%Z) added /\
    (forall e, In e added ->
       get_flag e = true /\ (0 <= get_layer e < q_num_layer_ q')%Z) /\
    q_num_layer_ q'
    = Z.of_nat (length (peel (length Example.five) (q_num_dimensions_ Example.queue)
                             Example.five)) /\
    (forall L, (0 <= L < q_num_layer_ q')%Z ->
       exists e, In e added /\ get_layer e = L) /\
    (0 <= q_num_layer_ q' <= Z.of_nat (length Example.five))%Z /\
    (Example.five <> [] -> 1 <= q_num_layer_ q')%Z /\
    q_M_ q' = q_M_ Example.queue /\
    q_num_dimensions_ q' = q_num_dimensions_ Example.queue.
Proof.
  apply (initQueue_appends_all_points Example.queue Example.five). right_dimension.
Defined.

Lemma initQueue_rejects_wrong_dimension_witness :
  initQueue Example2.empty_queue Example.mixed
  = Some (Thrown invalid_argument, Example2.empty_queue).
Proof.
  apply (initQueue_rejects_wrong_dimension Example2.empty_queue Example.mixed).
  apply Exists_cons_tl, Exists_cons_hd. discriminate.
Defined.

Lemma queue_updateNeighbor_leaves_nk_without_flag_witness :
  exists q',
    queue_updateNeighbor Example2.unflagged_queue (-1) = Some (Done, (q', (-1)%Z)) /\
    first_flagged (q_pool_ q') = None.
Proof.
  apply (queue_updateNeighbor_leaves_nk_without_flag Example2.unflagged_queue (-1)).
  - right_dimension.
  - repeat constructor.
Defined.

Lemma getWeightCombinationIndex_base11_witness :
  getWeightCombinationIndex [tenth 3; tenth 7] = Normal (base11 [3; 7]%nat) /\
  (base11 [3; 7]%nat < 11 ^ N.of_nat (length [3; 7]%nat))%N /\
  (base11 [3; 7]%nat <= SIZE_MAX)%N.
Proof.
  apply (getWeightCombinationIndex_base11 [tenth 3; tenth 7] [3; 7]%nat).
  - lattice_vector.
  - cbn. lia.
Defined.

Lemma getWeightCombinationIndex_unique_witness :
  getWeightCombinationIndex [tenth 0; tenth 10]
  = getWeightCombinationIndex [S754_zero true; tenth 10] /\
  [0; 10]%nat = [0; 10]%nat.
Proof.
  assert (Hsame : getWeightCombinationIndex [tenth 0; tenth 10]
                  = getWeightCombinationIndex [S754_zero true; tenth 10])
    by (vm_compute; reflexivity).
  split; [exact Hsame|].
  apply (getWeightCombinationIndex_unique
           [tenth 0; tenth 10] [S754_zero true; tenth 10] [0; 10]%nat [0; 10]%nat).
  - lattice_vector.
  - lattice_vector.
  - reflexivity.
  - cbn. lia.
  - exact Hsame.
Defined.

Lemma getWeightIndex_finds_position_witness :
  exists combos,
    generateWeightCombinations 3 = Some combos /\
    (forall i w js, nth_error (compositions 3 10) i = Some js ->
       Forall2 is_tenth w js ->
       getWeightIndex 3 combos w = Normal (N.of_nat i)) /\
    (forall i, (i < length combos)%nat ->
       getWeightIndex 3 combos (nth i combos []) = Normal (N.of_nat i)).
Proof.
  apply (getWeightIndex_finds_position 3). lia.
Defined.

Lemma getWeightIndex_not_found_witness :
  exists combos,
    generateWeightCombinations 2 = Some combos /\
    getWeightIndex 2 combos [tenth 3; tenth 3] = Normal SIZE_MAX.
Proof.
  apply (getWeightIndex_not_found 2 [tenth 3; tenth 3] [3; 3]%nat).
  - lia.
  - lattice_vector.
  - left. discriminate.
Defined.

Lemma weighted_updateNeighbor_forgets_pruning_witness :
  Weighted.isPruned Example2.pruned_point 3 = Normal true /\
  exists c s',
    updateNeighbor (NL := Weighted_NeighborLike 11) Example2.weighted_pool
      = Some (c, s') /\
    forall e, In e (pool_ s') ->
      (forall i, (i < 11)%N -> Weighted.isPruned e i = Normal false) /\
      (forall i, calculatePruningStatus 11 [] e i = Normal false).
Proof.
  split; [reflexivity|].
  apply (weighted_updateNeighbor_forgets_pruning 11 [] Example2.weighted_pool).
  vm_compute. discriminate.
Defined.

Lemma setPruned_keeps_bitmap_clean_witness :
  bitmap_clean Example2.pruned_point.
Proof.
  destruct setPruned_keeps_bitmap_clean as [Hmake Hset].
  apply Hset, Hmake. vm_compute. discriminate.
Defined.

Lemma MultiVectorDEG_table_and_bitmaps_witness :
  DEG.make 10 5 0 = Some (Thrown invalid_argument) /\
  DEG.make 10 5 9 = Some (Thrown invalid_argument) /\
  exists g,
    DEG.make 10 5 2 = Some (Normal g) /\
    pool_ (DEG.pool g) = [] /\ outlier_ (DEG.pool g) = [] /\
    M_ (DEG.pool g) = 10%nat /\ Q_ (DEG.pool g) = 5%nat /\
    num_layer_ (DEG.pool g) = 0%Z /\ num_dimensions_ (DEG.pool g) = 2%nat /\
    Forall2 (Forall2 is_tenth) (DEG.weight_combinations_ g) (compositions 2 10) /\
    DEG.getNumWeightCombinations g = N.of_nat (binomial (2 + 9) (2 - 1)) /\
    (1 <= DEG.getNumWeightCombinations g)%N /\
    forall id distances f layer i b,
      (i < DEG.getNumWeightCombinations g)%N ->
      exists p',
        setPruningStatus (DEG.getNumWeightCombinations g)
          (construct (NeighborLike := Weighted_NeighborLike (DEG.getNumWeightCombinations g))
             id distances f layer) i b = (Done, p') /\
        calculatePruningStatus (DEG.getNumWeightCombinations g)
          (DEG.weight_combinations_ g) p' i = Normal b.
Proof.
  split; [apply (MultiVectorDEG_table_and_bitmaps 10 5 0); left; lia|].
  split; [apply (MultiVectorDEG_table_and_bitmaps 10 5 9); right; lia|].
  apply (MultiVectorDEG_table_and_bitmaps 10 5 2). lia.
Defined.

Lemma setNumDimensions_leaves_stale_bitmaps_witness :
  exists g g',
    DEG.make 10 5 2 = Some (Normal g) /\
    DEG.setNumDimensions g 3 = Some (Done, g') /\
    pool_ (DEG.pool g') = pool_ (DEG.pool g) /\
    outlier_ (DEG.pool g') = outlier_ (DEG.pool g) /\
    num_dimensions_ (DEG.pool g') = 3%nat /\
    (DEG.getNumWeightCombinations g < DEG.getNumWeightCombinations g')%N /\
    forall id distances f layer i b,
      (DEG.getNumWeightCombinations g <= i)%N ->
      setPruningStatus (DEG.getNumWeightCombinations g')
        (construct (NeighborLike := Weighted_NeighborLike (DEG.getNumWeightCombinations g))
           id distances f layer) i b
      = (Thrown out_of_range,
         construct (NeighborLike := Weighted_NeighborLike (DEG.getNumWeightCombinations g))
           id distances f layer).
Proof.
  apply (setNumDimensions_leaves_stale_bitmaps 10 5 2 3); lia.
Defined.

Lemma updateNeighbor_soft_capacity_witness :
  exists r, updateNeighbor Example.gps_two = Some r /\
    forall s', r = (Done, s') ->
      (length (pool_ s') <= length (pool_ Example.gps_two))%nat /\
      (pool_ s' = [] \/
       exists below last_layer later,
         peel (length (pool_ Example.gps_two)) (num_dimensions_ Example.gps_two)
              (sort (pool_ Example.gps_two))
           = below ++ last_layer :: later /\
         pool_ s' = layered_kept 0 below
                    ++ emplace_kept (Z.of_nat (length below)) last_layer /\
         (length (layered_kept 0 below) < M_ s')%nat /\
         last_layer <> [] /\
         (length (pool_ s') < M_ s' + length last_layer)%nat /\
         num_layer_ s' = (Z.of_nat (length below) + 1)%Z /\
         (forall e, In e (emplace_kept (Z.of_nat (length below)) last_layer) ->
            get_layer e = (num_layer_ s' - 1)%Z) /\
         (forall e, In e (layered_kept 0 below) ->
            (0 <= get_layer e < num_layer_ s' - 1)%Z)).
Proof. exact (updateNeighbor_soft_capacity Example.gps_two). Defined.

(** ** The queues a program can have *)

Section ReachableQueues.
Context {P : Type} {NL : NeighborLike P}.






End ReachableQueues.

